(** * xurls: extraction of URLs from plain text with regular expressions

    The Go package [xurls] (file [xurls.go]) assembles three regular
    expressions from string constants and from generated tables, compiles
    them with the standard [regexp] package and puts them into
    leftmost-longest mode.

    This development embeds the package the way it is written: the constants
    are the pattern strings of the source, [anyOf], [strictExp], [relaxedExp],
    [Strict], [Relaxed] and [StrictMatchingScheme] are the source functions,
    and the slices of [relaxedExp] live in an explicit store of backing
    arrays.  The packages the code calls into ([unicode/utf8], [regexp/syntax]
    and [regexp]) are modelled by the modules [Utf8], [Syntax] and [Regexp]:
    a UTF-8 decoder, a parser of the pattern syntax into a syntax tree, and a
    leftmost-longest matcher over decoded text. *)

From Stdlib Require Import List String Ascii NArith Arith Bool Lia.
From Stdlib Require Import Permutation Btauto.
Import ListNotations.

Set Implicit Arguments.

(** ** Results of fallible operations *)

(** Error codes of [regexp/syntax].  [ErrUnmodelled] is not a Go error: it
    marks pattern syntax outside the fragment that the model covers. *)
Inductive ErrorCode :=
| ErrInternalError
| ErrInvalidCharRange
| ErrInvalidEscape
| ErrInvalidPerlOp
| ErrInvalidRepeatOp
| ErrInvalidRepeatSize
| ErrInvalidUTF8
| ErrMissingBracket
| ErrMissingParen
| ErrMissingRepeatArgument
| ErrTrailingBackslash
| ErrUnexpectedParen
| ErrIndexOutOfRange
| ErrUnmodelled.

Inductive result (A : Type) : Type :=
| Ok (a : A)
| Err (e : ErrorCode).
Arguments Err {A} e.

Definition bind {A B : Type} (m : result A) (k : A -> result B) : result B :=
  match m with
  | Ok a => k a
  | Err e => Err e
  end.

Notation "x <- m ;; k" := (bind m (fun x => k))
  (at level 61, m at next level, right associativity).
Notation "' p <- m ;; k" := (bind m (fun x => let p := x in k))
  (at level 61, p pattern, m at next level, right associativity).

(** ** Package [unicode/utf8] *)

Module Utf8.

Definition rune := N.
Definition RuneError : rune := 0xFFFD%N.
Definition RuneSelf : N := 0x80%N.
Definition MaxRune : rune := 0x10FFFF%N.

(** A Go string is a sequence of bytes. *)
Definition bytes (s : string) : list N := map N_of_ascii (list_ascii_of_string s).

Local Open Scope N_scope.

(** The table [first] of the decoder: for a leading byte of a multi-byte
    sequence, the length of the sequence and the range accepted for its
    second byte. *)
Definition lead (b : N) : option (nat * N * N) :=
  if b <? 0xC2 then None
  else if b <? 0xE0 then Some (2%nat, 0x80, 0xBF)
  else if b =? 0xE0 then Some (3%nat, 0xA0, 0xBF)
  else if b <? 0xED then Some (3%nat, 0x80, 0xBF)
  else if b =? 0xED then Some (3%nat, 0x80, 0x9F)
  else if b <? 0xF0 then Some (3%nat, 0x80, 0xBF)
  else if b =? 0xF0 then Some (4%nat, 0x90, 0xBF)
  else if b <? 0xF4 then Some (4%nat, 0x80, 0xBF)
  else if b =? 0xF4 then Some (4%nat, 0x80, 0x8F)
  else None.

Definition cont (b : N) : bool := (0x80 <=? b) && (b <=? 0xBF).

Definition bits (b mask : N) : N := N.land b mask.

(** [decode bs] steps through [bs] with [DecodeRune]: every element is a
    rune with its width in bytes; a byte that starts no valid sequence
    yields [(RuneError, 1)]. *)
Fixpoint decode (bs : list N) : list (rune * nat) :=
  match bs with
  | [] => []
  | s0 :: t0 =>
    if s0 <? RuneSelf then (s0, 1%nat) :: decode t0 else
    match lead s0 with
    | None => (RuneError, 1%nat) :: decode t0
    | Some (sz, lo, hi) =>
      match t0 with
      | [] => (RuneError, 1%nat) :: decode t0
      | s1 :: t1 =>
        if negb ((lo <=? s1) && (s1 <=? hi)) then (RuneError, 1%nat) :: decode t0
        else if (sz <=? 2)%nat then
          (N.lor (N.shiftl (bits s0 0x1F) 6) (bits s1 0x3F), 2%nat) :: decode t1
        else
          match t1 with
          | [] => (RuneError, 1%nat) :: decode t0
          | s2 :: t2 =>
            if negb (cont s2) then (RuneError, 1%nat) :: decode t0
            else if (sz <=? 3)%nat then
              (N.lor (N.shiftl (bits s0 0x0F) 12)
                 (N.lor (N.shiftl (bits s1 0x3F) 6) (bits s2 0x3F)), 3%nat) :: decode t2
            else
              match t2 with
              | [] => (RuneError, 1%nat) :: decode t0
              | s3 :: t3 =>
                if negb (cont s3) then (RuneError, 1%nat) :: decode t0
                else
                  (N.lor (N.shiftl (bits s0 0x07) 18)
                     (N.lor (N.shiftl (bits s1 0x3F) 12)
                        (N.lor (N.shiftl (bits s2 0x3F) 6) (bits s3 0x3F))), 4%nat)
                  :: decode t3
              end
          end
      end
    end
  end.

Definition DecodeRune (bs : list N) : rune * nat :=
  match decode bs with
  | [] => (RuneError, 0%nat)
  | x :: _ => x
  end.

(** An encoding error is reported as [RuneError] of width 1. *)
Definition bad (x : rune * nat) : bool := (fst x =? RuneError) && (snd x =? 1)%nat.

Definition ValidString (s : string) : bool := forallb (fun x => negb (bad x)) (decode (bytes s)).

Definition runes (s : string) : list rune := map fst (decode (bytes s)).

End Utf8.

(** ** Package [regexp/syntax]: pattern syntax *)

Module Syntax.
Import Utf8.

Local Open Scope N_scope.

Definition chr (a : ascii) : rune := N_of_ascii a.
Arguments chr a%_char.
Notation "c =c a" := (N.eqb c (chr a)) (at level 70, no associativity).

Definition isDigit (c : rune) : bool := (0x30 <=? c) && (c <=? 0x39).
Definition isUpper (c : rune) : bool := (0x41 <=? c) && (c <=? 0x5A).
Definition isLower (c : rune) : bool := (0x61 <=? c) && (c <=? 0x7A).
Definition isalnum (c : rune) : bool := isDigit c || isUpper c || isLower c.
Definition isOctal (c : rune) : bool := (0x30 <=? c) && (c <=? 0x37).

Definition unhex (c : rune) : option N :=
  if isDigit c then Some (c - 0x30)
  else if (0x61 <=? c) && (c <=? 0x66) then Some (c - 0x61 + 10)
  else if (0x41 <=? c) && (c <=? 0x46) then Some (c - 0x41 + 10)
  else None.

(** *** Syntax trees *)

(** Parser flags that a pattern can switch: [(?i)], [(?m)], [(?s)], [(?U)]. *)
Record Flags := mkFlags {
  FoldCase : bool;
  OneLine : bool;
  DotNL : bool;
  NonGreedy : bool
}.

(** [regexp.Compile] parses with the flag set [syntax.Perl]. *)
Definition Perl : Flags :=
  {| FoldCase := false; OneLine := true; DotNL := false; NonGreedy := false |}.

Inductive FlagName := FlagI | FlagM | FlagS | FlagU.

(** The Unicode general categories the package's patterns name. *)
Inductive Category := CatL | CatM | CatN.

Inductive PerlClass := PerlD | PerlS | PerlW.

Inductive ClassItem :=
| Range (lo hi : rune)
| PerlGroup (neg : bool) (g : PerlClass)
| UnicodeGroup (neg : bool) (c : Category).

Inductive Regexp :=
| EmptyMatch
| Literal (fold : bool) (r : rune)
| CharClass (fold neg : bool) (items : list ClassItem)
| AnyChar (nl : bool)
| BeginLine
| EndLine
| BeginText
| EndText
| WordBoundary
| NoWordBoundary
| Capture (sub : Regexp)
| Star (sub : Regexp)
| Plus (sub : Regexp)
| Quest (sub : Regexp)
| Repeat (min : nat) (max : option nat) (sub : Regexp)
| Concat (a b : Regexp)
| Alternate (a b : Regexp).

(** *** Lexical analysis

    The parser of [regexp/syntax] works in one pass over the pattern.  The
    model splits the pass in two: [lex] cuts the pattern into tokens, with
    the first lexical error as the last token, and the parser consumes the
    tokens from left to right, so that the first error of the pass is the
    one reported. *)

Inductive Token :=
| TLit (r : rune)
| TClass (neg : bool) (items : list ClassItem)
| TDot
| TCaret
| TDollar
| TOp (r : Regexp)
| TOpen
| TGroup (ops : list (bool * FlagName))
| TSetFlags (ops : list (bool * FlagName))
| TClose
| TAlt
| TStar
| TPlus
| TQuest
| TRepeat (min : nat) (max : option nat)
| TErr (e : ErrorCode).

(** [parseInt]: a decimal number without leading zeros. *)
Fixpoint digits (s : list rune) (acc : N) : N * list rune :=
  match s with
  | c :: t => if isDigit c then digits t (acc * 10 + (c - 0x30)) else (acc, s)
  | [] => (acc, s)
  end.

Definition parseInt (s : list rune) : option (N * list rune) :=
  match s with
  | [] => None
  | c :: t =>
    if negb (isDigit c) then None
    else match t with
         | d :: _ => if (c =c "0") && isDigit d then None else Some (digits s 0)
         | [] => Some (digits s 0)
         end
  end.

(** [parseRepeat], on the text after the opening brace: [{n}], [{n,}] or
    [{n,m}].  [None] when the text is no repetition (the brace is then a
    literal). *)
Definition parseRepeat (s : list rune) : option (N * option N * list rune) :=
  match parseInt s with
  | None => None
  | Some (min, s1) =>
    match s1 with
    | [] => None
    | c :: s2 =>
      if c =c "}" then Some (min, Some min, s2)
      else if c =c "," then
        match s2 with
        | [] => None
        | d :: s3 =>
          if d =c "}" then Some (min, None, s3)
          else match parseInt s2 with
               | None => None
               | Some (max, s4) =>
                 match s4 with
                 | e :: s5 => if e =c "}" then Some (min, Some max, s5) else None
                 | [] => None
                 end
               end
        end
      else None
    end
  end.

Definition repeatSizeOk (min : N) (max : option N) : bool :=
  (min <=? 1000) &&
  match max with
  | None => true
  | Some m => (m <=? 1000) && (min <=? m)
  end.

(** Hexadecimal digits in braces, after [\x{]. *)
Fixpoint hexBraced (t : list rune) (acc : N) (n : nat) : result (rune * list rune) :=
  match t with
  | [] => Err ErrInvalidEscape
  | c :: t' =>
    if c =c "}" then (if (n =? 0)%nat then Err ErrInvalidEscape else Ok (acc, t'))
    else match unhex c with
         | None => Err ErrInvalidEscape
         | Some v =>
           let r := acc * 16 + v in
           if MaxRune <? r then Err ErrInvalidEscape else hexBraced t' r (S n)
         end
  end.

(** Up to [n] further octal digits. *)
Fixpoint octal (n : nat) (t : list rune) (acc : N) : rune * list rune :=
  match n, t with
  | S n', c :: t' => if isOctal c then octal n' t' (acc * 8 + (c - 0x30)) else (acc, t)
  | _, _ => (acc, t)
  end.

(** [parseEscape], on the text after the backslash: one escaped rune. *)
Definition parseEscape (t : list rune) : result (rune * list rune) :=
  match t with
  | [] => Err ErrTrailingBackslash
  | c :: t1 =>
    if isOctal c then
      if negb (c =c "0") && negb (match t1 with d :: _ => isOctal d | [] => false end)
      then Err ErrInvalidEscape
      else Ok (octal 2 t1 (c - 0x30))
    else if c =c "x" then
      match t1 with
      | [] => Err ErrInvalidEscape
      | d :: t2 =>
        if d =c "{" then hexBraced t2 0 0
        else match t2 with
             | [] => Err ErrInvalidEscape
             | e :: t3 =>
               match unhex d, unhex e with
               | Some x, Some y => Ok (x * 16 + y, t3)
               | _, _ => Err ErrInvalidEscape
               end
             end
      end
    else if c =c "a" then Ok (7, t1)
    else if c =c "f" then Ok (12, t1)
    else if c =c "n" then Ok (10, t1)
    else if c =c "r" then Ok (13, t1)
    else if c =c "t" then Ok (9, t1)
    else if c =c "v" then Ok (11, t1)
    else if (c <? RuneSelf) && negb (isalnum c) then Ok (c, t1)
    else Err ErrInvalidEscape
  end.

(** The text up to the first closing brace, and the text after it. *)
Fixpoint untilBrace (t : list rune) : option (list rune * list rune) :=
  match t with
  | [] => None
  | c :: t' =>
    if c =c "}" then Some ([], t')
    else match untilBrace t' with
         | Some (name, rest) => Some (c :: name, rest)
         | None => None
         end
  end.

(** [unicodeTable]: the categories L, M and N are modelled; every other
    name is outside the model. *)
Definition unicodeTable (name : list rune) : result Category :=
  match name with
  | [] => Err ErrInvalidCharRange
  | [c] =>
    if c =c "L" then Ok CatL
    else if c =c "M" then Ok CatM
    else if c =c "N" then Ok CatN
    else Err ErrUnmodelled
  | _ => Err ErrUnmodelled
  end.

(** [parseUnicodeClass], on the text after [\p] ([neg = false]) or [\P]. *)
Definition parseUnicodeClass (neg : bool) (t : list rune) : result (ClassItem * list rune) :=
  match t with
  | [] => Err ErrInvalidCharRange
  | c :: t1 =>
    if c =c "{" then
      match untilBrace t1 with
      | None => Err ErrInvalidCharRange
      | Some (name, rest) =>
        let '(neg', name') :=
          match name with
          | d :: name1 => if d =c "^" then (negb neg, name1) else (neg, name)
          | [] => (neg, name)
          end in
        cat <- unicodeTable name' ;;
        Ok (UnicodeGroup neg' cat, rest)
      end
    else
      cat <- (if c =c "^" then Err ErrInvalidCharRange else unicodeTable [c]) ;;
      Ok (UnicodeGroup neg cat, t1)
  end.

(** [parsePerlClassEscape], on the rune after the backslash. *)
Definition perlClass (c : rune) : option ClassItem :=
  if c =c "d" then Some (PerlGroup false PerlD)
  else if c =c "D" then Some (PerlGroup true PerlD)
  else if c =c "s" then Some (PerlGroup false PerlS)
  else if c =c "S" then Some (PerlGroup true PerlS)
  else if c =c "w" then Some (PerlGroup false PerlW)
  else if c =c "W" then Some (PerlGroup true PerlW)
  else None.

(** [parseClassChar]: one rune of a bracketed class. *)
Definition parseClassChar (t : list rune) : result (rune * list rune) :=
  match t with
  | [] => Err ErrMissingBracket
  | c :: t' => if c =c "\" then parseEscape t' else Ok (c, t')
  end.

(** One item of a bracketed class: a group escape, a rune or a range. *)
Definition classItem (t : list rune) : result (ClassItem * list rune) :=
  let single :=
    '(lo, t1) <- parseClassChar t ;;
    match t1 with
    | d :: (e :: _) as t2 =>
      if (d =c "-") && negb (e =c "]") then
        '(hi, t3) <- parseClassChar t2 ;;
        if hi <? lo then Err ErrInvalidCharRange else Ok (Range lo hi, t3)
      else Ok (Range lo lo, t1)
    | _ => Ok (Range lo lo, t1)
    end in
  match t with
  | c :: d :: t2 =>
    if (c =c "[") && (d =c ":") && negb (match t2 with [] => true | _ => false end)
    then Err ErrUnmodelled
    else if (c =c "\") && (d =c "p") then parseUnicodeClass false t2
    else if (c =c "\") && (d =c "P") then parseUnicodeClass true t2
    else if c =c "\" then
      match perlClass d with
      | Some it => Ok (it, t2)
      | None => single
      end
    else single
  | _ => single
  end.

(** The items of a bracketed class up to the closing bracket; a bracket in
    first position is a literal. *)
Fixpoint classItems (fuel : nat) (first : bool) (t : list rune) (acc : list ClassItem)
  : result (list ClassItem * list rune) :=
  match fuel with
  | O => Err ErrInternalError
  | S fuel' =>
    match t with
    | c :: t' =>
      if (c =c "]") && negb first then Ok (rev acc, t')
      else '(it, rest) <- classItem t ;; classItems fuel' false rest (it :: acc)
    | [] => Err ErrMissingBracket
    end
  end.

(** [parseClass], on the text after the opening bracket. *)
Definition parseClass (t : list rune) : result (bool * list ClassItem * list rune) :=
  let '(neg, t1) :=
    match t with
    | c :: t' => if c =c "^" then (true, t') else (false, t)
    | [] => (false, t)
    end in
  '(items, rest) <- classItems (S (List.length t1)) true t1 [] ;;
  Ok (neg, items, rest).

(** The flags of [(?flags)] and [(?flags:], on the text after [(?]. *)
Definition flagName (c : rune) : option FlagName :=
  if c =c "i" then Some FlagI
  else if c =c "m" then Some FlagM
  else if c =c "s" then Some FlagS
  else if c =c "U" then Some FlagU
  else None.

Fixpoint perlFlags (t : list rune) (neg saw : bool) (acc : list (bool * FlagName))
  : option (list (bool * FlagName) * bool * list rune) :=
  match t with
  | [] => None
  | c :: t' =>
    match flagName c with
    | Some f => perlFlags t' neg true ((neg, f) :: acc)
    | None =>
      if c =c "-" then (if neg then None else perlFlags t' true false acc)
      else if (c =c ":") || (c =c ")") then
        if neg && negb saw then None else Some (rev acc, c =c ":", t')
      else None
    end
  end.

(** A repetition operator may carry the non-greedy mark [?]. *)
Definition skipLazy (t : list rune) : list rune :=
  match t with
  | c :: t' => if c =c "?" then t' else t
  | [] => t
  end.

(** The first token of a non-empty pattern text and the text after it.  An
    error ends the pass: there is no text after it. *)
Definition lexOne (c : rune) (t1 : list rune) : Token * list rune :=
  if c =c "(" then
    match t1 with
    | q :: t2 =>
      if q =c "?" then
        match t2 with
        | p :: _ =>
          if (p =c "P") || (p =c "<") then (TErr ErrUnmodelled, [])
          else match perlFlags t2 false false [] with
               | Some (ops, true, rest) => (TGroup ops, rest)
               | Some (ops, false, rest) => (TSetFlags ops, rest)
               | None => (TErr ErrMissingParen, [])
               end
        | [] => (TErr ErrMissingParen, [])
        end
      else (TOpen, t1)
    | [] => (TOpen, t1)
    end
  else if c =c "|" then (TAlt, t1)
  else if c =c ")" then (TClose, t1)
  else if c =c "^" then (TCaret, t1)
  else if c =c "$" then (TDollar, t1)
  else if c =c "." then (TDot, t1)
  else if c =c "[" then
    match parseClass t1 with
    | Ok (neg, items, rest) => (TClass neg items, rest)
    | Err e => (TErr e, [])
    end
  else if c =c "*" then (TStar, skipLazy t1)
  else if c =c "+" then (TPlus, skipLazy t1)
  else if c =c "?" then (TQuest, skipLazy t1)
  else if c =c "{" then
    match parseRepeat t1 with
    | None => (TLit c, t1)
    | Some (min, max, rest) =>
      if repeatSizeOk min max
      then (TRepeat (N.to_nat min) (option_map N.to_nat max), skipLazy rest)
      else (TErr ErrInvalidRepeatSize, [])
    end
  else if c =c "\" then
    match t1 with
    | d :: t2 =>
      if d =c "A" then (TOp BeginText, t2)
      else if d =c "b" then (TOp WordBoundary, t2)
      else if d =c "B" then (TOp NoWordBoundary, t2)
      else if d =c "z" then (TOp EndText, t2)
      else if d =c "C" then (TErr ErrInvalidEscape, [])
      else if d =c "Q" then (TErr ErrUnmodelled, [])
      else if (d =c "p") || (d =c "P") then
        match parseUnicodeClass (d =c "P") t2 with
        | Ok (it, rest) => (TClass false [it], rest)
        | Err e => (TErr e, [])
        end
      else match perlClass d with
           | Some it => (TClass false [it], t2)
           | None =>
             match parseEscape t1 with
             | Ok (r, rest) => (TLit r, rest)
             | Err e => (TErr e, [])
             end
           end
    | [] => (TErr ErrTrailingBackslash, [])
    end
  else (TLit c, t1).

Fixpoint lex (fuel : nat) (t : list rune) : list Token :=
  match fuel, t with
  | S fuel', c :: t1 => let '(tok, rest) := lexOne c t1 in tok :: lex fuel' rest
  | _, _ => []
  end.

Definition tokens (t : list rune) : list Token := lex (List.length t) t.

(** *** Parsing

    The parser keeps the pieces of the concatenation being read and the
    alternatives already finished in the current group, and below them the
    groups that are still open, each with the flags to restore at its closing
    parenthesis. *)

Record Frame := mkFrame {
  alts : list Regexp;
  cat : list Regexp
}.

Record Parser := mkParser {
  cur : Frame;
  stack : list (Frame * Flags * bool);
  flags : Flags;
  lastRepeat : bool
}.

Definition applyFlag (fl : Flags) (op : bool * FlagName) : Flags :=
  let '(neg, f) := op in
  match f with
  | FlagI => mkFlags (negb neg) (OneLine fl) (DotNL fl) (NonGreedy fl)
  | FlagM => mkFlags (FoldCase fl) neg (DotNL fl) (NonGreedy fl)
  | FlagS => mkFlags (FoldCase fl) (OneLine fl) (negb neg) (NonGreedy fl)
  | FlagU => mkFlags (FoldCase fl) (OneLine fl) (DotNL fl) (negb neg)
  end.

Fixpoint mkConcat (l : list Regexp) : Regexp :=
  match l with
  | [] => EmptyMatch
  | [r] => r
  | r :: l' => Concat r (mkConcat l')
  end.

Fixpoint mkAlternate (l : list Regexp) : Regexp :=
  match l with
  | [] => EmptyMatch
  | [r] => r
  | r :: l' => Alternate r (mkAlternate l')
  end.

(** [concat] followed by [alternate]: the expression of a finished group. *)
Definition collapse (f : Frame) : Regexp :=
  mkAlternate (rev (mkConcat (rev (cat f)) :: alts f)).

Fixpoint repeatIsValid (re : Regexp) (n : nat) : bool :=
  match re with
  | Repeat min max sub =>
    match max with
    | Some O => true
    | _ =>
      let m := match max with Some m => m | None => min end in
      if (n <? m)%nat then false
      else repeatIsValid sub (if (0 <? m)%nat then Nat.div n m else n)
    end
  | Capture sub | Star sub | Plus sub | Quest sub => repeatIsValid sub n
  | Concat a b | Alternate a b => repeatIsValid a n && repeatIsValid b n
  | _ => true
  end.

Definition push (p : Parser) (r : Regexp) : Parser :=
  mkParser (mkFrame (alts (cur p)) (r :: cat (cur p))) (stack p) (flags p) false.

Definition repeat (p : Parser) (mk : Regexp -> Regexp) (sized : bool) : result Parser :=
  if lastRepeat p then Err ErrInvalidRepeatOp
  else match cat (cur p) with
       | [] => Err ErrMissingRepeatArgument
       | sub :: rest =>
         let re := mk sub in
         if sized && negb (repeatIsValid re 1000) then Err ErrInvalidRepeatSize
         else Ok (mkParser (mkFrame (alts (cur p)) (re :: rest)) (stack p) (flags p) true)
       end.

Definition atLeast2 (min : nat) (max : option nat) : bool :=
  (2 <=? min)%nat || match max with Some m => (2 <=? m)%nat | None => false end.

Definition step (p : Parser) (t : Token) : result Parser :=
  match t with
  | TLit r => Ok (push p (Literal (FoldCase (flags p)) r))
  | TClass neg items => Ok (push p (CharClass (FoldCase (flags p)) neg items))
  | TDot => Ok (push p (AnyChar (DotNL (flags p))))
  | TCaret => Ok (push p (if OneLine (flags p) then BeginText else BeginLine))
  | TDollar => Ok (push p (if OneLine (flags p) then EndText else EndLine))
  | TOp r => Ok (push p r)
  | TOpen =>
    Ok (mkParser (mkFrame [] []) ((cur p, flags p, true) :: stack p) (flags p) false)
  | TGroup ops =>
    Ok (mkParser (mkFrame [] []) ((cur p, flags p, false) :: stack p)
          (fold_left applyFlag ops (flags p)) false)
  | TSetFlags ops =>
    Ok (mkParser (cur p) (stack p) (fold_left applyFlag ops (flags p)) false)
  | TAlt =>
    Ok (mkParser (mkFrame (mkConcat (rev (cat (cur p))) :: alts (cur p)) [])
          (stack p) (flags p) false)
  | TClose =>
    match stack p with
    | [] => Err ErrUnexpectedParen
    | (f, fl, cap) :: st =>
      let r := collapse (cur p) in
      Ok (mkParser (mkFrame (alts f) ((if cap then Capture r else r) :: cat f)) st fl false)
    end
  | TStar => repeat p Star false
  | TPlus => repeat p Plus false
  | TQuest => repeat p Quest false
  | TRepeat min max => repeat p (Repeat min max) (atLeast2 min max)
  | TErr e => Err e
  end.

Fixpoint run (p : Parser) (ts : list Token) : result Parser :=
  match ts with
  | [] => Ok p
  | t :: ts' => p' <- step p t ;; run p' ts'
  end.

Definition start : Parser := mkParser (mkFrame [] []) [] Perl false.

Definition finish (p : Parser) : result Regexp :=
  match stack p with
  | [] => Ok (collapse (cur p))
  | _ :: _ => Err ErrMissingParen
  end.

(** [Parse s Perl].  A pattern that is not valid UTF-8 is rejected (Go
    reports the first error of its single pass; the model reports
    [ErrInvalidUTF8] for every such pattern). *)
Definition Parse (s : string) : result Regexp :=
  if negb (ValidString s) then Err ErrInvalidUTF8
  else p <- run start (tokens (runes s)) ;; finish p.

End Syntax.

(** ** Package [regexp]: compiled expressions and leftmost-longest matching *)

Module Regexp.
Import Utf8 Syntax.

(** [QuoteMeta] puts a backslash before every byte of [\.+*?()|[]{}^$]. *)
Definition special (b : ascii) : bool :=
  existsb (Ascii.eqb b) (list_ascii_of_string "\.+*?()|[]{}^$").

Fixpoint QuoteMeta (s : string) : string :=
  match s with
  | EmptyString => EmptyString
  | String b s' =>
    if special b then String "\" (String b (QuoteMeta s')) else String b (QuoteMeta s')
  end.

(** A compiled expression: its syntax tree and the matching mode. *)
Record Regexp := mkRegexp {
  prog : Syntax.Regexp;
  longest : bool
}.

Definition Compile (expr : string) : result Regexp :=
  re <- Parse expr ;; Ok (mkRegexp re false).

(** [MustCompile] panics where [Compile] fails; the panic carries the error. *)
Definition MustCompile (expr : string) : result Regexp := Compile expr.

(** [re.Longest()] switches the expression to leftmost-longest matching. *)
Definition Longest (re : Regexp) : Regexp := mkRegexp (prog re) true.

(** *** Unicode data

    The tables of package [unicode] are a parameter of matching: the members
    of the categories L, M and N and the case-folding orbits, which the
    model consults for runes outside ASCII only.  Inside ASCII the categories
    and orbits are fixed. *)
Record UnicodeTables := mkUnicode {
  letter : rune -> bool;
  mark : rune -> bool;
  number : rune -> bool;
  orbit : rune -> list rune
}.

Local Open Scope N_scope.

Definition isWordChar (c : rune) : bool := isalnum c || (c =c "_").

Definition KelvinSign : rune := 0x212A.
Definition LongS : rune := 0x17F.

Section Matching.

Variable U : UnicodeTables.

Definition inCategory (c : Category) (r : rune) : bool :=
  if r <? RuneSelf then
    match c with
    | CatL => isUpper r || isLower r
    | CatM => false
    | CatN => isDigit r
    end
  else
    match c with
    | CatL => letter U r
    | CatM => mark U r
    | CatN => number U r
    end.

(** The other runes of the orbit of [r] under [unicode.SimpleFold]. *)
Definition foldOrbit (r : rune) : list rune :=
  if isUpper r then
    (r + 32) :: (if r =c "K" then [KelvinSign] else if r =c "S" then [LongS] else [])
  else if isLower r then
    (r - 32) :: (if r =c "k" then [KelvinSign] else if r =c "s" then [LongS] else [])
  else if r <? RuneSelf then []
  else if r =? KelvinSign then [chr "K"; chr "k"]
  else if r =? LongS then [chr "S"; chr "s"]
  else filter (fun x => RuneSelf <=? x) (orbit U r).

Definition litMatch (fold : bool) (r c : rune) : bool :=
  (c =? r) || (fold && existsb (N.eqb c) (foldOrbit r)).

Definition inPerl (g : PerlClass) (c : rune) : bool :=
  match g with
  | PerlD => isDigit c
  | PerlS => (c =? 9) || (c =? 10) || (c =? 12) || (c =? 13) || (c =? 32)
  | PerlW => isWordChar c
  end.

Definition inSet (it : ClassItem) (c : rune) : bool :=
  match it with
  | Range lo hi => (lo <=? c) && (c <=? hi)
  | PerlGroup _ g => inPerl g c
  | UnicodeGroup _ cat => inCategory cat c
  end.

Definition negated (it : ClassItem) : bool :=
  match it with
  | Range _ _ => false
  | PerlGroup neg _ => neg
  | UnicodeGroup neg _ => neg
  end.

(** Under case folding an item stands for the closure of its set under the
    folding orbits; a negated group is the complement of that closure. *)
Definition itemMatch (fold : bool) (it : ClassItem) (c : rune) : bool :=
  xorb (negated it) (inSet it c || (fold && existsb (inSet it) (foldOrbit c))).

Definition classMatch (fold neg : bool) (items : list ClassItem) (c : rune) : bool :=
  xorb neg (existsb (fun it => itemMatch fold it c) items).

(** *** Positions of a text *)

Variable text : list rune.

Definition at_ (i : nat) : option rune := nth_error text i.

Definition before (i : nat) : option rune :=
  match i with
  | O => None
  | S j => nth_error text j
  end.

Definition isWord (o : option rune) : bool :=
  match o with
  | Some c => isWordChar c
  | None => false
  end.

(** [\b]: an ASCII word character on exactly one side. *)
Definition wordBoundary (i : nat) : bool := xorb (isWord (before i)) (isWord (at_ i)).

Definition isNewline (o : option rune) : bool :=
  match o with
  | Some c => c =? 10
  | None => false
  end.

Definition isNone (o : option rune) : bool :=
  match o with
  | Some _ => false
  | None => true
  end.

(** *** Sets of positions *)

Definition mem (k : nat) (l : list nat) : bool := existsb (Nat.eqb k) l.

Fixpoint union (l1 l2 : list nat) : list nat :=
  match l1 with
  | [] => l2
  | k :: l1' => if mem k l2 then union l1' l2 else k :: union l1' l2
  end.

Fixpoint dedup (l : list nat) : list nat :=
  match l with
  | [] => []
  | k :: l' => if mem k l' then dedup l' else k :: dedup l'
  end.

Definition step1 (p : rune -> bool) (starts : list nat) : list nat :=
  flat_map (fun i => match at_ i with
                     | Some c => if p c then [S i] else []
                     | None => []
                     end) starts.

Definition guard (p : nat -> bool) (starts : list nat) : list nat := filter p starts.

(** The positions reachable from [seen] by iterating [f], which maps a set
    of start positions to the set of end positions of one iteration;
    [frontier] holds the positions found in the last round. *)
Fixpoint closure (f : list nat -> list nat) (fuel : nat) (frontier seen : list nat)
  : list nat :=
  match fuel with
  | O => seen
  | S fuel' =>
    match frontier with
    | [] => seen
    | _ :: _ =>
      let new := dedup (filter (fun k => negb (mem k seen)) (f frontier)) in
      closure f fuel' new (seen ++ new)
    end
  end.

(** Any number of iterations of [f].  Every round but the last finds a new
    position of the text, so that the rounds are bounded by its length. *)
Definition star (f : list nat -> list nat) (starts : list nat) : list nat :=
  closure f (S (List.length text)) (dedup starts) (dedup starts).

Fixpoint iterate (f : list nat -> list nat) (n : nat) (starts : list nat) : list nat :=
  match n with
  | O => starts
  | S n' => iterate f n' (f starts)
  end.

(** Between zero and [n] iterations of [f]. *)
Fixpoint upTo (f : list nat -> list nat) (n : nat) (starts : list nat) : list nat :=
  match n with
  | O => starts
  | S n' => union starts (upTo f n' (f starts))
  end.

(** [ends re starts]: the positions where a match of [re] that begins at
    one of the positions [starts] can end.  This is the set of threads of
    the matching automaton, run over the whole expression at once. *)
Fixpoint ends (re : Syntax.Regexp) (starts : list nat) : list nat :=
  match starts with
  | [] => []
  | _ :: _ =>
    match re with
    | EmptyMatch => starts
    | Literal fold r => step1 (litMatch fold r) starts
    | CharClass fold neg items => step1 (classMatch fold neg items) starts
    | AnyChar nl => step1 (fun c => nl || negb (c =? 10)) starts
    | BeginLine => guard (fun i => (i =? 0)%nat || isNewline (before i)) starts
    | EndLine => guard (fun i => isNone (at_ i) || isNewline (at_ i)) starts
    | BeginText => guard (fun i => (i =? 0)%nat) starts
    | EndText => guard (fun i => isNone (at_ i)) starts
    | WordBoundary => guard wordBoundary starts
    | NoWordBoundary => guard (fun i => negb (wordBoundary i)) starts
    | Capture sub => ends sub starts
    | Star sub => star (ends sub) starts
    | Plus sub => star (ends sub) (ends sub starts)
    | Quest sub => union starts (ends sub starts)
    | Repeat min max sub =>
      let least := iterate (ends sub) min starts in
      match max with
      | Some m => if (m <? min)%nat then [] else upTo (ends sub) (m - min) least
      | None => star (ends sub) least
      end
    | Concat a b => ends b (ends a starts)
    | Alternate a b => union (ends a starts) (ends b starts)
    end
  end.

(** *** Declarative reading of an expression

    [Matches re i j]: the expression matches the text between the positions
    [i] and [j].  [ends] computes this relation ([ends_spec] below). *)

Fixpoint Iter (R : nat -> nat -> Prop) (n : nat) (i j : nat) : Prop :=
  match n with
  | O => i = j
  | S n' => exists k, R i k /\ Iter R n' k j
  end.

Definition Step (p : rune -> bool) (i j : nat) : Prop :=
  j = S i /\ exists c, at_ i = Some c /\ p c = true.

Definition Guard (p : nat -> bool) (i j : nat) : Prop :=
  j = i /\ p i = true.

Fixpoint Matches (re : Syntax.Regexp) (i j : nat) : Prop :=
  match re with
  | EmptyMatch => j = i
  | Literal fold r => Step (litMatch fold r) i j
  | CharClass fold neg items => Step (classMatch fold neg items) i j
  | AnyChar nl => Step (fun c => nl || negb (c =? 10)) i j
  | BeginLine => Guard (fun i => (i =? 0)%nat || isNewline (before i)) i j
  | EndLine => Guard (fun i => isNone (at_ i) || isNewline (at_ i)) i j
  | BeginText => Guard (fun i => (i =? 0)%nat) i j
  | EndText => Guard (fun i => isNone (at_ i)) i j
  | WordBoundary => Guard wordBoundary i j
  | NoWordBoundary => Guard (fun i => negb (wordBoundary i)) i j
  | Capture sub => Matches sub i j
  | Star sub => exists n, Iter (Matches sub) n i j
  | Plus sub => exists n, Iter (Matches sub) (S n) i j
  | Quest sub => j = i \/ Matches sub i j
  | Repeat min max sub =>
    exists n, (min <= n)%nat /\
              match max with Some m => (n <= m)%nat | None => True end /\
              Iter (Matches sub) n i j
  | Concat a b => exists k, Matches a i k /\ Matches b k j
  | Alternate a b => Matches a i j \/ Matches b i j
  end.

Definition maximum (l : list nat) : option nat :=
  match l with
  | [] => None
  | k :: l' => Some (fold_left Nat.max l' k)
  end.

(** The longest match that begins at position [i]. *)
Definition longestAt (re : Syntax.Regexp) (i : nat) : option nat :=
  maximum (ends re [i]).

(** The leftmost-longest match that begins at one of the [n] positions from
    [pos] on. *)
Fixpoint search (re : Syntax.Regexp) (n pos : nat) : option (nat * nat) :=
  match n with
  | O => None
  | S n' =>
    match longestAt re pos with
    | Some e => Some (pos, e)
    | None => search re n' (S pos)
    end
  end.

Definition execute (re : Syntax.Regexp) (pos : nat) : option (nat * nat) :=
  search re (S (List.length text) - pos) pos.

(** The loop of [allMatches]: successive non-overlapping matches; an empty
    match right after the previous match is dropped. *)
Fixpoint allMatches (re : Syntax.Regexp) (fuel pos : nat) (prevMatchEnd : option nat)
  : list (nat * nat) :=
  match fuel with
  | O => []
  | S fuel' =>
    if (List.length text <? pos)%nat then []
    else match execute re pos with
         | None => []
         | Some (b, e) =>
           let empty := (e =? pos)%nat in
           let accept :=
             negb (empty && match prevMatchEnd with
                            | Some p => (b =? p)%nat
                            | None => false
                            end) in
           let pos' := if empty then S pos else e in
           (if accept then [(b, e)] else []) ++ allMatches re fuel' pos' (Some e)
         end
  end.

End Matching.

(** *** Matching strings

    Offsets reported to the caller are byte offsets into the string. *)

Definition offset (ws : list nat) (i : nat) : nat := list_sum (firstn i ws).

Definition unmodelledMode {A : Type} : result A := Err ErrUnmodelled.

(** [re.FindAllStringIndex(s, -1)].  Only leftmost-longest mode is
    modelled. *)
Definition FindAllStringIndex (U : UnicodeTables) (re : Regexp) (s : string)
  : result (list (nat * nat)) :=
  if longest re then
    let d := decode (bytes s) in
    let text := map fst d in
    let ws := map snd d in
    Ok (map (fun m => (offset ws (fst m), offset ws (snd m)))
          (allMatches U text (prog re) (2 + List.length text) 0 None))
  else unmodelledMode.

(** [re.FindAllString(s, -1)]. *)
Definition FindAllString (U : UnicodeTables) (re : Regexp) (s : string)
  : result (list string) :=
  ms <- FindAllStringIndex U re s ;;
  Ok (map (fun m => substring (fst m) (snd m - fst m) s) ms).

(** [re.FindStringIndex(s)]. *)
Definition FindStringIndex (U : UnicodeTables) (re : Regexp) (s : string)
  : result (option (nat * nat)) :=
  if longest re then
    let d := decode (bytes s) in
    let ws := map snd d in
    Ok (option_map (fun m => (offset ws (fst m), offset ws (snd m)))
          (execute U (map fst d) (prog re) 0))
  else unmodelledMode.

(** [re.MatchString(s)]; whether there is a match does not depend on the
    matching mode. *)
Definition MatchString (U : UnicodeTables) (re : Regexp) (s : string) : bool :=
  match execute U (runes s) (prog re) 0 with
  | Some _ => true
  | None => false
  end.

End Regexp.

(** ** Go slices

    A slice is a window into a backing array: the array, the offset of the
    first element, the length and the capacity.  Backing arrays live in a
    store, so that two slices over one array see each other's writes. *)

Module Slice.

Record slice := mkSlice {
  arr : nat;
  off : nat;
  len : nat;
  cap : nat
}.

Definition store := list (list string).

(** The [nil] slice has no backing array. *)
Definition nilSlice : slice := mkSlice 0 0 0 0.

Definition array (h : store) (s : slice) : list string := nth (arr s) h [].

(** The elements seen through [s]. *)
Definition contents (h : store) (s : slice) : list string :=
  firstn (len s) (skipn (off s) (array h s)).

(** [s[i]]; panics when [i] is out of range. *)
Definition index (h : store) (s : slice) (i : nat) : result string :=
  if i <? len s then
    match nth_error (array h s) (off s + i) with
    | Some x => Ok x
    | None => Err ErrIndexOutOfRange
    end
  else Err ErrIndexOutOfRange.

(** [s[lo:]]. *)
Definition from (s : slice) (lo : nat) : result slice :=
  if lo <=? len s then Ok (mkSlice (arr s) (off s + lo) (len s - lo) (cap s - lo))
  else Err ErrIndexOutOfRange.

(** The full slice expression [s[:hi:max]]: length [hi], capacity [max]. *)
Definition upTo3 (s : slice) (hi max : nat) : result slice :=
  if (hi <=? max) && (max <=? cap s) then Ok (mkSlice (arr s) (off s) hi max)
  else Err ErrIndexOutOfRange.

(** Overwrite the cells of [l] from position [i] on with [xs]. *)
Fixpoint write (l : list string) (i : nat) (xs : list string) : list string :=
  match xs with
  | [] => l
  | x :: xs' =>
    write (firstn i l ++ x :: skipn (S i) l) (S i) xs'
  end.

Fixpoint update (h : store) (a : nat) (f : list string -> list string) : store :=
  match h, a with
  | [], _ => []
  | l :: h', O => f l :: h'
  | l :: h', S a' => l :: update h' a' f
  end.

(** [append(s, elems...)]: when the capacity suffices the elements are
    written into the backing array of [s], behind its last element;
    otherwise they go, after a copy of the elements of [s], into a fresh
    array.  (The fresh array of the model has exactly the capacity needed;
    Go may reserve more.) *)
Definition append (h : store) (s : slice) (elems : list string) : store * slice :=
  let n := List.length elems in
  if len s + n <=? cap s then
    (update h (arr s) (fun l => write l (off s + len s) elems),
     mkSlice (arr s) (off s) (len s + n) (cap s))
  else
    ((h ++ [contents h s ++ elems])%list,
     mkSlice (List.length h) 0 (len s + n) (len s + n)).

(** [s[0]] of a string: its first byte; panics on the empty string. *)
Definition firstByte (s : string) : result N :=
  match s with
  | EmptyString => Err ErrIndexOutOfRange
  | String b _ => Ok (N_of_ascii b)
  end.

End Slice.

(** ** Package [xurls] *)

Module Xurls.
Import Utf8 Regexp Slice.

Local Open Scope string_scope.

(** *** Generated tables *)

(** Modelled from the spec: [allowedUcsChar] and [allowedUcsCharMinusPunc]
    are written by the generator [unicodegen] into a file that is not among
    the sources.  The spec describes them as the Unicode code-point ranges
    allowed inside an internationalized path segment, mid-segment and in
    final position; the comment of [pathCont] bases them on RFC 3987,
    section 2.2, without separators anywhere and without most punctuation in
    final position.  They are modelled as the [ucschar] ranges of RFC 3987
    without the code points of the separator categories, and for the final
    position also without those of the category of other punctuation.  All
    their code points lie above U+00A0. *)
Definition allowedUcsChar : string :=
  "\x{A1}-\x{167F}\x{1681}-\x{1FFF}\x{200B}-\x{2027}\x{202A}-\x{202E}" ++
  "\x{2030}-\x{205E}\x{2060}-\x{2FFF}\x{3001}-\x{D7FF}\x{F900}-\x{FDCF}" ++
  "\x{FDF0}-\x{FFEF}\x{10000}-\x{1FFFD}\x{20000}-\x{2FFFD}\x{30000}-\x{3FFFD}" ++
  "\x{40000}-\x{4FFFD}\x{50000}-\x{5FFFD}\x{60000}-\x{6FFFD}\x{70000}-\x{7FFFD}" ++
  "\x{80000}-\x{8FFFD}\x{90000}-\x{9FFFD}\x{A0000}-\x{AFFFD}\x{B0000}-\x{BFFFD}" ++
  "\x{C0000}-\x{CFFFD}\x{D0000}-\x{DFFFD}\x{E1000}-\x{EFFFD}".

Definition allowedUcsCharMinusPunc : string :=
  "\x{A2}-\x{A6}\x{A8}-\x{B5}\x{B8}-\x{BE}\x{C0}-\x{37D}\x{37F}-\x{386}" ++
  "\x{388}-\x{559}\x{560}-\x{588}\x{58A}-\x{5BF}\x{5C1}-\x{5C2}\x{5C4}-\x{5C5}" ++
  "\x{5C7}-\x{5F2}\x{5F5}-\x{608}\x{60B}\x{60E}-\x{61A}\x{61C}" ++
  "\x{620}-\x{669}\x{66E}-\x{6D3}\x{6D5}-\x{6FF}\x{70E}-\x{7F6}\x{7FA}-\x{82F}" ++
  "\x{83F}-\x{85D}\x{85F}-\x{963}\x{966}-\x{96F}\x{971}-\x{9FC}\x{9FE}-\x{A75}" ++
  "\x{A77}-\x{AEF}\x{AF1}-\x{C76}\x{C78}-\x{C83}\x{C85}-\x{DF3}\x{DF5}-\x{E4E}" ++
  "\x{E50}-\x{E59}\x{E5C}-\x{F03}\x{F13}\x{F15}-\x{F84}\x{F86}-\x{FCF}" ++
  "\x{FD5}-\x{FD8}\x{FDB}-\x{1049}\x{1050}-\x{10FA}\x{10FC}-\x{135F}\x{1369}-\x{166D}" ++
  "\x{166F}-\x{167F}\x{1681}-\x{16EA}\x{16EE}-\x{1734}\x{1737}-\x{17D3}\x{17D7}" ++
  "\x{17DB}-\x{17FF}\x{1806}\x{180B}-\x{1943}\x{1946}-\x{1A1D}\x{1A20}-\x{1A9F}" ++
  "\x{1AA7}\x{1AAE}-\x{1B59}\x{1B61}-\x{1B7C}\x{1B7F}-\x{1BFB}\x{1C00}-\x{1C3A}" ++
  "\x{1C40}-\x{1C7D}\x{1C80}-\x{1CBF}\x{1CC8}-\x{1CD2}\x{1CD4}-\x{1FFF}\x{200B}-\x{2015}" ++
  "\x{2018}-\x{201F}\x{202A}-\x{202E}\x{2039}-\x{203A}\x{203F}-\x{2040}\x{2044}-\x{2046}" ++
  "\x{2052}\x{2054}\x{2060}-\x{2CF8}\x{2CFD}\x{2D00}-\x{2D6F}" ++
  "\x{2D71}-\x{2DFF}\x{2E02}-\x{2E05}\x{2E09}-\x{2E0A}\x{2E0C}-\x{2E0D}\x{2E17}" ++
  "\x{2E1A}\x{2E1C}-\x{2E1D}\x{2E20}-\x{2E29}\x{2E2F}\x{2E3A}-\x{2E3B}" ++
  "\x{2E40}\x{2E42}\x{2E50}-\x{2E51}\x{2E55}-\x{2FFF}\x{3004}-\x{303C}" ++
  "\x{303E}-\x{30FA}\x{30FC}-\x{A4FD}\x{A500}-\x{A60C}\x{A610}-\x{A672}\x{A674}-\x{A67D}" ++
  "\x{A67F}-\x{A6F1}\x{A6F8}-\x{A873}\x{A878}-\x{A8CD}\x{A8D0}-\x{A8F7}\x{A8FB}" ++
  "\x{A8FD}-\x{A92D}\x{A930}-\x{A95E}\x{A960}-\x{A9C0}\x{A9CE}-\x{A9DD}\x{A9E0}-\x{AA5B}" ++
  "\x{AA60}-\x{AADD}\x{AAE0}-\x{AAEF}\x{AAF2}-\x{ABEA}\x{ABEC}-\x{D7FF}\x{F900}-\x{FDCF}" ++
  "\x{FDF0}-\x{FE0F}\x{FE17}-\x{FE18}\x{FE1A}-\x{FE2F}\x{FE31}-\x{FE44}\x{FE47}-\x{FE48}" ++
  "\x{FE4D}-\x{FE4F}\x{FE53}\x{FE58}-\x{FE5E}\x{FE62}-\x{FE67}\x{FE69}" ++
  "\x{FE6C}-\x{FF00}\x{FF04}\x{FF08}-\x{FF09}\x{FF0B}\x{FF0D}" ++
  "\x{FF10}-\x{FF19}\x{FF1C}-\x{FF1E}\x{FF21}-\x{FF3B}\x{FF3D}-\x{FF60}\x{FF62}-\x{FF63}" ++
  "\x{FF66}-\x{FFEF}\x{10000}-\x{100FF}\x{10103}-\x{1039E}\x{103A0}-\x{103CF}\x{103D1}-\x{1056E}" ++
  "\x{10570}-\x{10856}\x{10858}-\x{1091E}\x{10920}-\x{1093E}\x{10940}-\x{10A4F}\x{10A59}-\x{10A7E}" ++
  "\x{10A80}-\x{10AEF}\x{10AF7}-\x{10B38}\x{10B40}-\x{10B98}\x{10B9D}-\x{10F54}\x{10F5A}-\x{10F85}" ++
  "\x{10F8A}-\x{11046}\x{1104E}-\x{110BA}\x{110BD}\x{110C2}-\x{1113F}\x{11144}-\x{11173}" ++
  "\x{11176}-\x{111C4}\x{111C9}-\x{111CC}\x{111CE}-\x{111DA}\x{111DC}\x{111E0}-\x{11237}" ++
  "\x{1123E}-\x{112A8}\x{112AA}-\x{1144A}\x{11450}-\x{11459}\x{1145C}\x{1145E}-\x{114C5}" ++
  "\x{114C7}-\x{115C0}\x{115D8}-\x{11640}\x{11644}-\x{1165F}\x{1166D}-\x{116B8}\x{116BA}-\x{1173B}" ++
  "\x{1173F}-\x{1183A}\x{1183C}-\x{11943}\x{11947}-\x{119E1}\x{119E3}-\x{11A3E}\x{11A47}-\x{11A99}" ++
  "\x{11A9D}\x{11AA3}-\x{11C40}\x{11C46}-\x{11C6F}\x{11C72}-\x{11EF6}\x{11EF9}-\x{11FFE}" ++
  "\x{12000}-\x{1246F}\x{12475}-\x{12FF0}\x{12FF3}-\x{16A6D}\x{16A70}-\x{16AF4}\x{16AF6}-\x{16B36}" ++
  "\x{16B3C}-\x{16B43}\x{16B45}-\x{16E96}\x{16E9B}-\x{16FE1}\x{16FE3}-\x{1BC9E}\x{1BCA0}-\x{1DA86}" ++
  "\x{1DA8C}-\x{1E95D}\x{1E960}-\x{1FFFD}\x{20000}-\x{2FFFD}\x{30000}-\x{3FFFD}\x{40000}-\x{4FFFD}" ++
  "\x{50000}-\x{5FFFD}\x{60000}-\x{6FFFD}\x{70000}-\x{7FFFD}\x{80000}-\x{8FFFD}\x{90000}-\x{9FFFD}" ++
  "\x{A0000}-\x{AFFFD}\x{B0000}-\x{BFFFD}\x{C0000}-\x{CFFFD}\x{D0000}-\x{DFFFD}\x{E1000}-\x{EFFFD}".

(** [Schemes], generated by [schemesgen]. *)
Definition Schemes : list string := [
  "aaa"; "aaas"; "about"; "acap"; "acct";
  "acr"; "adiumxtra"; "afp"; "afs"; "aim";
  "appdata"; "apt"; "attachment"; "aw"; "barion";
  "beshare"; "bitcoin"; "blob"; "bolo"; "browserext";
  "callto"; "cap"; "chrome"; "chrome-extension"; "cid";
  "coap"; "coap+tcp"; "coap+ws"; "coaps"; "coaps+tcp";
  "coaps+ws"; "com-eventbrite-attendee"; "content"; "conti"; "crid";
  "cvs"; "data"; "dav"; "diaspora"; "dict";
  "dis"; "dlna-playcontainer"; "dlna-playsingle"; "dns"; "dntp";
  "dtn"; "dvb"; "ed2k"; "example"; "facetime";
  "fax"; "feed"; "feedready"; "file"; "filesystem";
  "finger"; "fish"; "ftp"; "geo"; "gg";
  "git"; "gizmoproject"; "go"; "gopher"; "graph";
  "gtalk"; "h323"; "ham"; "hcp"; "http";
  "https"; "hxxp"; "hxxps"; "hydrazone"; "iax";
  "icap"; "icon"; "im"; "imap"; "info";
  "iotdisco"; "ipn"; "ipp"; "ipps"; "irc";
  "irc6"; "ircs"; "iris"; "iris.beep"; "iris.lwz";
  "iris.xpc"; "iris.xpcs"; "isostore"; "itms"; "jabber";
  "jar"; "jms"; "keyparc"; "lastfm"; "ldap";
  "ldaps"; "lvlt"; "magnet"; "mailserver"; "mailto";
  "maps"; "market"; "message"; "microsoft.windows.camera"; "microsoft.windows.camera.multipicker";
  "microsoft.windows.camera.picker"; "mid"; "mms"; "modem"; "mongodb";
  "moz"; "ms-access"; "ms-browser-extension"; "ms-drive-to"; "ms-enrollment";
  "ms-excel"; "ms-gamebarservices"; "ms-gamingoverlay"; "ms-getoffice"; "ms-help";
  "ms-infopath"; "ms-inputapp"; "ms-lockscreencomponent-config"; "ms-media-stream-id"; "ms-mixedrealitycapture";
  "ms-officeapp"; "ms-people"; "ms-project"; "ms-powerpoint"; "ms-publisher";
  "ms-restoretabcompanion"; "ms-search-repair"; "ms-secondary-screen-controller"; "ms-secondary-screen-setup"; "ms-settings";
  "ms-settings-airplanemode"; "ms-settings-bluetooth"; "ms-settings-camera"; "ms-settings-cellular"; "ms-settings-cloudstorage";
  "ms-settings-connectabledevices"; "ms-settings-displays-topology"; "ms-settings-emailandaccounts"; "ms-settings-language"; "ms-settings-location";
  "ms-settings-lock"; "ms-settings-nfctransactions"; "ms-settings-notifications"; "ms-settings-power"; "ms-settings-privacy";
  "ms-settings-proximity"; "ms-settings-screenrotation"; "ms-settings-wifi"; "ms-settings-workplace"; "ms-spd";
  "ms-sttoverlay"; "ms-transit-to"; "ms-useractivityset"; "ms-virtualtouchpad"; "ms-visio";
  "ms-walk-to"; "ms-whiteboard"; "ms-whiteboard-cmd"; "ms-word"; "msnim";
  "msrp"; "msrps"; "mtqp"; "mumble"; "mupdate";
  "mvn"; "news"; "nfs"; "ni"; "nih";
  "nntp"; "notes"; "ocf"; "oid"; "onenote";
  "onenote-cmd"; "opaquelocktoken"; "pack"; "palm"; "paparazzi";
  "pkcs11"; "platform"; "pop"; "pres"; "prospero";
  "proxy"; "pwid"; "psyc"; "qb"; "query";
  "redis"; "rediss"; "reload"; "res"; "resource";
  "rmi"; "rsync"; "rtmfp"; "rtmp"; "rtsp";
  "rtsps"; "rtspu"; "secondlife"; "service"; "session";
  "sftp"; "sgn"; "shttp"; "sieve"; "sip";
  "sips"; "skype"; "smb"; "sms"; "smtp";
  "snews"; "snmp"; "soap.beep"; "soap.beeps"; "soldat";
  "spiffe"; "spotify"; "ssh"; "steam"; "stun";
  "stuns"; "submit"; "svn"; "tag"; "teamspeak";
  "tel"; "teliaeid"; "telnet"; "tftp"; "things";
  "thismessage"; "tip"; "tn3270"; "tool"; "turn";
  "turns"; "tv"; "udp"; "unreal"; "urn";
  "ut2004"; "v-event"; "vemmi"; "ventrilo"; "videotex";
  "vnc"; "view-source"; "wais"; "webcal"; "wpid";
  "ws"; "wss"; "wtai"; "wyciwyg"; "xcon";
  "xcon-userid"; "xfire"; "xmlrpc.beep"; "xmlrpc.beeps"; "xmpp";
  "xri"; "ymsgr"; "z39.50"; "z39.50r"; "z39.50s"
]%string.

(** *** Constants of [xurls.go] *)

Definition midSubDelimChar := "!$&'*+,;=".
Definition endSubDelimChar := "$&+=".
Definition midIPathSegmentChar :=
  "a-zA-Z0-9\-._~" ++ "%" ++ midSubDelimChar ++ ":@" ++ allowedUcsChar.
Definition endIPathSegmentChar :=
  "a-zA-Z0-9\-_~" ++ "%" ++ endSubDelimChar ++ allowedUcsCharMinusPunc.
Definition iPrivateChar := "\x{E000}-\x{F8FF}\x{F0000}-\x{FFFFD}\x{100000}-\x{10FFFD}".
Definition midIChar := "/?#\\" ++ midIPathSegmentChar ++ iPrivateChar.
Definition endIChar := "/#" ++ endIPathSegmentChar ++ iPrivateChar.
Definition wellParen := "\((?:[" ++ midIChar ++ "]|\([" ++ midIChar ++ "]*\))*\)".
Definition wellBrack := "\[(?:[" ++ midIChar ++ "]|\[[" ++ midIChar ++ "]*\])*\]".
Definition wellBrace := "\{(?:[" ++ midIChar ++ "]|\{[" ++ midIChar ++ "]*\})*\}".
Definition wellAll := wellParen ++ "|" ++ wellBrack ++ "|" ++ wellBrace.
Definition pathCont := "(?:[" ++ midIChar ++ "]*(?:" ++ wellAll ++ "|[" ++ endIChar ++ "]))+".

Definition letter := "\p{L}".
Definition mark := "\p{M}".
Definition number := "\p{N}".
Definition iriChar := letter ++ mark ++ number.
Definition iri := "[" ++ iriChar ++ "](?:[" ++ iriChar ++ "\-]*[" ++ iriChar ++ "])?".
Definition domain := "(?:" ++ iri ++ "\.)+".
Definition octet := "(?:25[0-5]|2[0-4][0-9]|1[0-9]{2}|[1-9][0-9]|[0-9])".
Definition ipv4Addr := "\b" ++ octet ++ "\." ++ octet ++ "\." ++ octet ++ "\." ++ octet ++ "\b".
Definition ipv6Addr := "(?:[0-9a-fA-F]{1,4}:(?:[0-9a-fA-F]{1,4}:(?:[0-9a-fA-F]{1,4}:(?:[0-9a-fA-F]{1,4}:(?:[0-9a-fA-F]{1,4}:[0-9a-fA-F]{0,4}|:[0-9a-fA-F]{1,4})?|(?::[0-9a-fA-F]{1,4}){0,2})|(?::[0-9a-fA-F]{1,4}){0,3})|(?::[0-9a-fA-F]{1,4}){0,4})|:(?::[0-9a-fA-F]{1,4}){0,5})(?:(?::[0-9a-fA-F]{1,4}){2}|:(?:25[0-5]|(?:2[0-4]|1[0-9]|[1-9])?[0-9])(?:\.(?:25[0-5]|(?:2[0-4]|1[0-9]|[1-9])?[0-9])){3})|(?:(?:[0-9a-fA-F]{1,4}:){1,6}|:):[0-9a-fA-F]{1,4}|(?:[0-9a-fA-F]{1,4}:){7}:".
Definition ipAddr := "(?:" ++ ipv4Addr ++ "|" ++ ipv6Addr ++ ")".
Definition port := "(?::[0-9]*)?".

Definition SchemesNoAuthority : list string := [
  "bitcoin";
  "cid";
  "file";
  "magnet";
  "mailto";
  "mid";
  "sms";
  "tel";
  "xmpp"
].

Definition SchemesUnofficial : list string := [
  "gemini";
  "jdbc";
  "moz-extension";
  "postgres";
  "postgresql";
  "slack";
  "zoommtg";
  "zoomus"
].

(** *** Functions of [xurls.go] *)

(** The loop of [anyOf] over [strs], writing to the builder [b]. *)
Fixpoint anyOfLoop (b : string) (i : nat) (strs : list string) : string :=
  match strs with
  | [] => b
  | s :: strs' =>
    let b := if negb (i =? 0)%nat then b ++ "|" else b in
    anyOfLoop (b ++ QuoteMeta s) (S i) strs'
  end.

Definition anyOf (strs : list string) : string :=
  anyOfLoop "(?:" 0 strs ++ ")".

Definition AnyScheme := "(?:[a-zA-Z][a-zA-Z.\-+]*://|" ++ anyOf SchemesNoAuthority ++ ":)".

Definition strictExp : string :=
  let schemes :=
    "(?:(?:" ++ anyOf Schemes ++ "|" ++ anyOf SchemesUnofficial ++ ")://|"
    ++ anyOf SchemesNoAuthority ++ ":)" in
  "(?i)" ++ schemes ++ "(?-i)" ++ pathCont.

(** [Strict]: the expression is compiled on the first call and kept; every
    call returns this value. *)
Definition Strict : result Regexp :=
  strictRe <- MustCompile strictExp ;;
  Ok (Longest strictRe).

Definition StrictMatchingScheme (exp : string) : result Regexp :=
  let strictMatching := "(?i)(?:" ++ exp ++ ")(?-i)" ++ pathCont in
  re <- Compile strictMatching ;;
  Ok (Longest re).

(** The tables [TLDs] and [PseudoTLDs] are generated into files that are
    not among the sources; they are a parameter.  As package-level slice
    literals each of them fills its own backing array: [TLDs] is array 0
    of the store and [PseudoTLDs] array 1. *)
Section Tables.

Variable tlds pseudo : list string.

Definition tables : store := [tlds; pseudo].
Definition TLDs : slice := mkSlice 0 0 (List.length tlds) (List.length tlds).
Definition PseudoTLDs : slice := mkSlice 1 0 (List.length pseudo) (List.length pseudo).

(** The [range] loop of [relaxedExp] from index [i] on, with [n] entries to
    go: the slices are assigned at the first entry whose first byte is not
    ASCII, and stay [nil] when there is none. *)
Fixpoint partition (h : store) (n i : nat) : result (slice * slice) :=
  match n with
  | O => Ok (nilSlice, nilSlice)
  | S n' =>
    tld <- index h TLDs i ;;
    b <- firstByte tld ;;
    if (RuneSelf <=? b)%N then
      asciiTLDs <- upTo3 TLDs i i ;;
      unicodeTLDs <- from TLDs i ;;
      Ok (asciiTLDs, unicodeTLDs)
    else partition h n' (S i)
  end.

(** The expression assembled from the ASCII and the other top-level
    domains. *)
Definition relaxedOf (ascii unicode : list string) : string :=
  let punycode := "xn--[a-z0-9-]+" in
  let tlds := "(?i)(?:" ++ punycode ++ "|" ++ anyOf ascii ++ "\b|" ++ anyOf unicode ++ ")(?-i)" in
  let site := domain ++ tlds in
  let hostName := "(?:" ++ site ++ "|" ++ ipAddr ++ ")" in
  let webURL := hostName ++ port ++ "(?:/" ++ pathCont ++ "|/)?" in
  let email := "[a-zA-Z0-9._%\-+]+@" ++ site in
  strictExp ++ "|" ++ webURL ++ "|" ++ email.

(** [relaxedExp] on the store [h]: the expression and the store it leaves. *)
Definition relaxedExp (h : store) : result (string * store) :=
  '(asciiTLDs, unicodeTLDs) <- partition h (len TLDs) 0 ;;
  let '(h1, all) := append h asciiTLDs (contents h PseudoTLDs) in
  Ok (relaxedOf (contents h1 all) (contents h1 unicodeTLDs), h1).

(** [Relaxed], on the store of the tables. *)
Definition Relaxed : result Regexp :=
  '(exp, _) <- relaxedExp tables ;;
  relaxedRe <- MustCompile exp ;;
  Ok (Longest relaxedRe).

End Tables.

End Xurls.

(** * Auxiliary definitions

    Notions that only the proofs below use. *)

Module Aux.
Import Utf8 Syntax Regexp.

(** Positions of the text [text]. *)
Definition bounded (text : list rune) (l : list nat) : Prop :=
  forall k, In k l -> k <= List.length text.

(** The first [n] tokens of a pattern text and the text after them. *)
Fixpoint lexSteps (n : nat) (t : list rune) : list Token * list rune :=
  match n, t with
  | S n', c :: t1 =>
    let '(tok, rest) := lexOne c t1 in
    let '(toks, t') := lexSteps n' rest in
    (tok :: toks, t')
  | _, _ => ([], t)
  end.

Definition valid (d : list (rune * nat)) : bool := forallb (fun x => negb (bad x)) d.

(** An element of a decoding is plain when it is an ASCII rune of one byte
    or a rune outside ASCII of several bytes. *)
Definition plain (x : rune * nat) : bool :=
  if (snd x =? 1)%nat then (fst x <? RuneSelf)%N else (RuneSelf <=? fst x)%N.

Definition allBytes : list N := map N.of_nat (seq 0 256).

(** The leading bits of a sequence already place the rune outside ASCII. *)
Definition leadCheck (s0 s1 : N) : bool :=
  match lead s0 with
  | None => true
  | Some (sz, lo, hi) =>
    negb ((lo <=? s1) && (s1 <=? hi))%N ||
    (if (sz <=? 2)%nat then RuneSelf <=? N.shiftl (bits s0 0x1F) 6
     else if (sz <=? 3)%nat then
       RuneSelf <=? N.lor (N.shiftl (bits s0 0x0F) 12) (N.shiftl (bits s1 0x3F) 6)
     else RuneSelf <=? N.lor (N.shiftl (bits s0 0x07) 18) (N.shiftl (bits s1 0x3F) 12))%N
  end.

Definition specialRune (r : rune) : bool :=
  existsb (N.eqb r) (map N_of_ascii (list_ascii_of_string "\.+*?()|[]{}^$")).

Definition backslash : rune := chr "\".

Definition quoteRunes (rs : list rune) : list rune :=
  flat_map (fun r => if specialRune r then [backslash; r] else [r]) rs.

Definition quoteDecoded (d : list (rune * nat)) : list (rune * nat) :=
  flat_map (fun x => if specialRune (fst x) then [(backslash, 1); x] else [x]) d.

(** The pattern text of [anyOf]. *)
Fixpoint tailRunes (ls : list (list rune)) : list rune :=
  match ls with
  | [] => []
  | x :: ls' => (chr "|" :: quoteRunes x ++ tailRunes ls')%list
  end.

Definition anyOfRunes (ls : list (list rune)) : list rune :=
  ([chr "("; chr "?"; chr ":"] ++
   match ls with
   | [] => []
   | x :: ls' => quoteRunes x ++ tailRunes ls'
   end ++ [chr ")"])%list.

Fixpoint tailTokens (ls : list (list rune)) : list Token :=
  match ls with
  | [] => []
  | x :: ls' => (TAlt :: map TLit x ++ tailTokens ls')%list
  end.

Definition altTokens (ls : list (list rune)) : list Token :=
  match ls with
  | [] => []
  | x :: ls' => (map TLit x ++ tailTokens ls')%list
  end.

(** The expression of a literal string, and of an alternation of literal
    strings. *)
Definition literalRe (fold : bool) (x : list rune) : Syntax.Regexp :=
  mkConcat (map (Literal fold) x).

Definition anyOfRe (fold : bool) (ls : list (list rune)) : Syntax.Regexp :=
  mkAlternate (map (literalRe fold) ls).

Fixpoint joinTail (l : list string) : string :=
  match l with
  | [] => ""
  | x :: l' => "|" ++ QuoteMeta x ++ joinTail l'
  end.

(** [s] is valid UTF-8 and decodes to [rs]. *)
Definition Decodes (s : string) (rs : list rune) : Prop :=
  ValidString s = true /\ runes s = rs.

Definition allValid (l : list string) : bool := forallb ValidString l.

End Aux.

(** * Windows of a text *)

Module Text.
Import Utf8.

(** The runes of [text] between the positions [i] and [j]. *)
Definition window (text : list rune) (i j : nat) : list rune :=
  firstn (j - i) (skipn i text).

End Text.

(** * The grammar as syntax trees

    The syntax trees that the pattern strings of [xurls.go] parse to, named
    after the constants and variables of the source.  [Parse_strictExp] and
    [Parse_relaxedOf] below tie them to the strings. *)

Module Grammar.
Import Utf8 Syntax Regexp Slice Aux Xurls.
Local Open Scope string_scope.

Definition parsed (s : string) : Syntax.Regexp :=
  match Parse s with
  | Ok r => r
  | Err _ => EmptyMatch
  end.

(** Character classes. *)
Definition midICharRe : Syntax.Regexp := Eval vm_compute in parsed ("[" ++ midIChar ++ "]").
Definition endICharRe : Syntax.Regexp := Eval vm_compute in parsed ("[" ++ endIChar ++ "]").
Definition iriCharRe : Syntax.Regexp := Eval vm_compute in parsed ("[" ++ iriChar ++ "]").
Definition iriInnerRe : Syntax.Regexp := Eval vm_compute in parsed ("[" ++ iriChar ++ "\-]").
Definition digitRe : Syntax.Regexp := Eval vm_compute in parsed "[0-9]".
Definition localCharRe : Syntax.Regexp := Eval vm_compute in parsed "[a-zA-Z0-9._%\-+]".
Definition punyCharRe : Syntax.Regexp := Eval vm_compute in parsed "(?i)[a-z0-9-]".

Definition lit (a : ascii) : Syntax.Regexp := Literal false (chr a).
Arguments lit a%_char.

(** [wellParen], [wellBrack] and [wellBrace]: a delimiter pair around
    interior characters and pairs of the same kind. *)
Definition well (opening closing : Syntax.Regexp) : Syntax.Regexp :=
  Concat opening
    (Concat (Star (Alternate midICharRe
                     (Concat opening (Concat (Star midICharRe) closing))))
       closing).
Definition wellParenRe : Syntax.Regexp := well (lit "(") (lit ")").
Definition wellBrackRe : Syntax.Regexp := well (lit "[") (lit "]").
Definition wellBraceRe : Syntax.Regexp := well (lit "{") (lit "}").
Definition wellAllRe : Syntax.Regexp :=
  Alternate wellParenRe (Alternate wellBrackRe wellBraceRe).

Definition pathContRe : Syntax.Regexp :=
  Plus (Concat (Star midICharRe)
          (Alternate wellParenRe (Alternate wellBrackRe (Alternate wellBraceRe endICharRe)))).

(** The schemes, matched without regard to case. *)
Definition schemesRe : Syntax.Regexp :=
  Alternate
    (Concat (Alternate (anyOfRe true (map runes Schemes))
               (anyOfRe true (map runes SchemesUnofficial)))
       (literalRe true (runes "://")))
    (Concat (anyOfRe true (map runes SchemesNoAuthority)) (Literal true (chr ":"))).
Definition strictRe : Syntax.Regexp := Concat schemesRe pathContRe.

Definition domainRe : Syntax.Regexp :=
  Plus (Concat iriCharRe
          (Concat (Quest (Concat (Star iriInnerRe) iriCharRe)) (lit "."))).
Definition punycodeRe : Syntax.Regexp :=
  Concat (Literal true (chr "x"))
    (Concat (Literal true (chr "n"))
       (Concat (Literal true (chr "-"))
          (Concat (Literal true (chr "-")) (Plus punyCharRe)))).
Definition octetRe : Syntax.Regexp := Eval vm_compute in parsed octet.
Definition ipv4Re : Syntax.Regexp :=
  Concat WordBoundary
    (Concat octetRe (Concat (lit ".")
       (Concat octetRe (Concat (lit ".")
          (Concat octetRe (Concat (lit ".")
             (Concat octetRe WordBoundary))))))).
Definition ipv6Re : Syntax.Regexp := Eval vm_compute in parsed ipv6Addr.
Definition ipAddrRe : Syntax.Regexp := Alternate ipv4Re ipv6Re.
Definition portRe : Syntax.Regexp := Quest (Concat (lit ":") (Star digitRe)).
Definition slashRe : Syntax.Regexp := lit "/".
Definition pathOptRe : Syntax.Regexp := Quest (Alternate (Concat slashRe pathContRe) slashRe).
Definition localPartRe : Syntax.Regexp := Plus localCharRe.
Definition atRe : Syntax.Regexp := lit "@".

Section Trees.
Variable ascii unicode : list (list rune).
Definition tldsRe : Syntax.Regexp :=
  Alternate punycodeRe
    (Alternate (Concat (anyOfRe true ascii) WordBoundary) (anyOfRe true unicode)).
Definition siteRe : Syntax.Regexp := Concat domainRe tldsRe.
Definition hostNameRe : Syntax.Regexp := Alternate siteRe ipAddrRe.
Definition webURLRe : Syntax.Regexp := Concat hostNameRe (Concat portRe pathOptRe).
Definition emailRe : Syntax.Regexp := Concat localPartRe (Concat atRe siteRe).
Definition relaxedRe : Syntax.Regexp := Alternate strictRe (Alternate webURLRe emailRe).
End Trees.

(** The constant stretches of the expression of [relaxedOf]. *)
Definition relaxedHead : string :=
  strictExp ++ "|" ++ "(?:" ++ domain ++ "(?i)(?:" ++ "xn--[a-z0-9-]+" ++ "|".
Definition relaxedBreak : string := "\b|".
Definition relaxedMiddle : string :=
  ")(?-i)" ++ "|" ++ ipAddr ++ ")" ++ port ++ "(?:/" ++ pathCont ++ "|/)?" ++ "|"
  ++ "[a-zA-Z0-9._%\-+]+@" ++ domain ++ "(?i)(?:" ++ "xn--[a-z0-9-]+" ++ "|".
Definition relaxedTail : string := ")(?-i)".

Inductive Segment :=
| Constant (ts : list Token)
| Literals (ls : list (list rune)).

Fixpoint flatten (ss : list Segment) : list Token :=
  match ss with
  | [] => []
  | Constant ts :: ss' => (ts ++ flatten ss')%list
  | Literals ls :: ss' => (TGroup [] :: altTokens ls ++ TClose :: flatten ss')%list
  end.

Definition runSegment (p : Parser) (s : Segment) : result Parser :=
  match s with
  | Constant ts => run p ts
  | Literals ls =>
    Ok (mkParser (mkFrame (alts (cur p)) (anyOfRe (FoldCase (flags p)) ls :: cat (cur p)))
          (stack p) (flags p) false)
  end.

Fixpoint runSegments (p : Parser) (ss : list Segment) : result Parser :=
  match ss with
  | [] => Ok p
  | s :: ss' => p' <- runSegment p s ;; runSegments p' ss'
  end.

Definition headTokens : list Token := Eval vm_compute in tokens (runes relaxedHead).
Definition breakTokens : list Token := Eval vm_compute in tokens (runes relaxedBreak).
Definition middleTokens : list Token := Eval vm_compute in tokens (runes relaxedMiddle).
Definition endTokens : list Token := Eval vm_compute in tokens (runes relaxedTail).


(** The index of the first entry whose first byte is not ASCII, counting
    from [i]; the search panics on an empty entry. *)
Fixpoint firstNonASCII (l : list string) (i : nat) : result (option nat) :=
  match l with
  | [] => Ok None
  | s :: l' =>
    b <- firstByte s ;;
    if (RuneSelf <=? b)%N then Ok (Some i) else firstNonASCII l' (S i)
  end.

(** The two lists that the loop of [relaxedExp] cuts the table into. *)
Definition split (tlds : list string) : result (list string * list string) :=
  k <- firstNonASCII tlds 0 ;;
  match k with
  | None => Ok ([], [])
  | Some k => Ok (firstn k tlds, skipn k tlds)
  end.

(** An entry whose first byte is ASCII. *)
Definition asciiFirst (s : string) : bool :=
  match firstByte s with
  | Ok b => (b <? RuneSelf)%N
  | Err _ => false
  end.

(** Membership of a rune in the class of a character-class expression. *)
Definition inClass (U : UnicodeTables) (re : Syntax.Regexp) (c : rune) : bool :=
  match re with
  | CharClass fold neg items => classMatch U fold neg items c
  | _ => false
  end.

(** The runes a path continuation can end with: a rune of [endIChar] or a
    closing delimiter of a balanced pair. *)
Definition closesPath (U : UnicodeTables) (c : rune) : bool :=
  inClass U endICharRe c || (c =c ")") || (c =c "]") || (c =c "}").

(** Tables the expression of [Relaxed] can be built from: the entries are
    valid UTF-8 and no top-level domain is the empty string. *)
Definition wellFormed (tlds pseudo : list string) : bool :=
  allValid tlds && allValid pseudo && forallb (fun s => negb (s =? "")%string) tlds.


(** * The order of the alternatives *)

(** The three alternatives of the expression of [relaxedOf], as the source
    assembles them. *)
Definition alternatives (ascii unicode : list string) : list string :=
  let punycode := "xn--[a-z0-9-]+" in
  let tlds := "(?i)(?:" ++ punycode ++ "|" ++ anyOf ascii ++ "\b|" ++ anyOf unicode ++ ")(?-i)" in
  let site := domain ++ tlds in
  let hostName := "(?:" ++ site ++ "|" ++ ipAddr ++ ")" in
  let webURL := hostName ++ port ++ "(?:/" ++ pathCont ++ "|/)?" in
  let email := "[a-zA-Z0-9._%\-+]+@" ++ site in
  [strictExp; webURL; email].

(** The trees of the three alternatives. *)
Definition trees (ascii unicode : list (list rune)) : list Syntax.Regexp :=
  [strictRe; webURLRe ascii unicode; emailRe ascii unicode].

(** All the orders of a list. *)
Fixpoint inserts {A : Type} (x : A) (l : list A) : list (list A) :=
  (x :: l) ::
  match l with
  | [] => []
  | y :: l' => map (cons y) (inserts x l')
  end.

Fixpoint orders {A : Type} (l : list A) : list (list A) :=
  match l with
  | [] => [[]]
  | x :: l' => flat_map (inserts x) (orders l')
  end.

(** * Calls in a row *)

Section Calls.
Variable tlds pseudo : list string.

(** [n] calls of [relaxedExp] in a row, each on the store the one before
    has left: the expressions returned and the last store. *)
Fixpoint calls (n : nat) (h : store) : result (list string * store) :=
  match n with
  | O => Ok ([], h)
  | S n' =>
    '(e, h1) <- relaxedExp tlds pseudo h ;;
    '(es, h2) <- calls n' h1 ;;
    Ok (e :: es, h2)
  end.

End Calls.

End Grammar.

(** * Decimal numerals *)

Module Decimal.
Import Utf8.

(** The value of a decimal digit. *)
Definition digit (c : rune) : option nat :=
  if ((48 <=? c) && (c <=? 57))%N then Some (N.to_nat (c - 48)) else None.

Fixpoint valueFrom (acc : nat) (l : list rune) : option nat :=
  match l with
  | [] => Some acc
  | c :: l' =>
    match digit c with
    | Some d => valueFrom (10 * acc + d) l'
    | None => None
    end
  end.

(** The number a string of decimal digits denotes. *)
Definition decimalValue (l : list rune) : option nat :=
  match l with
  | [] => None
  | _ :: _ => valueFrom 0 l
  end.

(** No zero in front of another digit. *)
Definition canonical (l : list rune) : bool :=
  match l with
  | [] => false
  | [_] => true
  | c :: _ :: _ => negb (c =? 48)%N
  end.

(** A decimal octet: the canonical decimal of a number up to 255. *)
Definition isOctet (l : list rune) : bool :=
  canonical l &&
  match decimalValue l with
  | Some v => (v <=? 255)%nat
  | None => false
  end.

Definition dot : rune := 46%N.

(** Four strings with dots between them. *)
Definition dotted (a b c d : list rune) : list rune :=
  a ++ dot :: b ++ dot :: c ++ dot :: d.

End Decimal.

(** * Static bounds on matches *)

Module Analysis.
Import Utf8 Syntax Regexp.

(** A lower bound of the number of runes of a match. *)
Fixpoint minLen (re : Syntax.Regexp) : nat :=
  match re with
  | Literal _ _ | CharClass _ _ _ | AnyChar _ => 1
  | Capture sub | Plus sub => minLen sub
  | Repeat min _ sub => min * minLen sub
  | Concat a b => minLen a + minLen b
  | Alternate a b => Nat.min (minLen a) (minLen b)
  | _ => 0
  end.

(** Whether some literal or class of the expression takes the rune [c]. *)
Fixpoint accepts (U : UnicodeTables) (re : Syntax.Regexp) (c : rune) : bool :=
  match re with
  | Literal fold r => litMatch U fold r c
  | CharClass fold neg items => classMatch U fold neg items c
  | AnyChar nl => nl || negb (c =? 10)%N
  | Capture sub | Star sub | Plus sub | Quest sub | Repeat _ _ sub => accepts U sub c
  | Concat a b | Alternate a b => accepts U a c || accepts U b c
  | _ => false
  end.

(** Every rune between [i] and [j] is taken by a literal or a class of the
    expression. *)
Definition taken (U : UnicodeTables) (text : list rune) (re : Syntax.Regexp)
    (i j : nat) : Prop :=
  forall k, i <= k < j -> exists c, at_ text k = Some c /\ accepts U re c = true.

(** The ASCII runes that no class of a path takes: the control characters,
    the space, the double quote, the angle brackets, the caret, the
    backquote and the vertical bar. *)
Definition unsafe (c : rune) : bool :=
  ((c <=? 32) || (c =? 34) || (c =? 60) || (c =? 62) || (c =? 94) || (c =? 96)
   || (c =? 124) || (c =? 127))%N.

Definition unsafeRunes : list rune :=
  (map N.of_nat (seq 0 33) ++ [34; 60; 62; 94; 96; 124; 127])%N%list.

(** Table entries without unsafe runes. *)
Definition safeEntries (l : list string) : bool :=
  forallb (fun x => forallb (fun r => negb (unsafe r)) (runes x)) l.

End Analysis.

(** * The shape of host names *)

Module Host.
Import Utf8 Syntax Regexp Grammar.

(** A label with the dot behind it. *)
Definition labelRe : Syntax.Regexp :=
  Concat iriCharRe (Concat (Quest (Concat (Star iriInnerRe) iriCharRe)) (lit ".")).

Section Shape.
Variable U : UnicodeTables.
Variable text : list rune.

(** A label between [i] and [k], dot included. *)
Record labelled (i k : nat) : Prop := mkLabelled {
  label_long : i + 2 <= k;
  label_first : exists c, at_ text i = Some c /\ inClass U iriCharRe c = true;
  label_dot : at_ text (k - 1) = Some (chr ".");
  label_last : exists c, at_ text (k - 2) = Some c /\ inClass U iriCharRe c = true;
  label_inner : forall m, i <= m < k - 1 ->
    exists c, at_ text m = Some c /\ inClass U iriInnerRe c = true
}.

(** Labels between [i] and [j], a dot behind each. *)
Record hostShape (i j : nat) : Prop := mkHostShape {
  host_long : i + 2 <= j;
  host_first : exists c, at_ text i = Some c /\ inClass U iriCharRe c = true;
  host_dot : at_ text (j - 1) = Some (chr ".");
  host_runes : forall m, i <= m < j ->
    exists c, at_ text m = Some c /\ (c = chr "." \/ inClass U iriInnerRe c = true);
  host_before_dot : forall m, i <= m < j -> at_ text m = Some (chr ".") ->
    i < m /\ exists c, at_ text (m - 1) = Some c /\ inClass U iriCharRe c = true;
  host_after_dot : forall m, i <= m -> S m < j -> at_ text m = Some (chr ".") ->
    exists c, at_ text (S m) = Some c /\ inClass U iriCharRe c = true
}.

End Shape.

End Host.

(** * Brackets *)

Module Brackets.
Import Utf8 Syntax Regexp Analysis.
Local Open Scope N_scope.

Definition brackets : list rune := [40; 41; 91; 93; 123; 125].

(** The closing bracket of an opening one. *)
Definition closerOf (c : rune) : option rune :=
  if c =? 40 then Some 41 else if c =? 91 then Some 93 else if c =? 123 then Some 125
  else None.

Definition isCloser (c : rune) : bool := (c =? 41) || (c =? 93) || (c =? 125).

(** Reading [l] with the closing brackets that are due in [stack]:
    whether every closing bracket is the one due and none stays due. *)
Fixpoint check (stack : list rune) (l : list rune) : bool :=
  match l with
  | [] => match stack with [] => true | _ :: _ => false end
  | c :: l' =>
    match closerOf c with
    | Some d => check (d :: stack) l'
    | None =>
      if isCloser c then
        match stack with
        | d :: stack' => (c =? d) && check stack' l'
        | [] => false
        end
      else check stack l'
    end
  end.

(** Round, square and curly brackets in pairs, properly nested. *)
Definition wellBracketed (l : list rune) : bool := check [] l.

(** Whether the matches of an expression are well bracketed, by its
    shape: brackets come as a literal pair around a part that is well
    bracketed, and nothing else takes a bracket. *)
Fixpoint balanced (U : UnicodeTables) (re : Syntax.Regexp) : bool :=
  match re with
  | Literal _ _ | CharClass _ _ _ | AnyChar _ =>
    forallb (fun b => negb (accepts U re b)) brackets
  | Capture r | Star r | Plus r | Quest r | Repeat _ _ r => balanced U r
  | Alternate a b => balanced U a && balanced U b
  | Concat a b =>
    (balanced U a && balanced U b) ||
    match a, b with
    | Literal false o, Concat r (Literal false c) =>
      match closerOf o with
      | Some d => (c =? d) && balanced U r
      | None => false
      end
    | _, _ => false
    end
  | _ => true
  end.

Fixpoint size (re : Syntax.Regexp) : nat :=
  match re with
  | Capture r | Star r | Plus r | Quest r | Repeat _ _ r => S (size r)
  | Alternate a b | Concat a b => S (size a + size b)
  | _ => 1%nat
  end.

(** Table entries without brackets. *)
Definition bracketFree (l : list string) : bool :=
  forallb (fun x => forallb (fun r => negb (existsb (N.eqb r) brackets)) (runes x)) l.

(** A string that leaves the reading as it was. *)
Definition neutral (w : list rune) : Prop :=
  forall stack rest, check stack (w ++ rest) = check stack rest.

End Brackets.

(** * The scheme of [AnyScheme] *)

Module Scheme.
Import Utf8 Syntax Regexp Aux Xurls Grammar.
Local Open Scope string_scope.

Definition schemeFirstRe : Syntax.Regexp := Eval vm_compute in parsed "(?i)[a-zA-Z]".
Definition schemeRestRe : Syntax.Regexp := Eval vm_compute in parsed "(?i)[a-zA-Z.\-+]".

(** The tree of [AnyScheme], matched without regard to case. *)
Definition anySchemeRe : Syntax.Regexp :=
  Alternate
    (Concat schemeFirstRe (Concat (Star schemeRestRe) (literalRe true (runes "://"))))
    (Concat (anyOfRe true (map runes SchemesNoAuthority)) (Literal true (chr ":"))).

Definition digits : list rune := map N.of_nat (seq 48 10).

End Scheme.

(** * The local part of an e-mail address *)

Module Mail.
Import Utf8.
Local Open Scope N_scope.


End Mail.

(** * Top-level domains in a text *)

Module Tld.
Import Utf8 Syntax Regexp.
Local Open Scope string_scope.

(** Letters, digits and hyphens. *)
Definition isLDH (c : rune) : bool := isalnum c || (c =c "-").

(** An ASCII label: letters, digits and hyphens, the last of them a letter
    or a digit. *)
Definition asciiLabel (s : string) : bool :=
  forallb isLDH (bytes s) &&
  match rev (bytes s) with
  | [] => false
  | c :: _ => isalnum c
  end.

(** An entry that begins with a rune outside ASCII that is no case variant
    of an ASCII letter. *)
Definition foreignFirst (s : string) : bool :=
  match runes s with
  | r :: _ => ((RuneSelf <=? r) && negb (r =? KelvinSign) && negb (r =? LongS))%N
  | [] => false
  end.

(** Whether every match of the expression holds the rune [c], by its
    shape. *)
Fixpoint needs (c : rune) (re : Syntax.Regexp) : bool :=
  match re with
  | Literal _ r => (r =? c)%N
  | Capture r | Plus r => needs c r
  | Repeat min _ r => (0 <? min)%nat && needs c r
  | Concat a b => needs c a || needs c b
  | Alternate a b => needs c a && needs c b
  | _ => false
  end.

(** The text of a label behind ["example."], with one rune after it, and
    the position of the end of the label. *)
Definition labelText (tr : list rune) (after : rune) : list rune :=
  (runes "example." ++ tr ++ [after])%list.
Definition labelEnd (tr : list rune) : nat := 8 + List.length tr.

(** An expression without assertions on its surroundings. *)
Fixpoint pure (re : Syntax.Regexp) : bool :=
  match re with
  | EmptyMatch | Literal _ _ | CharClass _ _ _ | AnyChar _ => true
  | Capture r | Star r | Plus r | Quest r | Repeat _ _ r => pure r
  | Concat a b | Alternate a b => pure a && pure b
  | _ => false
  end.

End Tld.

(** * Concrete tables for instances

    An excerpt of the tables of package [unicode] and two short tables of
    top-level domains, to run the theorems on. *)

Module Examples.
Import Utf8 Regexp.
Local Open Scope N_scope.

Definition between (lo hi r : rune) : bool := (lo <=? r) && (r <=? hi).

Definition unicode : UnicodeTables :=
  mkUnicode
    (fun r => between 0xC0 0xD6 r || between 0xD8 0xF6 r || between 0x391 0x3C9 r
              || between 0x410 0x44F r || between 0xAC00 0xD7A3 r)
    (fun r => between 0x300 0x36F r)
    (fun r => between 0x660 0x669 r)
    (fun r => if between 0x391 0x3A9 r then [r + 32]
              else if between 0x3B1 0x3C9 r then [r - 32]
              else if between 0x410 0x42F r then [r + 32]
              else if between 0x430 0x44F r then [r - 32]
              else []).

Definition tlds : list string :=
  ["com"; "net"; "org"; "uk"; "рф"; "한국"]%string.

Definition pseudo : list string := ["local"; "onion"]%string.

End Examples.

(** * Facts about the model *)

Import Utf8 Syntax Regexp Slice Aux Text Xurls Grammar.

Ltac len := unfold rune in *; simpl in *; lia.
Ltac fin := let E := fresh "E" in intros E; injection E as <- <-; len.

(** * The matcher computes the declarative reading *)

Section MatchingFacts.

Variable U : UnicodeTables.
Variable text : list rune.

Lemma mem_In k l : mem k l = true <-> In k l.
Proof.
  unfold mem. rewrite existsb_exists. split.
  - intros (x & Hx & E). apply Nat.eqb_eq in E. now subst.
  - intros H. exists k. split; [exact H | apply Nat.eqb_refl].
Qed.

Lemma mem_false k l : mem k l = false <-> ~ In k l.
Proof.
  rewrite <- mem_In. destruct (mem k l); split; congruence.
Qed.

Lemma union_In j l1 l2 : In j (union l1 l2) <-> In j l1 \/ In j l2.
Proof.
  induction l1 as [| k l1 IH]; simpl.
  - tauto.
  - destruct (mem k l2) eqn:E.
    + rewrite IH. apply mem_In in E. split; [tauto |].
      intros [[-> | H] | H]; auto.
    + simpl. rewrite IH. tauto.
Qed.

Lemma dedup_In j l : In j (dedup l) <-> In j l.
Proof.
  induction l as [| k l IH]; simpl; [tauto |].
  destruct (mem k l) eqn:E.
  - rewrite IH. apply mem_In in E. split; [tauto |]. intros [-> | H]; auto.
  - simpl. rewrite IH. tauto.
Qed.

Lemma dedup_NoDup l : NoDup (dedup l).
Proof.
  induction l as [| k l IH]; simpl; [constructor |].
  destruct (mem k l) eqn:E; [exact IH |].
  constructor; [| exact IH]. rewrite dedup_In. now apply mem_false.
Qed.

Lemma step1_In p ss j :
  In j (step1 text p ss) <-> exists i, In i ss /\ Step text p i j.
Proof.
  unfold step1, Step. rewrite in_flat_map. split.
  - intros (i & Hi & Hj). exists i. split; [exact Hi |].
    destruct (at_ text i) as [c |] eqn:E; [| contradiction].
    destruct (p c) eqn:Ep; [| contradiction].
    destruct Hj as [<- | []]. split; [reflexivity |]. now exists c.
  - intros (i & Hi & -> & c & Hc & Hp). exists i. split; [exact Hi |].
    rewrite Hc, Hp. now left.
Qed.

Lemma step1_bounded p ss : bounded text (step1 text p ss).
Proof.
  intros j Hj. apply step1_In in Hj. destruct Hj as (i & _ & -> & c & Hc & _).
  unfold at_ in Hc.
  assert (i < List.length text) by (apply nth_error_Some; congruence). lia.
Qed.

Lemma guard_In p ss j : In j (guard p ss) <-> exists i, In i ss /\ Guard p i j.
Proof.
  unfold guard, Guard. rewrite filter_In. split.
  - intros [H1 H2]. now exists j.
  - intros (i & Hi & -> & Hp). now split.
Qed.

Lemma guard_bounded p ss : bounded text ss -> bounded text (guard p ss).
Proof.
  intros Hss j Hj. apply Hss. unfold guard in Hj. now apply filter_In in Hj.
Qed.

Lemma bounded_length l : NoDup l -> bounded text l -> List.length l <= S (List.length text).
Proof.
  intros Hnd Hb.
  assert (H : List.length l <= List.length (seq 0 (S (List.length text)))).
  { apply NoDup_incl_length; [exact Hnd |].
    intros k Hk. apply in_seq. specialize (Hb k Hk). lia. }
  now rewrite length_seq in H.
Qed.

Lemma Iter_app R a b i k j : Iter R a i k -> Iter R b k j -> Iter R (a + b) i j.
Proof.
  revert i. induction a as [| a IH]; simpl; intros i.
  - now intros ->.
  - intros (m & Hm & Ha) Hb. exists m. split; [exact Hm | now apply IH].
Qed.

Lemma Iter_split R a b i j : Iter R (a + b) i j -> exists k, Iter R a i k /\ Iter R b k j.
Proof.
  revert i. induction a as [| a IH]; simpl; intros i.
  - intros H. now exists i.
  - intros (m & Hm & H). destruct (IH _ H) as (k & Ha & Hb).
    exists k. split; [now exists m | exact Hb].
Qed.

Lemma Iter_snoc R a i k j : Iter R a i k -> R k j -> Iter R (S a) i j.
Proof.
  intros Ha Hr. replace (S a) with (a + 1) by lia.
  apply Iter_app with k; [exact Ha |]. now exists j.
Qed.

Lemma Iter_ext (R R' : nat -> nat -> Prop) n i j :
  (forall a b, R a b -> R' a b) -> Iter R n i j -> Iter R' n i j.
Proof.
  intros H. revert i. induction n as [| n IH]; simpl; intros i; [auto |].
  intros (k & Hk & Hn). exists k. split; auto.
Qed.

(** ** Iteration *)

Section Closure.

Variable f : list nat -> list nat.
Variable R : nat -> nat -> Prop.

Hypothesis f_bounded : forall ss, bounded text ss -> bounded text (f ss).
Hypothesis f_spec :
  forall ss j, bounded text ss -> In j (f ss) <-> exists i, In i ss /\ R i j.

Lemma closure_spec fuel : forall frontier seen,
  NoDup seen -> bounded text seen -> incl frontier seen ->
  (forall k j, In k seen -> ~ In k frontier -> R k j -> In j seen) ->
  (frontier <> [] -> List.length text + 2 <= fuel + List.length seen) ->
  bounded text (closure f fuel frontier seen) /\
  incl seen (closure f fuel frontier seen) /\
  (forall k j, In k (closure f fuel frontier seen) -> R k j ->
               In j (closure f fuel frontier seen)) /\
  (forall j, In j (closure f fuel frontier seen) ->
             exists i m, In i seen /\ Iter R m i j).
Proof.
  assert (Hbase : forall frontier seen,
    NoDup seen -> bounded text seen ->
    (forall k j, In k seen -> ~ In k frontier -> R k j -> In j seen) ->
    frontier = [] ->
    bounded text seen /\ incl seen seen /\
    (forall k j, In k seen -> R k j -> In j seen) /\
    (forall j, In j seen -> exists i m, In i seen /\ Iter R m i j)).
  { intros frontier seen _ Hb Hcl ->. repeat split.
    - exact Hb.
    - apply incl_refl.
    - intros k j Hk Hr. apply (Hcl k j Hk); auto.
    - intros j Hj. exists j, 0. now split. }
  induction fuel as [| fuel IH]; intros frontier seen Hnd Hb Hin Hcl Hfuel.
  - simpl. destruct frontier as [| x frontier].
    + now apply Hbase with (frontier := []).
    + exfalso. pose proof (bounded_length Hnd Hb).
      assert (List.length text + 2 <= 0 + List.length seen) by (apply Hfuel; discriminate).
      lia.
  - simpl. destruct frontier as [| x frontier].
    + now apply Hbase with (frontier := []).
    + set (fr := x :: frontier) in *.
      set (new := dedup (filter (fun k => negb (mem k seen)) (f fr))).
      assert (Hfr : bounded text fr) by (intros k Hk; apply Hb, Hin, Hk).
      assert (Hnew : forall j, In j new <-> In j (f fr) /\ ~ In j seen).
      { intros j. unfold new. rewrite dedup_In, filter_In.
        rewrite negb_true_iff, mem_false. tauto. }
      destruct (IH new (seen ++ new)) as (B & I & C & Rch).
      * apply NoDup_app; [exact Hnd | apply dedup_NoDup |].
        intros k Hk Hk'. apply Hnew in Hk'. tauto.
      * intros k Hk. apply in_app_or in Hk. destruct Hk as [Hk | Hk]; [now apply Hb |].
        apply Hnew in Hk. now apply (f_bounded Hfr).
      * intros k Hk. apply in_or_app. now right.
      * intros k j Hk Hnk Hr. apply in_app_or in Hk. destruct Hk as [Hk | Hk]; [| tauto].
        apply in_or_app.
        destruct (in_dec Nat.eq_dec k fr) as [Hkf | Hkf].
        -- destruct (in_dec Nat.eq_dec j seen) as [Hj | Hj]; [now left |].
           right. apply Hnew. split; [| exact Hj].
           apply f_spec; [exact Hfr |]. now exists k.
        -- left. now apply (Hcl k j).
      * intros Hne. rewrite length_app.
        assert (1 <= List.length new) by (destruct new; [congruence | simpl; lia]).
        assert (List.length text + 2 <= S fuel + List.length seen)
          by (apply Hfuel; discriminate).
        lia.
      * repeat split.
        -- exact B.
        -- intros k Hk. apply I, in_or_app. now left.
        -- exact C.
        -- intros j Hj. destruct (Rch j Hj) as (i & m & Hi & Hm).
           apply in_app_or in Hi. destruct Hi as [Hi | Hi].
           ++ now exists i, m.
           ++ apply Hnew in Hi. destruct Hi as [Hi _].
              apply f_spec in Hi; [| exact Hfr]. destruct Hi as (i0 & Hi0 & Hr).
              exists i0, (S m). split; [now apply Hin |]. now exists i.
Qed.

Lemma star_spec ss : bounded text ss ->
  bounded text (star text f ss) /\
  forall j, In j (star text f ss) <-> exists i, In i ss /\ exists m, Iter R m i j.
Proof.
  intros Hss. unfold star.
  destruct (@closure_spec (S (List.length text)) (dedup ss) (dedup ss))
    as (B & I & C & Rch).
  - apply dedup_NoDup.
  - intros k Hk. apply Hss. now apply dedup_In.
  - apply incl_refl.
  - intros k j Hk Hnk. contradiction.
  - intros Hne. destruct (dedup ss); [congruence | simpl; lia].
  - split; [exact B |]. intros j. split.
    + intros Hj. destruct (Rch j Hj) as (i & m & Hi & Hm).
      exists i. split; [now apply dedup_In | now exists m].
    + intros (i & Hi & m & Hm).
      assert (Hgen : forall m i, In i (closure f (S (List.length text)) (dedup ss) (dedup ss)) ->
                Iter R m i j -> In j (closure f (S (List.length text)) (dedup ss) (dedup ss))).
      { clear - C. induction m as [| m IHm]; simpl; intros i Hi.
        - now intros <-.
        - intros (k & Hk & Hm). apply (IHm k); [| exact Hm]. now apply (C i). }
      apply (Hgen m i); [| exact Hm]. apply I. now apply dedup_In.
Qed.

Lemma iterate_spec k : forall ss, bounded text ss ->
  bounded text (iterate f k ss) /\
  forall j, In j (iterate f k ss) <-> exists i, In i ss /\ Iter R k i j.
Proof.
  induction k as [| k IH]; simpl; intros ss Hss.
  - split; [exact Hss |]. intros j. split.
    + intros Hj. now exists j.
    + now intros (i & Hi & <-).
  - destruct (IH (f ss) (f_bounded Hss)) as [B E]. split; [exact B |].
    intros j. rewrite E. split.
    + intros (i & Hi & Hk). apply f_spec in Hi; [| exact Hss].
      destruct Hi as (i0 & Hi0 & Hr). exists i0. split; [exact Hi0 | now exists i].
    + intros (i & Hi & m & Hr & Hk). exists m. split; [| exact Hk].
      apply f_spec; [exact Hss |]. now exists i.
Qed.

Lemma upTo_spec k : forall ss, bounded text ss ->
  bounded text (upTo f k ss) /\
  forall j, In j (upTo f k ss) <-> exists i, In i ss /\ exists m, m <= k /\ Iter R m i j.
Proof.
  induction k as [| k IH]; simpl; intros ss Hss.
  - split; [exact Hss |]. intros j. split.
    + intros Hj. exists j. split; [exact Hj |]. now exists 0.
    + intros (i & Hi & m & Hm & Hk). assert (m = 0) by lia. subst m. simpl in Hk. now subst.
  - destruct (IH (f ss) (f_bounded Hss)) as [B E]. split.
    + intros j Hj. apply union_In in Hj. destruct Hj as [Hj | Hj]; [now apply Hss | now apply B].
    + intros j. rewrite union_In, E. split.
      * intros [Hj | (i & Hi & m & Hm & Hk)].
        -- exists j. split; [exact Hj |]. exists 0. split; [lia | reflexivity].
        -- apply f_spec in Hi; [| exact Hss]. destruct Hi as (i0 & Hi0 & Hr).
           exists i0. split; [exact Hi0 |]. exists (S m). split; [lia |]. now exists i.
      * intros (i & Hi & m & Hm & Hk). destruct m as [| m].
        -- left. simpl in Hk. now subst.
        -- right. destruct Hk as (i1 & Hr & Hk). exists i1. split.
           ++ apply f_spec; [exact Hss |]. now exists i.
           ++ exists m. split; [lia | exact Hk].
Qed.

End Closure.

Lemma ends_nil re : ends U text re [] = [].
Proof. destruct re; reflexivity. Qed.

Theorem ends_spec re : forall ss, bounded text ss ->
  bounded text (ends U text re ss) /\
  forall j, In j (ends U text re ss) <-> exists i, In i ss /\ Matches U text re i j.
Proof.
  assert (Hnil : forall re, bounded text (ends U text re []) /\
            forall j, In j (ends U text re []) <-> exists i, In i [] /\ Matches U text re i j).
  { intros r. rewrite ends_nil. split; [intros k [] |].
    intros j. split; [intros [] | intros (i & [] & _)]. }
  assert (Hstep : forall p ss, bounded text ss ->
            bounded text (step1 text p ss) /\
            forall j, In j (step1 text p ss) <-> exists i, In i ss /\ Step text p i j).
  { intros p ss _. split; [apply step1_bounded | intros j; apply step1_In]. }
  assert (Hguard : forall p ss, bounded text ss ->
            bounded text (guard p ss) /\
            forall j, In j (guard p ss) <-> exists i, In i ss /\ Guard p i j).
  { intros p ss Hss. split; [now apply guard_bounded | intros j; apply guard_In]. }
  induction re; intros ss Hss; (destruct ss as [| s0 ss0]; [apply Hnil |]);
    cbn [ends].
  - (* EmptyMatch *)
    split; [exact Hss |]. intros j; simpl. split.
    + intros Hj. now exists j.
    + now intros (i & Hi & ->).
  - apply Hstep, Hss.
  - apply Hstep, Hss.
  - apply Hstep, Hss.
  - apply Hguard, Hss.
  - apply Hguard, Hss.
  - apply Hguard, Hss.
  - apply Hguard, Hss.
  - apply Hguard, Hss.
  - apply Hguard, Hss.
  - (* Capture *) apply IHre, Hss.
  - (* Star *)
    apply (@star_spec (ends U text re) (Matches U text re)).
    + intros ss' Hss'. apply IHre, Hss'.
    + intros ss' j Hss'. apply IHre, Hss'.
    + exact Hss.
  - (* Plus *)
    destruct (IHre _ Hss) as [B1 E1].
    destruct (@star_spec (ends U text re) (Matches U text re)
                (fun ss' Hss' => proj1 (IHre ss' Hss'))
                (fun ss' j Hss' => proj2 (IHre ss' Hss') j) _ B1) as [B2 E2].
    split; [exact B2 |]. intros j. rewrite E2. simpl. split.
    + intros (k & Hk & m & Hm). apply E1 in Hk. destruct Hk as (i & Hi & Hr).
      exists i. split; [exact Hi |]. exists m, k. now split.
    + intros (i & Hi & m & k & Hr & Hm). exists k. split.
      * apply E1. now exists i.
      * now exists m.
  - (* Quest *)
    destruct (IHre _ Hss) as [B1 E1]. split.
    + intros j Hj. apply union_In in Hj. destruct Hj; [now apply Hss | now apply B1].
    + intros j. rewrite union_In, E1. simpl. split.
      * intros [Hj | (i & Hi & Hr)]; [exists j | exists i]; auto.
      * intros (i & Hi & [-> | Hr]); [now left | right; now exists i].
  - (* Repeat *)
    pose proof (fun ss' Hss' => proj1 (IHre ss' Hss')) as fb.
    pose proof (fun ss' j Hss' => proj2 (IHre ss' Hss') j) as fs.
    destruct (@iterate_spec _ _ fb fs min _ Hss) as [B1 E1].
    destruct max as [m |].
    + destruct (Nat.ltb_spec m min) as [Hlt | Hle].
      * split; [intros k [] |]. intros j. split; [intros [] |].
        intros (i & _ & n & H1 & H2 & _). lia.
      * destruct (@upTo_spec _ _ fb fs (m - min) _ B1) as [B2 E2].
        split; [exact B2 |]. intros j. rewrite E2. simpl. split.
        -- intros (k & Hk & q & Hq & Hit). apply E1 in Hk.
           destruct Hk as (i & Hi & Hmin). exists i. split; [exact Hi |].
           exists (min + q). repeat split; [lia | lia |].
           now apply Iter_app with k.
        -- intros (i & Hi & n & H1 & H2 & Hit).
           replace n with (min + (n - min)) in Hit by lia.
           apply Iter_split in Hit. destruct Hit as (k & Ha & Hb).
           exists k. split; [apply E1; now exists i |].
           exists (n - min). split; [lia | exact Hb].
    + destruct (@star_spec _ _ fb fs _ B1) as [B2 E2].
      split; [exact B2 |]. intros j. rewrite E2. simpl. split.
      * intros (k & Hk & q & Hit). apply E1 in Hk.
        destruct Hk as (i & Hi & Hmin). exists i. split; [exact Hi |].
        exists (min + q). repeat split; [lia |]. now apply Iter_app with k.
      * intros (i & Hi & n & H1 & _ & Hit).
        replace n with (min + (n - min)) in Hit by lia.
        apply Iter_split in Hit. destruct Hit as (k & Ha & Hb).
        exists k. split; [apply E1; now exists i |]. now exists (n - min).
  - (* Concat *)
    destruct (IHre1 _ Hss) as [B1 E1]. destruct (IHre2 _ B1) as [B2 E2].
    split; [exact B2 |]. intros j. rewrite E2. simpl. split.
    + intros (k & Hk & Hb). apply E1 in Hk. destruct Hk as (i & Hi & Ha).
      exists i. split; [exact Hi | now exists k].
    + intros (i & Hi & k & Ha & Hb). exists k. split; [apply E1; now exists i | exact Hb].
  - (* Alternate *)
    destruct (IHre1 _ Hss) as [B1 E1]. destruct (IHre2 _ Hss) as [B2 E2]. split.
    + intros j Hj. apply union_In in Hj. destruct Hj; [now apply B1 | now apply B2].
    + intros j. rewrite union_In, E1, E2. simpl. split.
      * intros [(i & Hi & H) | (i & Hi & H)]; exists i; auto.
      * intros (i & Hi & [H | H]); [left | right]; now exists i.
Qed.

End MatchingFacts.

(** * Lexing consumes the pattern *)


Lemma digits_length s : forall acc, List.length (snd (digits s acc)) <= List.length s.
Proof.
  induction s as [| c s IH]; simpl; intros acc; [len |].
  destruct (isDigit c); simpl; [| len]. specialize (IH (acc * 10 + (c - 48))%N). len.
Qed.

Lemma parseInt_length s v rest :
  parseInt s = Some (v, rest) -> List.length rest <= List.length s.
Proof.
  unfold parseInt. destruct s as [| c t]; [discriminate |].
  destruct (negb (isDigit c)); [discriminate |].
  assert (H : forall v rest, Some (digits (c :: t) 0) = Some (v, rest) ->
                             List.length rest <= List.length (c :: t)).
  { intros v' rest' E.
    assert (E' : digits (c :: t) 0 = (v', rest')) by (injection E as E; exact E).
    pose proof (digits_length (c :: t) 0%N) as L. rewrite E' in L. exact L. }
  destruct t as [| d t'].
  - apply H.
  - destruct ((c =c "0") && isDigit d); [discriminate | apply H].
Qed.

Lemma parseRepeat_length s min max rest :
  parseRepeat s = Some (min, max, rest) -> List.length rest <= List.length s.
Proof.
  unfold parseRepeat. destruct (parseInt s) as [[v s1] |] eqn:E1; [| discriminate].
  apply parseInt_length in E1.
  destruct s1 as [| c s2]; [discriminate |].
  destruct (c =c "}").
  - intros E. injection E as <- <- <-. simpl in E1. len.
  - destruct (c =c ","); [| discriminate].
    destruct s2 as [| d s3]; [discriminate |].
    destruct (d =c "}").
    + intros E. injection E as <- <- <-. simpl in E1. len.
    + destruct (parseInt (d :: s3)) as [[m s4] |] eqn:E2; [| discriminate].
      apply parseInt_length in E2.
      destruct s4 as [| e s5]; [discriminate |].
      destruct (e =c "}"); [| discriminate].
      intros E. injection E as <- <- <-. simpl in E1, E2. len.
Qed.

Lemma skipLazy_length t : List.length (skipLazy t) <= List.length t.
Proof.
  destruct t as [| c t]; unfold skipLazy; [len |]. destruct (c =c "?"); len.
Qed.

Lemma hexBraced_length t : forall acc n r rest,
  hexBraced t acc n = Ok (r, rest) -> List.length rest <= List.length t.
Proof.
  induction t as [| c t IH]; cbn [hexBraced]; intros acc n r rest; [discriminate |].
  destruct (c =c "}").
  - destruct (n =? 0); [discriminate |]. intros E. injection E as <- <-. len.
  - destruct (unhex c); [| discriminate].
    destruct (MaxRune <? acc * 16 + n0)%N; [discriminate |].
    intros E. apply IH in E. len.
Qed.

Lemma octal_length n : forall t acc, List.length (snd (octal n t acc)) <= List.length t.
Proof.
  induction n as [| n IH]; intros t acc; cbn [octal]; [len |].
  destruct t as [| c t]; [len |].
  destruct (isOctal c); [| len]. specialize (IH t (acc * 8 + (c - 48))%N). len.
Qed.

Lemma parseEscape_length t r rest :
  parseEscape t = Ok (r, rest) -> List.length rest < List.length t.
Proof.
  unfold parseEscape. destruct t as [| c t1]; [discriminate |].
  destruct (isOctal c).
  { destruct (negb (c =c "0") && _); [discriminate |].
    intros E.
    assert (E' : octal 2 t1 (c - 48) = (r, rest)) by (injection E as E; exact E).
    pose proof (octal_length 2 t1 (c - 48)%N) as L.
    rewrite E' in L. simpl in *. len. }
  destruct (c =c "x").
  { destruct t1 as [| d t2]; [discriminate |].
    destruct (d =c "{").
    - intros E. apply hexBraced_length in E. simpl. len.
    - destruct t2 as [| e t3]; [discriminate |].
      destruct (unhex d); [| discriminate]. destruct (unhex e); [| discriminate].
      intros E. injection E as <- <-. len. }
  repeat match goal with
         | |- (if ?b then _ else _) = _ -> _ =>
           destruct b; [intros E; injection E as <- <-; simpl; len |]
         end.
  discriminate.
Qed.

Lemma untilBrace_length t : forall name rest,
  untilBrace t = Some (name, rest) -> List.length rest < List.length t.
Proof.
  induction t as [| c t IH]; cbn [untilBrace]; intros name rest; [discriminate |].
  destruct (c =c "}").
  - intros E. injection E as <- <-. len.
  - destruct (untilBrace t) as [[nm r] |]; [| discriminate].
    intros E. injection E as <- <-. specialize (IH nm r eq_refl). len.
Qed.

Lemma parseUnicodeClass_length neg t it rest :
  parseUnicodeClass neg t = Ok (it, rest) -> List.length rest < List.length t.
Proof.
  unfold parseUnicodeClass. destruct t as [| c t1]; [discriminate |].
  destruct (c =c "{").
  - destruct (untilBrace t1) as [[name r] |] eqn:E1; [| discriminate].
    apply untilBrace_length in E1.
    destruct (match name with
              | [] => (neg, name)
              | d :: name1 => if d =c "^" then (negb neg, name1) else (neg, name)
              end) as [neg' name'].
    destruct (unicodeTable name'); cbn [bind]; [| discriminate].
    intros E. injection E as <- <-. len.
  - destruct (if c =c "^" then Err ErrInvalidCharRange else unicodeTable [c]); cbn [bind];
      [| discriminate].
    intros E. injection E as <- <-. len.
Qed.

Lemma parseClassChar_length t r rest :
  parseClassChar t = Ok (r, rest) -> List.length rest < List.length t.
Proof.
  unfold parseClassChar. destruct t as [| c t']; [discriminate |].
  destruct (c =c "\").
  - intros E. apply parseEscape_length in E. simpl. len.
  - intros E. injection E as <- <-. len.
Qed.

Lemma classItem_length t it rest :
  classItem t = Ok (it, rest) -> List.length rest < List.length t.
Proof.
  assert (Hsingle : forall it rest,
    ('(lo, t1) <- parseClassChar t ;;
     match t1 with
     | d :: (e :: _) as t2 =>
       if (d =c "-") && negb (e =c "]") then
         '(hi, t3) <- parseClassChar t2 ;;
         if (hi <? lo)%N then Err ErrInvalidCharRange else Ok (Range lo hi, t3)
       else Ok (Range lo lo, t1)
     | _ => Ok (Range lo lo, t1)
     end) = Ok (it, rest) -> List.length rest < List.length t).
  { intros it' rest'. destruct (parseClassChar t) as [[lo t1] |] eqn:E1; cbn [bind]; [| discriminate].
    apply parseClassChar_length in E1.
    destruct t1 as [| d [| e t2]].
    - intros E. injection E as <- <-. exact E1.
    - intros E. injection E as <- <-. exact E1.
    - destruct ((d =c "-") && negb (e =c "]")).
      + destruct (parseClassChar (e :: t2)) as [[hi t3] |] eqn:E2; cbn [bind]; [| discriminate].
        apply parseClassChar_length in E2.
        destruct (hi <? lo)%N; [discriminate |].
        intros E. injection E as <- <-. simpl in *. len.
      + intros E. injection E as <- <-. exact E1. }
  unfold classItem. destruct t as [| c [| d t2]]; try apply Hsingle.
  destruct ((c =c "[") && (d =c ":") && _); [discriminate |].
  destruct ((c =c "\") && (d =c "p")).
  { intros E. apply parseUnicodeClass_length in E. simpl. len. }
  destruct ((c =c "\") && (d =c "P")).
  { intros E. apply parseUnicodeClass_length in E. simpl. len. }
  destruct (c =c "\"); [| apply Hsingle].
  destruct (perlClass d); [| apply Hsingle].
  intros E. injection E as <- <-. len.
Qed.

Lemma classItems_length fuel : forall first t acc items rest,
  classItems fuel first t acc = Ok (items, rest) -> List.length rest < List.length t.
Proof.
  induction fuel as [| fuel IH]; cbn [classItems]; intros first t acc items rest; [discriminate |].
  destruct t as [| c t']; [discriminate |].
  destruct ((c =c "]") && negb first).
  - intros E. injection E as <- <-. len.
  - destruct (classItem (c :: t')) as [[it r] |] eqn:E1; cbn [bind]; [| discriminate].
    apply classItem_length in E1. intros E. apply IH in E. len.
Qed.

Lemma parseClass_length t neg items rest :
  parseClass t = Ok (neg, items, rest) -> List.length rest <= List.length t.
Proof.
  unfold parseClass.
  destruct (match t with
            | [] => (false, t)
            | c :: t' => if c =c "^" then (true, t') else (false, t)
            end) as [ng t1] eqn:E0.
  assert (L : List.length t1 <= List.length t).
  { destruct t as [| c t']; [injection E0 as <- <-; len |].
    destruct (c =c "^"); injection E0 as <- <-; simpl; len. }
  destruct (classItems (S (List.length t1)) true t1 []) as [[its r] |] eqn:E1; cbn [bind];
    [| discriminate].
  apply classItems_length in E1. intros E. injection E as <- <- <-. len.
Qed.

Lemma perlFlags_length t : forall neg saw acc ops g rest,
  perlFlags t neg saw acc = Some (ops, g, rest) -> List.length rest < List.length t.
Proof.
  induction t as [| c t IH]; cbn [perlFlags]; intros neg saw acc ops g rest; [discriminate |].
  destruct (flagName c).
  - intros E. apply IH in E. len.
  - destruct (c =c "-").
    + destruct neg; [discriminate |]. intros E. apply IH in E. len.
    + destruct ((c =c ":") || (c =c ")")); [| discriminate].
      destruct (neg && negb saw); [discriminate |].
      intros E. injection E as <- <- <-. len.
Qed.

Lemma lexOne_length c t1 tok rest :
  lexOne c t1 = (tok, rest) -> List.length rest <= List.length t1.
Proof.
  pose proof (skipLazy_length t1) as Hlazy.
  unfold lexOne.
  destruct (c =c "(").
  { destruct t1 as [| q t2]; [fin |].
    destruct (q =c "?"); [| fin].
    destruct t2 as [| p t3]; [fin |].
    destruct ((p =c "P") || (p =c "<")); [fin |].
    destruct (perlFlags (p :: t3) false false []) as [[[ops []] r] |] eqn:EF;
      try apply perlFlags_length in EF; fin. }
  destruct (c =c "|"); [fin |].
  destruct (c =c ")"); [fin |].
  destruct (c =c "^"); [fin |].
  destruct (c =c "$"); [fin |].
  destruct (c =c "."); [fin |].
  destruct (c =c "[").
  { destruct (parseClass t1) as [[[ng its] r] |] eqn:EC;
      try apply parseClass_length in EC; fin. }
  destruct (c =c "*"); [fin |].
  destruct (c =c "+"); [fin |].
  destruct (c =c "?"); [fin |].
  destruct (c =c "{").
  { destruct (parseRepeat t1) as [[[mn mx] r] |] eqn:ER; [| fin].
    apply parseRepeat_length in ER. pose proof (skipLazy_length r).
    destruct (repeatSizeOk mn mx); fin. }
  destruct (c =c "\"); [| fin].
  destruct t1 as [| d t2]; [fin |].
  destruct (d =c "A"); [fin |].
  destruct (d =c "b"); [fin |].
  destruct (d =c "B"); [fin |].
  destruct (d =c "z"); [fin |].
  destruct (d =c "C"); [fin |].
  destruct (d =c "Q"); [fin |].
  destruct ((d =c "p") || (d =c "P")).
  { destruct (parseUnicodeClass (d =c "P") t2) as [[it r] |] eqn:EU;
      try apply parseUnicodeClass_length in EU; fin. }
  destruct (perlClass d); [fin |].
  destruct (parseEscape (d :: t2)) as [[r0 r] |] eqn:EE;
    try apply parseEscape_length in EE; fin.
Qed.

Lemma lex_fuel n : forall m t,
  List.length t <= n -> List.length t <= m -> lex n t = lex m t.
Proof.
  induction n as [| n IH]; intros m t Hn Hm.
  - destruct t; [now destruct m | len].
  - destruct t as [| c t1]; [now destruct m |].
    destruct m as [| m]; [len |]. cbn [lex].
    destruct (lexOne c t1) as [tok rest] eqn:E. apply lexOne_length in E.
    f_equal. apply IH; len.
Qed.

Lemma lex_enough fuel t : List.length t <= fuel -> lex fuel t = tokens t.
Proof.
  intros H. unfold tokens. now apply lex_fuel.
Qed.

Lemma tokens_cons c t1 :
  tokens (c :: t1) = fst (lexOne c t1) :: tokens (snd (lexOne c t1)).
Proof.
  unfold tokens at 1. simpl. destruct (lexOne c t1) as [tok rest] eqn:E. simpl.
  f_equal. apply lex_enough. now apply lexOne_length in E.
Qed.

Lemma tokens_steps n : forall t toks t',
  lexSteps n t = (toks, t') -> tokens t = (toks ++ tokens t')%list.
Proof.
  induction n as [| n IH]; intros t toks t'; simpl.
  - intros E. injection E as <- <-. reflexivity.
  - destruct t as [| c t1].
    + intros E. injection E as <- <-. reflexivity.
    + rewrite tokens_cons. destruct (lexOne c t1) as [tok rest]. simpl.
      destruct (lexSteps n rest) as [tk r'] eqn:E1.
      intros E. injection E as <- <-. simpl. f_equal. now apply IH.
Qed.

(** * Decoding of concatenated strings *)

Lemma bytes_app (a b : string) : bytes (a ++ b) = (bytes a ++ bytes b)%list.
Proof.
  unfold bytes. induction a as [| c a IH]; simpl; [reflexivity |]. now rewrite IH.
Qed.

Lemma valid_cons x d : valid (x :: d) = true -> bad x = false /\ valid d = true.
Proof.
  unfold valid. cbn [forallb]. intros H. apply andb_prop in H.
  destruct H as [H1 H2]. split; [now apply negb_true_iff | exact H2].
Qed.

Lemma bad_error : bad (RuneError, 1) = true.
Proof. reflexivity. Qed.

Ltac invalid H := exfalso; apply valid_cons in H; destruct H as [H _];
                  rewrite bad_error in H; discriminate.

Lemma decode_app_valid a : forall b,
  valid (decode a) = true -> decode (a ++ b) = (decode a ++ decode b)%list.
Proof.
  remember (List.length a) as n eqn:En. revert a En.
  induction n as [n IH] using lt_wf_ind. intros a -> b Hv.
  destruct a as [| s0 t0]; [reflexivity |].
  cbn [app]. cbn [decode] in *.
  destruct (s0 <? RuneSelf)%N.
  { apply valid_cons in Hv. cbn [app]. f_equal.
    apply (IH (List.length t0)); [simpl; lia | reflexivity | tauto]. }
  destruct (lead s0) as [[[sz lo] hi] |]; [| invalid Hv].
  destruct t0 as [| s1 t1]; [invalid Hv |]. cbn [app].
  destruct (negb ((lo <=? s1)%N && (s1 <=? hi)%N)); [invalid Hv |].
  destruct (sz <=? 2).
  { apply valid_cons in Hv. cbn [app]. f_equal.
    apply (IH (List.length t1)); [simpl; lia | reflexivity | tauto]. }
  destruct t1 as [| s2 t2]; [invalid Hv |]. cbn [app].
  destruct (negb (cont s2)); [invalid Hv |].
  destruct (sz <=? 3).
  { apply valid_cons in Hv. cbn [app]. f_equal.
    apply (IH (List.length t2)); [simpl; lia | reflexivity | tauto]. }
  destruct t2 as [| s3 t3]; [invalid Hv |]. cbn [app].
  destruct (negb (cont s3)); [invalid Hv |].
  apply valid_cons in Hv. cbn [app]. f_equal.
  apply (IH (List.length t3)); [simpl; lia | reflexivity | tauto].
Qed.

Lemma valid_app d1 d2 : valid (d1 ++ d2) = valid d1 && valid d2.
Proof. apply forallb_app. Qed.

Lemma runes_app (a b : string) :
  ValidString a = true -> runes (a ++ b) = (runes a ++ runes b)%list.
Proof.
  intros H. unfold runes. rewrite bytes_app, decode_app_valid by exact H.
  apply map_app.
Qed.

Lemma ValidString_app (a b : string) :
  ValidString a = true -> ValidString b = true -> ValidString (a ++ b) = true.
Proof.
  intros Ha Hb. unfold ValidString in *. fold (valid (decode (bytes (a ++ b)))).
  rewrite bytes_app, decode_app_valid by exact Ha.
  rewrite valid_app. unfold valid. now rewrite Ha, Hb.
Qed.

(** * Runes of several bytes lie outside ASCII *)

Lemma N_le_lor x y : (x <= N.lor x y)%N.
Proof.
  apply N.ldiff_le, N.bits_inj. intros n.
  rewrite N.ldiff_spec, N.lor_spec, N.bits_0.
  now destruct (N.testbit x n).
Qed.

Lemma N_le_lor_r x y : (y <= N.lor x y)%N.
Proof. rewrite N.lor_comm. apply N_le_lor. Qed.

Lemma allBytes_In b : (b < 256)%N -> In b allBytes.
Proof.
  intros H. unfold allBytes. apply in_map_iff. exists (N.to_nat b).
  split; [apply N2Nat.id | apply in_seq; lia].
Qed.

Lemma leadCheck_all :
  forallb (fun s0 => forallb (leadCheck s0) allBytes) allBytes = true.
Proof. vm_compute. reflexivity. Qed.

Lemma lead_byte s0 sz lo hi : lead s0 = Some (sz, lo, hi) -> (s0 < 256 /\ hi < 256)%N.
Proof.
  unfold lead.
  repeat match goal with
         | |- (if ?c then _ else _) = _ -> _ => destruct c eqn:?
         end; try discriminate; intros E; injection E as <- <- <-;
    repeat match goal with
           | H : (_ <? _)%N = true |- _ => apply N.ltb_lt in H
           | H : (_ =? _)%N = true |- _ => apply N.eqb_eq in H
           end; lia.
Qed.

Lemma leadCheck_ok s0 s1 sz lo hi :
  lead s0 = Some (sz, lo, hi) ->
  negb ((lo <=? s1) && (s1 <=? hi))%N = false ->
  leadCheck s0 s1 = true.
Proof.
  intros Hl Hr. destruct (lead_byte _ Hl) as [H0 Hhi].
  assert (H1 : (s1 < 256)%N).
  { apply negb_false_iff, andb_prop in Hr. destruct Hr as [_ Hr].
    apply N.leb_le in Hr. lia. }
  pose proof leadCheck_all as A. rewrite forallb_forall in A.
  specialize (A s0 (allBytes_In H0)). rewrite forallb_forall in A.
  exact (A s1 (allBytes_In H1)).
Qed.

Lemma decode_plain a : valid (decode a) = true -> forallb plain (decode a) = true.
Proof.
  remember (List.length a) as n eqn:En. revert a En.
  induction n as [n IH] using lt_wf_ind. intros a -> Hv.
  destruct a as [| s0 t0]; [reflexivity |].
  cbn [decode] in *.
  destruct (s0 <? RuneSelf)%N eqn:E0.
  { apply valid_cons in Hv. cbn [forallb]. apply andb_true_intro. split.
    - unfold plain. simpl. exact E0.
    - apply (IH (List.length t0)); [simpl; lia | reflexivity | tauto]. }
  destruct (lead s0) as [[[sz lo] hi] |] eqn:El; [| invalid Hv].
  destruct t0 as [| s1 t1]; [invalid Hv |].
  destruct (negb ((lo <=? s1)%N && (s1 <=? hi)%N)) eqn:E1; [invalid Hv |].
  pose proof (leadCheck_ok _ _ El E1) as C. unfold leadCheck in C.
  rewrite El, E1 in C. cbn [orb] in C.
  destruct (sz <=? 2).
  { apply valid_cons in Hv. cbn [forallb]. apply andb_true_intro. split.
    - unfold plain. cbn [fst snd Nat.eqb]. apply N.leb_le. apply N.leb_le in C.
      etransitivity; [exact C | apply N_le_lor].
    - apply (IH (List.length t1)); [simpl; lia | reflexivity | tauto]. }
  destruct t1 as [| s2 t2]; [invalid Hv |].
  destruct (negb (cont s2)); [invalid Hv |].
  destruct (sz <=? 3).
  { apply valid_cons in Hv. cbn [forallb]. apply andb_true_intro. split.
    - unfold plain. cbn [fst snd Nat.eqb]. apply N.leb_le. apply N.leb_le in C.
      etransitivity; [exact C |]. rewrite N.lor_assoc. apply N_le_lor.
    - apply (IH (List.length t2)); [simpl; lia | reflexivity | tauto]. }
  destruct t2 as [| s3 t3]; [invalid Hv |].
  destruct (negb (cont s3)); [invalid Hv |].
  apply valid_cons in Hv. cbn [forallb]. apply andb_true_intro. split.
  - unfold plain. cbn [fst snd Nat.eqb]. apply N.leb_le. apply N.leb_le in C.
    etransitivity; [exact C |]. rewrite N.lor_assoc. apply N_le_lor.
  - apply (IH (List.length t3)); [simpl; lia | reflexivity | tauto].
Qed.

(** * [QuoteMeta] on decoded strings *)

Lemma special_rune b : special b = specialRune (N_of_ascii b).
Proof.
  unfold special, specialRune.
  induction (list_ascii_of_string "\.+*?()|[]{}^$") as [| a l IH]; [reflexivity |].
  cbn [existsb map]. rewrite IH. f_equal.
  destruct (Ascii.eqb_spec b a) as [-> | Hne].
  - symmetry. apply N.eqb_refl.
  - symmetry. apply N.eqb_neq. intros E. apply Hne.
    rewrite <- (ascii_N_embedding b), <- (ascii_N_embedding a). now rewrite E.
Qed.

Lemma bytes_QuoteMeta s : bytes (QuoteMeta s) = quoteRunes (bytes s).
Proof.
  unfold bytes, quoteRunes.
  induction s as [| b s IH]; [reflexivity |].
  cbn [QuoteMeta list_ascii_of_string map flat_map].
  rewrite <- special_rune. destruct (special b); cbn [list_ascii_of_string map app];
    now rewrite IH.
Qed.

Lemma specialRune_ascii r : specialRune r = true -> (r <? RuneSelf)%N = true.
Proof.
  unfold specialRune. rewrite existsb_exists. intros (x & Hx & E).
  apply N.eqb_eq in E. subst x. simpl in Hx.
  repeat (destruct Hx as [<- | Hx]; [reflexivity |]). contradiction.
Qed.

Lemma not_ascii_not_special r : (r <? RuneSelf)%N = false -> specialRune r = false.
Proof.
  intros H. destruct (specialRune r) eqn:E; [| reflexivity].
  apply specialRune_ascii in E. congruence.
Qed.

Lemma decode_quote a :
  valid (decode a) = true -> decode (quoteRunes a) = quoteDecoded (decode a).
Proof.
  remember (List.length a) as n eqn:En. revert a En.
  induction n as [n IH] using lt_wf_ind. intros a -> Hv.
  destruct a as [| s0 t0]; [reflexivity |].
  pose proof (decode_plain _ Hv) as Hp.
  assert (Hlo : forall s lo hi sz, lead s0 = Some (sz, lo, hi) ->
            negb ((lo <=? s)%N && (s <=? hi)%N) = false -> specialRune s = false).
  { intros s lo hi sz Hl Hr. apply not_ascii_not_special.
    apply negb_false_iff, andb_prop in Hr. destruct Hr as [H1 _].
    apply N.leb_le in H1. apply N.ltb_ge.
    unfold lead in Hl.
    repeat match type of Hl with
           | (if ?c then _ else _) = _ => destruct c
           end; try discriminate; injection Hl as <- <- <-;
      unfold RuneSelf; lia. }
  assert (Hct : forall s, negb (cont s) = false -> specialRune s = false).
  { intros s Hc. apply not_ascii_not_special.
    apply negb_false_iff, andb_prop in Hc. destruct Hc as [H1 _].
    apply N.leb_le in H1. apply N.ltb_ge. unfold RuneSelf. lia. }
  assert (Hwide : forall r w, plain (r, w) = true -> (w =? 1)%nat = false ->
            specialRune r = false).
  { intros r w P W. apply not_ascii_not_special. unfold plain in P.
    cbn [fst snd] in P. rewrite W in P. apply N.leb_le in P. apply N.ltb_ge. exact P. }
  unfold quoteRunes in *. cbn [flat_map].
  destruct (specialRune s0) eqn:Es.
  { pose proof (specialRune_ascii _ Es) as Ha.
    cbn [app]. cbn [decode] in Hv |- *. rewrite Ha in *.
    change (backslash <? RuneSelf)%N with true. cbv iota.
    unfold quoteDecoded. cbn [flat_map fst]. rewrite Es. cbn [app].
    do 2 f_equal. apply valid_cons in Hv.
    apply (IH (List.length t0)); [simpl; lia | reflexivity | tauto]. }
  cbn [app]. cbn [decode] in Hv, Hp |- *.
  destruct (s0 <? RuneSelf)%N eqn:E0.
  { unfold quoteDecoded. cbn [flat_map fst]. rewrite Es. cbn [app].
    f_equal. apply valid_cons in Hv.
    apply (IH (List.length t0)); [simpl; lia | reflexivity | tauto]. }
  destruct (lead s0) as [[[sz lo] hi] |] eqn:El; [| invalid Hv].
  destruct t0 as [| s1 t1]; [invalid Hv |]. cbn [flat_map].
  destruct (negb ((lo <=? s1)%N && (s1 <=? hi)%N)) eqn:E1; [invalid Hv |].
  rewrite (Hlo _ _ _ _ eq_refl E1). cbn [app]. rewrite E1.
  destruct (sz <=? 2).
  { cbn [forallb] in Hp. apply andb_prop in Hp. destruct Hp as [Hp _].
    unfold quoteDecoded at 1. cbn [flat_map fst].
    rewrite (Hwide _ _ Hp eq_refl).
    cbn [app]. f_equal. apply valid_cons in Hv.
    apply (IH (List.length t1)); [simpl; lia | reflexivity | tauto]. }
  destruct t1 as [| s2 t2]; [invalid Hv |]. cbn [flat_map].
  destruct (negb (cont s2)) eqn:E2; [invalid Hv |].
  rewrite (Hct _ E2). cbn [app]. rewrite E2.
  destruct (sz <=? 3).
  { cbn [forallb] in Hp. apply andb_prop in Hp. destruct Hp as [Hp _].
    unfold quoteDecoded at 1. cbn [flat_map fst].
    rewrite (Hwide _ _ Hp eq_refl).
    cbn [app]. f_equal. apply valid_cons in Hv.
    apply (IH (List.length t2)); [simpl; lia | reflexivity | tauto]. }
  destruct t2 as [| s3 t3]; [invalid Hv |]. cbn [flat_map].
  destruct (negb (cont s3)) eqn:E3; [invalid Hv |].
  rewrite (Hct _ E3). cbn [app]. rewrite E3.
  cbn [forallb] in Hp. apply andb_prop in Hp. destruct Hp as [Hp _].
  unfold quoteDecoded at 1. cbn [flat_map fst].
  rewrite (Hwide _ _ Hp eq_refl).
  cbn [app]. f_equal. apply valid_cons in Hv.
  apply (IH (List.length t3)); [simpl; lia | reflexivity | tauto].
Qed.

Lemma quoteDecoded_fst d : map fst (quoteDecoded d) = quoteRunes (map fst d).
Proof.
  unfold quoteDecoded, quoteRunes. induction d as [| x d IH]; [reflexivity |].
  cbn [flat_map map]. rewrite map_app, IH. f_equal.
  now destruct (specialRune (fst x)).
Qed.

Lemma quoteDecoded_valid d : valid d = true -> valid (quoteDecoded d) = true.
Proof.
  unfold quoteDecoded. induction d as [| x d IH]; [reflexivity |].
  intros H. apply valid_cons in H. destruct H as [H1 H2].
  cbn [flat_map]. rewrite valid_app, (IH H2), andb_true_r.
  destruct (specialRune (fst x)); unfold valid; cbn [forallb]; rewrite H1; reflexivity.
Qed.

Lemma runes_QuoteMeta s :
  ValidString s = true -> runes (QuoteMeta s) = quoteRunes (runes s).
Proof.
  intros H. unfold runes. rewrite bytes_QuoteMeta, decode_quote by exact H.
  apply quoteDecoded_fst.
Qed.

Lemma ValidString_QuoteMeta s : ValidString s = true -> ValidString (QuoteMeta s) = true.
Proof.
  intros H. unfold ValidString. fold (valid (decode (bytes (QuoteMeta s)))).
  rewrite bytes_QuoteMeta, decode_quote by exact H. now apply quoteDecoded_valid.
Qed.

(** * Lexing and parsing of [anyOf] *)


Lemma append_assoc (a b c : string) : ((a ++ b) ++ c = a ++ (b ++ c))%string.
Proof. induction a as [| x a IH]; simpl; [reflexivity | now rewrite IH]. Qed.

Lemma append_nil_r (a : string) : (a ++ "" = a)%string.
Proof. induction a as [| x a IH]; simpl; [reflexivity | now rewrite IH]. Qed.

Lemma lexOne_plain r t : specialRune r = false -> lexOne r t = (TLit r, t).
Proof.
  intros H. unfold lexOne.
  repeat match goal with
         | |- (if ?b then _ else _) = _ =>
           let E := fresh "E" in
           destruct b eqn:E;
           [exfalso; apply N.eqb_eq in E; subst r; vm_compute in H; discriminate |]
         end.
  reflexivity.
Qed.

Lemma lexOne_quoted r t : specialRune r = true -> lexOne backslash (r :: t) = (TLit r, t).
Proof.
  unfold specialRune. rewrite existsb_exists. intros (x & Hx & E).
  apply N.eqb_eq in E. subst x. simpl in Hx.
  repeat (destruct Hx as [<- | Hx]; [reflexivity |]). contradiction.
Qed.

Lemma tokens_quote rs : forall rest,
  tokens (quoteRunes rs ++ rest) = (map TLit rs ++ tokens rest)%list.
Proof.
  unfold quoteRunes. induction rs as [| r rs IH]; intros rest; [reflexivity |].
  cbn [flat_map map]. destruct (specialRune r) eqn:E.
  - cbn [app]. rewrite tokens_cons, (lexOne_quoted r _ E). cbn [fst snd].
    f_equal. apply IH.
  - cbn [app]. rewrite tokens_cons, (lexOne_plain r _ E). cbn [fst snd].
    f_equal. apply IH.
Qed.

Lemma tokens_tail ls : forall rest,
  tokens (tailRunes ls ++ rest) = (tailTokens ls ++ tokens rest)%list.
Proof.
  induction ls as [| x ls IH]; intros rest; [reflexivity |].
  cbn [tailRunes tailTokens app]. rewrite tokens_cons.
  change (lexOne (chr "|") ((quoteRunes x ++ tailRunes ls) ++ rest))
    with (TAlt, (quoteRunes x ++ tailRunes ls) ++ rest)%list.
  cbn [fst snd]. f_equal. rewrite <- !app_assoc, tokens_quote. f_equal. apply IH.
Qed.

Lemma tokens_anyOf ls rest :
  tokens (anyOfRunes ls ++ rest)
  = (TGroup [] :: altTokens ls ++ TClose :: tokens rest)%list.
Proof.
  unfold anyOfRunes. cbn [app]. rewrite tokens_cons.
  match goal with
  | |- fst (lexOne _ (_ :: _ :: ?t)) :: _ = _ =>
    change (lexOne (chr "(") (chr "?" :: chr ":" :: t)) with (TGroup [], t)
  end.
  cbn [fst snd]. f_equal.
  assert (Hclose : forall rest, tokens ([chr ")"] ++ rest) = TClose :: tokens rest).
  { intros r. cbn [app]. now rewrite tokens_cons. }
  destruct ls as [| x ls].
  - cbn [altTokens app]. now rewrite tokens_cons.
  - cbn [altTokens]. rewrite <- !app_assoc, tokens_quote, tokens_tail, Hclose.
    reflexivity.
Qed.

Lemma anyOfLoop_S l : forall b i, anyOfLoop b (S i) l = (b ++ joinTail l)%string.
Proof.
  induction l as [| x l IH]; intros b i; cbn [anyOfLoop joinTail].
  - now rewrite append_nil_r.
  - cbn [Nat.eqb negb]. rewrite IH, !append_assoc. reflexivity.
Qed.

Lemma anyOf_eq l :
  anyOf l = ("(?:" ++ match l with
                      | [] => ""
                      | x :: l' => QuoteMeta x ++ joinTail l'
                      end ++ ")")%string.
Proof.
  unfold anyOf. destruct l as [| x l]; [reflexivity |].
  cbn [anyOfLoop Nat.eqb negb]. rewrite anyOfLoop_S, !append_assoc. reflexivity.
Qed.

Lemma Decodes_app a b ra rb :
  Decodes a ra -> Decodes b rb -> Decodes (a ++ b) (ra ++ rb).
Proof.
  intros [Va Ra] [Vb Rb]. split.
  - now apply ValidString_app.
  - now rewrite runes_app, Ra, Rb.
Qed.

Lemma Decodes_QuoteMeta s : ValidString s = true -> Decodes (QuoteMeta s) (quoteRunes (runes s)).
Proof.
  intros H. split; [now apply ValidString_QuoteMeta | now apply runes_QuoteMeta].
Qed.

Lemma Decodes_joinTail l :
  allValid l = true -> Decodes (joinTail l) (tailRunes (map runes l)).
Proof.
  induction l as [| x l IH]; intros H.
  - split; reflexivity.
  - cbn [allValid forallb] in H. apply andb_prop in H. destruct H as [Hx Hl].
    cbn [joinTail map tailRunes].
    change (chr "|" :: quoteRunes (runes x) ++ tailRunes (map runes l))%list
      with ([chr "|"] ++ (quoteRunes (runes x) ++ tailRunes (map runes l)))%list.
    apply Decodes_app; [split; reflexivity |].
    apply Decodes_app; [now apply Decodes_QuoteMeta | now apply IH].
Qed.

Lemma Decodes_anyOf l :
  allValid l = true -> Decodes (anyOf l) (anyOfRunes (map runes l)).
Proof.
  intros H. rewrite anyOf_eq. unfold anyOfRunes.
  apply Decodes_app; [split; reflexivity |].
  apply Decodes_app; [| split; reflexivity].
  destruct l as [| x l]; [split; reflexivity |].
  cbn [allValid forallb] in H. apply andb_prop in H. destruct H as [Hx Hl].
  cbn [map]. apply Decodes_app; [now apply Decodes_QuoteMeta | now apply Decodes_joinTail].
Qed.

(** ** Parsing an alternation of literal strings *)

Lemma run_app ts1 : forall p ts2,
  run p (ts1 ++ ts2) = (p' <- run p ts1 ;; run p' ts2).
Proof.
  induction ts1 as [| t ts1 IH]; intros p ts2; cbn [app run]; [reflexivity |].
  destruct (step p t); cbn [bind]; [apply IH | reflexivity].
Qed.

Lemma run_literals x : forall al ca st fl rest,
  run (mkParser (mkFrame al ca) st fl false) (map TLit x ++ rest)
  = run (mkParser (mkFrame al (rev (map (Literal (FoldCase fl)) x) ++ ca)) st fl false) rest.
Proof.
  induction x as [| r x IH]; intros al ca st fl rest; [reflexivity |].
  cbn [map app run step bind]. unfold push. cbn [cur alts cat stack flags].
  rewrite IH. cbn [rev]. now rewrite <- app_assoc.
Qed.

Lemma run_tail ls : forall al ca st fl rest,
  run (mkParser (mkFrame al ca) st fl false) (tailTokens ls ++ rest)
  = run (mkParser
           (mkFrame (rev (map (literalRe (FoldCase fl)) (removelast ls)) ++
                     match ls with [] => al | _ :: _ => mkConcat (rev ca) :: al end)
                    (match ls with
                     | [] => ca
                     | _ :: _ => rev (map (Literal (FoldCase fl)) (last ls []))
                     end)) st fl false) rest.
Proof.
  induction ls as [| y ls IH]; intros al ca st fl rest; [reflexivity |].
  cbn [tailTokens app run step bind cur alts cat stack flags].
  rewrite <- app_assoc, run_literals, app_nil_r, IH.
  destruct ls as [| z ls]; [reflexivity |].
  cbn [removelast last map rev]. rewrite rev_involutive.
  rewrite <- app_assoc. reflexivity.
Qed.

Lemma mkAlternate_collapse fold x ls :
  collapse (mkFrame
              (rev (map (literalRe fold) (removelast ls)) ++
               match ls with [] => [] | _ :: _ => [mkConcat (rev (rev (map (Literal fold) x)))] end)
              (match ls with
               | [] => rev (map (Literal fold) x)
               | _ :: _ => rev (map (Literal fold) (last ls []))
               end))
  = anyOfRe fold (x :: ls).
Proof.
  unfold collapse, anyOfRe. cbn [alts cat map].
  destruct ls as [| y ls].
  - cbn [removelast map rev app]. now rewrite rev_involutive.
  - rewrite rev_involutive.
    change (mkConcat (map (Literal fold) (last (y :: ls) []))) with (literalRe fold (last (y :: ls) [])).
    cbn [rev]. rewrite rev_app_distr, rev_involutive. cbn [rev app].
    rewrite rev_involutive.
    change (mkConcat (map (Literal fold) x)) with (literalRe fold x).
    f_equal. f_equal.
    assert (E : (removelast (y :: ls) ++ [last (y :: ls) []])%list = y :: ls)
      by (symmetry; apply app_removelast_last; discriminate).
    rewrite <- E at 3. rewrite map_app. reflexivity.
Qed.

Lemma run_anyOf ls al ca st fl lr rest :
  run (mkParser (mkFrame al ca) st fl lr) (TGroup [] :: altTokens ls ++ TClose :: rest)
  = run (mkParser (mkFrame al (anyOfRe (FoldCase fl) ls :: ca)) st fl false) rest.
Proof.
  cbn [run step bind cur stack flags fold_left].
  destruct ls as [| x ls].
  - reflexivity.
  - cbn [altTokens]. rewrite <- app_assoc, run_literals, app_nil_r, run_tail.
    cbn [run step bind stack cur alts cat].
    rewrite mkAlternate_collapse. reflexivity.
Qed.

(** * The expressions of [xurls.go] parse to the grammar *)


Lemma relaxedOf_shape A Uc :
  relaxedOf A Uc
  = (relaxedHead ++ anyOf A ++ relaxedBreak ++ anyOf Uc ++ relaxedMiddle
     ++ anyOf A ++ relaxedBreak ++ anyOf Uc ++ relaxedTail)%string.
Proof.
  unfold relaxedOf, relaxedHead, relaxedBreak, relaxedMiddle, relaxedTail. cbv zeta.
  rewrite !append_assoc. reflexivity.
Qed.

Lemma run_segments ss : forall p, run p (flatten ss) = runSegments p ss.
Proof.
  induction ss as [| s ss IH]; intros p; [reflexivity |].
  cbn [flatten runSegments]. destruct s as [ts | ls]; cbn [runSegment].
  - rewrite run_app. destruct (run p ts); cbn [bind]; [apply IH | reflexivity].
  - destruct p as [[al ca] st fl lr].
    rewrite run_anyOf. cbn [bind cur alts cat stack flags]. apply IH.
Qed.

Lemma tokens_head rest : tokens (runes relaxedHead ++ rest) = (headTokens ++ tokens rest)%list.
Proof.
  apply (@tokens_steps (List.length headTokens)). vm_compute. reflexivity.
Qed.

Lemma tokens_break rest : tokens (runes relaxedBreak ++ rest) = (breakTokens ++ tokens rest)%list.
Proof.
  apply (@tokens_steps (List.length breakTokens)). vm_compute. reflexivity.
Qed.

Lemma tokens_middle rest :
  tokens (runes relaxedMiddle ++ rest) = (middleTokens ++ tokens rest)%list.
Proof.
  apply (@tokens_steps (List.length middleTokens)). vm_compute. reflexivity.
Qed.

Lemma Decodes_closed s : ValidString s = true -> Decodes s (runes s).
Proof. now split. Qed.

Lemma Decodes_relaxedOf A Uc :
  allValid A = true -> allValid Uc = true ->
  Decodes (relaxedOf A Uc)
    (runes relaxedHead ++ anyOfRunes (map runes A) ++ runes relaxedBreak ++
     anyOfRunes (map runes Uc) ++ runes relaxedMiddle ++
     anyOfRunes (map runes A) ++ runes relaxedBreak ++
     anyOfRunes (map runes Uc) ++ runes relaxedTail).
Proof.
  intros HA HU. rewrite relaxedOf_shape.
  assert (Hh : Decodes relaxedHead (runes relaxedHead))
    by (apply Decodes_closed; vm_compute; reflexivity).
  assert (Hb : Decodes relaxedBreak (runes relaxedBreak))
    by (apply Decodes_closed; vm_compute; reflexivity).
  assert (Hm : Decodes relaxedMiddle (runes relaxedMiddle))
    by (apply Decodes_closed; vm_compute; reflexivity).
  assert (Ht : Decodes relaxedTail (runes relaxedTail))
    by (apply Decodes_closed; vm_compute; reflexivity).
  pose proof (Decodes_anyOf A HA) as Ha.
  pose proof (Decodes_anyOf Uc HU) as Hu.
  exact (Decodes_app Hh (Decodes_app Ha (Decodes_app Hb (Decodes_app Hu
           (Decodes_app Hm (Decodes_app Ha (Decodes_app Hb (Decodes_app Hu Ht)))))))).
Qed.

Theorem Parse_relaxedOf A Uc :
  allValid A = true -> allValid Uc = true ->
  Parse (relaxedOf A Uc) = Ok (relaxedRe (map runes A) (map runes Uc)).
Proof.
  intros HA HU.
  destruct (Decodes_relaxedOf A Uc HA HU) as [V R]. unfold Parse. 
  rewrite V, R. cbn [negb].
  rewrite tokens_head, tokens_anyOf, tokens_break, tokens_anyOf, tokens_middle,
    tokens_anyOf, tokens_break, tokens_anyOf.
  change (tokens (runes relaxedTail)) with endTokens.
  set (a := map runes A). set (u := map runes Uc).
  rewrite <- (app_nil_r endTokens).
  match goal with
  | |- (p <- run start ?ts ;; finish p) = _ =>
    change ts with
      (flatten [Constant headTokens; Literals a; Constant breakTokens; Literals u;
                Constant middleTokens; Literals a; Constant breakTokens; Literals u;
                Constant endTokens])
  end.
  rewrite run_segments.
  vm_compute. reflexivity.
Qed.

(** * The slices of [relaxedExp] *)

Lemma firstNonASCII_bound l : forall i k,
  firstNonASCII l i = Ok (Some k) -> i <= k < i + List.length l.
Proof.
  induction l as [| s l IH]; intros i k; cbn [firstNonASCII]; [discriminate |].
  destruct (firstByte s) as [b | e]; cbn [bind]; [| discriminate].
  destruct (RuneSelf <=? b)%N.
  - intros E. injection E as <-. simpl. lia.
  - intros E. apply IH in E. simpl. lia.
Qed.

Section StoreFacts.
Variable tlds pseudo : list string.

(** A store whose first two arrays are the tables. *)
Variable extra : store.
Let h : store := tlds :: pseudo :: extra.

Lemma index_TLDs i :
  index h (TLDs tlds) i =
  match nth_error tlds i with
  | Some x => Ok x
  | None => Err ErrIndexOutOfRange
  end.
Proof.
  unfold index, TLDs, h, array. cbn [len off arr nth Nat.add].
  destruct (Nat.ltb_spec i (List.length tlds)) as [H | H].
  - reflexivity.
  - apply nth_error_None in H. now rewrite H.
Qed.

Lemma partition_spec l : forall i,
  skipn i tlds = l ->
  partition tlds h (List.length l) i =
  (k <- firstNonASCII l i ;;
   match k with
   | None => Ok (nilSlice, nilSlice)
   | Some k => Ok (mkSlice 0 0 k k,
                   mkSlice 0 k (List.length tlds - k) (List.length tlds - k))
   end).
Proof.
  induction l as [| s l IH]; intros i Hi; [reflexivity |].
  assert (Hn : nth_error tlds i = Some s).
  { rewrite <- (firstn_skipn i tlds) at 1. rewrite Hi.
    assert (Hlen : List.length (firstn i tlds) = i).
    { apply firstn_length_le.
      destruct (Nat.le_gt_cases i (List.length tlds)) as [H | H]; [exact H |].
      rewrite skipn_all2 in Hi by lia. discriminate. }
    rewrite nth_error_app2 by lia. rewrite Hlen, Nat.sub_diag. reflexivity. }
  assert (Hlt : i < List.length tlds) by (apply nth_error_Some; congruence).
  cbn [List.length partition firstNonASCII]. rewrite index_TLDs, Hn. cbn [bind].
  destruct (firstByte s) as [b | e]; cbn [bind]; [| reflexivity].
  destruct (RuneSelf <=? b)%N.
  - unfold upTo3, from, TLDs. cbn [len cap arr off].
    rewrite Nat.leb_refl. replace (i <=? List.length tlds) with true
      by (symmetry; apply Nat.leb_le; lia).
    cbn [andb bind Nat.add]. reflexivity.
  - apply IH. change (S i) with (1 + i). rewrite <- skipn_skipn, Hi. reflexivity.
Qed.

Lemma contents_PseudoTLDs : contents h (PseudoTLDs pseudo) = pseudo.
Proof.
  unfold contents, PseudoTLDs, h, array. cbn [len off arr nth skipn]. apply firstn_all.
Qed.

Theorem relaxedExp_store :
  relaxedExp tlds pseudo h =
  ('(a, u) <- split tlds ;;
   Ok (relaxedOf (a ++ pseudo) u,
       match pseudo with
       | [] => h
       | _ :: _ => (h ++ [(a ++ pseudo)%list])%list
       end)).
Proof.
  unfold relaxedExp, split.
  change (len (TLDs tlds)) with (List.length tlds).
  rewrite (@partition_spec tlds 0 eq_refl), contents_PseudoTLDs.
  destruct (firstNonASCII tlds 0) as [[k |] | e] eqn:Ek; cbn [bind]; [| | reflexivity].
  - apply firstNonASCII_bound in Ek.
    assert (Hk : List.length (firstn k tlds) = k) by (apply firstn_length_le; lia).
    unfold append. cbn [len cap arr off].
    destruct pseudo as [| p ps] eqn:Epseudo.
    + cbn [List.length]. rewrite Nat.add_0_r, Nat.leb_refl.
      unfold h. cbn [update write].
      unfold contents, array. cbn [len off arr nth skipn].
      rewrite app_nil_r, (@firstn_all2 _ (List.length tlds - k) (skipn k tlds))
        by (rewrite length_skipn; lia).
      reflexivity.
    + replace (k + List.length (p :: ps) <=? k) with false
        by (symmetry; apply Nat.leb_gt; simpl; lia).
      unfold contents, array. cbn [len off arr].
      rewrite (nth_middle h []).
      assert (H0 : forall x, nth 0 (h ++ x) [] = tlds) by reflexivity.
      rewrite !H0. change (nth 0 h []) with tlds. cbn [skipn].
      rewrite (@firstn_all2 _ (k + List.length (p :: ps)) (firstn k tlds ++ p :: ps)%list)
        by (rewrite length_app, Hk; simpl; lia).
      rewrite (@firstn_all2 _ (List.length tlds - k) (skipn k tlds))
        by (rewrite length_skipn; lia).
      reflexivity.
  - unfold append, nilSlice. cbn [len cap arr off Nat.add].
    destruct pseudo as [| p ps] eqn:Epseudo.
    + reflexivity.
    + cbn [List.length Nat.leb].
      unfold contents, array. cbn [len off arr firstn app skipn].
      rewrite (nth_middle h []). cbn [skipn].
      rewrite firstn_all2 by (simpl; lia). reflexivity.
Qed.

End StoreFacts.

Section TableFacts.
Variable tlds pseudo : list string.

(** [relaxedExp] assembles the expression from the two lists of [split],
    with the pseudo domains behind the ASCII ones, and leaves the arrays of
    the two tables as they are. *)
Theorem relaxedExp_spec :
  relaxedExp tlds pseudo (tables tlds pseudo) =
  ('(a, u) <- split tlds ;;
   Ok (relaxedOf (a ++ pseudo) u,
       match pseudo with
       | [] => tables tlds pseudo
       | _ :: _ => (tables tlds pseudo ++ [(a ++ pseudo)%list])%list
       end)).
Proof. apply (relaxedExp_store tlds pseudo []). Qed.

Lemma split_wellFormed :
  wellFormed tlds pseudo = true ->
  exists a u, split tlds = Ok (a, u) /\ allValid (a ++ pseudo) = true /\ allValid u = true.
Proof.
  unfold wellFormed. intros H. apply andb_prop in H. destruct H as [H Hne].
  apply andb_prop in H. destruct H as [Ht Hp].
  assert (Hs : forall l i, forallb (fun s => negb (s =? "")%string) l = true ->
            exists k, firstNonASCII l i = Ok k).
  { induction l as [| s l IH]; intros i Hl; [now exists None |].
    cbn [forallb] in Hl. apply andb_prop in Hl. destruct Hl as [Hs Hl].
    cbn [firstNonASCII]. destruct s as [| b s]; [discriminate |]. cbn [firstByte bind].
    destruct (RuneSelf <=? N_of_ascii b)%N; [now exists (Some i) | apply IH, Hl]. }
  destruct (Hs tlds 0 Hne) as [k Hk]. unfold split. rewrite Hk. cbn [bind].
  assert (Hsub : forall n, allValid (firstn n tlds) = true /\ allValid (skipn n tlds) = true).
  { intros n. rewrite <- (firstn_skipn n tlds) in Ht. unfold allValid in *.
    rewrite forallb_app in Ht. now apply andb_prop in Ht. }
  destruct k as [k |].
  - exists (firstn k tlds), (skipn k tlds). split; [reflexivity |].
    destruct (Hsub k) as [H1 H2]. split; [| exact H2].
    unfold allValid in *. rewrite forallb_app, H1, Hp. reflexivity.
  - exists [], []. repeat split. exact Hp.
Qed.

(** The expression [Relaxed] compiles, in terms of the lists of [split]. *)
Theorem Relaxed_spec a u :
  split tlds = Ok (a, u) ->
  allValid (a ++ pseudo) = true -> allValid u = true ->
  Relaxed tlds pseudo
  = Ok (mkRegexp (relaxedRe (map runes (a ++ pseudo)) (map runes u)) true).
Proof.
  intros Hs Ha Hu. unfold Relaxed. rewrite relaxedExp_spec, Hs. cbn [bind].
  unfold MustCompile, Compile. rewrite (Parse_relaxedOf _ _ Ha Hu). reflexivity.
Qed.

End TableFacts.

Theorem Parse_strictExp : Parse strictExp = Ok strictRe.
Proof. vm_compute. reflexivity. Qed.

Theorem Strict_spec : Strict = Ok (mkRegexp strictRe true).
Proof. unfold Strict, MustCompile, Compile. rewrite Parse_strictExp. reflexivity. Qed.

Theorem Parse_pathCont : Parse pathCont = Ok pathContRe.
Proof. vm_compute. reflexivity. Qed.

Theorem Parse_domain : Parse domain = Ok domainRe.
Proof. vm_compute. reflexivity. Qed.

Theorem Parse_ipAddr : Parse ipAddr = Ok ipAddrRe.
Proof. vm_compute. reflexivity. Qed.

Theorem Parse_ipv4Addr : Parse ipv4Addr = Ok ipv4Re.
Proof. vm_compute. reflexivity. Qed.

Theorem Parse_port : Parse port = Ok portRe.
Proof. vm_compute. reflexivity. Qed.

(** * Leftmost-longest search *)

Lemma fold_max_spec l : forall k,
  (fold_left Nat.max l k = k \/ In (fold_left Nat.max l k) l) /\
  k <= fold_left Nat.max l k /\
  forall x, In x l -> x <= fold_left Nat.max l k.
Proof.
  induction l as [| y l IH]; intros k; cbn [fold_left].
  - split; [now left |]. split; [lia | intros x []].
  - destruct (IH (Nat.max k y)) as (H1 & H2 & H3). split; [| split].
    + destruct H1 as [H1 | H1]; [| right; now right].
      rewrite H1. destruct (Nat.max_spec k y) as [[_ E] | [_ E]]; rewrite E.
      * right. now left.
      * now left.
    + lia.
    + intros x [<- | Hx]; [lia | now apply H3].
Qed.

Lemma maximum_Some l m :
  maximum l = Some m <-> In m l /\ forall x, In x l -> x <= m.
Proof.
  destruct l as [| k l]; cbn [maximum].
  - split; [discriminate | intros [[] _]].
  - destruct (fold_max_spec l k) as (H1 & H2 & H3). split.
    + intros E. injection E as <-. split.
      * destruct H1 as [-> | H1]; [now left | now right].
      * intros x [<- | Hx]; [exact H2 | now apply H3].
    + intros [Hin Hmax]. f_equal. apply Nat.le_antisymm.
      * apply Hmax. destruct H1 as [-> | H1]; [now left | now right].
      * destruct Hin as [<- | Hin]; [exact H2 | now apply H3].
Qed.

Lemma maximum_None l : maximum l = None <-> l = [].
Proof. destruct l; cbn [maximum]; split; congruence. Qed.

Section SearchFacts.

Variable U : UnicodeTables.
Variable text : list rune.

Lemma bounded_single i : i <= List.length text -> bounded text [i].
Proof. intros H k [<- | []]. exact H. Qed.

Lemma ends_single re i j :
  i <= List.length text ->
  In j (ends U text re [i]) <-> Matches U text re i j.
Proof.
  intros H. destruct (@ends_spec U text re _ (bounded_single H)) as [_ E].
  rewrite E. split.
  - now intros (k & [<- | []] & Hm).
  - intros Hm. exists i. split; [now left | exact Hm].
Qed.

Lemma Matches_bounded re i j :
  i <= List.length text -> Matches U text re i j -> j <= List.length text.
Proof.
  intros H Hm. destruct (@ends_spec U text re _ (bounded_single H)) as [B _].
  apply B. now apply ends_single.
Qed.

(** The longest match at a position is the greatest end of a match. *)
Lemma longestAt_Some re i e :
  i <= List.length text ->
  longestAt U text re i = Some e <->
  Matches U text re i e /\ forall e', Matches U text re i e' -> e' <= e.
Proof.
  intros H. unfold longestAt. rewrite maximum_Some, (ends_single re e H). split.
  - intros [Hm Hmax]. split; [exact Hm |]. intros e' He'. apply Hmax.
    now apply ends_single.
  - intros [Hm Hmax]. split; [exact Hm |]. intros e' He'. apply Hmax.
    now apply ends_single in He'.
Qed.

Lemma longestAt_None re i :
  i <= List.length text ->
  longestAt U text re i = None <-> forall e, ~ Matches U text re i e.
Proof.
  intros H. unfold longestAt. rewrite maximum_None. split.
  - intros E e He. apply (ends_single re e H) in He. rewrite E in He. contradiction.
  - intros Hn. destruct (ends U text re [i]) as [| e l] eqn:E; [reflexivity |].
    exfalso. apply (Hn e), ends_single; [exact H |]. rewrite E. now left.
Qed.

Lemma longestAt_exists re i e :
  i <= List.length text -> Matches U text re i e ->
  exists e', longestAt U text re i = Some e' /\ e <= e'.
Proof.
  intros H Hm. destruct (longestAt U text re i) as [e' |] eqn:E.
  - exists e'. split; [reflexivity |]. apply (longestAt_Some re e' H) in E.
    now apply E.
  - pose proof (proj1 (longestAt_None re H) E) as E'. now apply E' in Hm.
Qed.

(** Expressions with the same matches have the same longest matches. *)
Lemma longestAt_ext re1 re2 i :
  i <= List.length text ->
  (forall j, Matches U text re1 i j <-> Matches U text re2 i j) ->
  longestAt U text re1 i = longestAt U text re2 i.
Proof.
  intros H Eq. destruct (longestAt U text re1 i) as [e |] eqn:E1.
  - symmetry. apply (longestAt_Some re2 e H). apply (longestAt_Some re1 e H) in E1.
    destruct E1 as [Hm Hmax]. split; [now apply Eq |].
    intros e' He'. apply Hmax. now apply Eq.
  - symmetry. apply (longestAt_None re2 H).
    pose proof (proj1 (longestAt_None re1 H) E1) as E1'.
    intros e He. apply (E1' e). now apply Eq.
Qed.

Lemma search_Some re n : forall pos b e,
  search U text re n pos = Some (b, e) ->
  pos <= b < pos + n /\ longestAt U text re b = Some e /\
  forall b', pos <= b' < b -> longestAt U text re b' = None.
Proof.
  induction n as [| n IH]; intros pos b e; cbn [search]; [discriminate |].
  destruct (longestAt U text re pos) as [e0 |] eqn:E.
  - intros H. injection H as <- <-. split; [lia |]. split; [exact E |]. intros b' Hb'. lia.
  - intros H. apply IH in H. destruct H as (H1 & H2 & H3). split; [lia |].
    split; [exact H2 |]. intros b' Hb'.
    destruct (Nat.eq_dec b' pos) as [-> | Hne]; [exact E | apply H3; lia].
Qed.

Lemma search_None re n : forall pos,
  search U text re n pos = None ->
  forall b, pos <= b < pos + n -> longestAt U text re b = None.
Proof.
  induction n as [| n IH]; intros pos; cbn [search]; [intros _ b Hb; lia |].
  destruct (longestAt U text re pos) as [e0 |] eqn:E; [discriminate |].
  intros H b Hb. destruct (Nat.eq_dec b pos) as [-> | Hne]; [exact E |].
  apply (IH (S pos) H). lia.
Qed.

Lemma search_ext re1 re2 n : forall pos,
  pos + n <= S (List.length text) ->
  (forall i j, Matches U text re1 i j <-> Matches U text re2 i j) ->
  search U text re1 n pos = search U text re2 n pos.
Proof.
  induction n as [| n IH]; intros pos Hb Eq; cbn [search]; [reflexivity |].
  rewrite (@longestAt_ext re1 re2 pos) by (try lia; intros j; apply Eq).
  destruct (longestAt U text re2 pos); [reflexivity |]. apply IH; [lia | exact Eq].
Qed.

Lemma execute_ext re1 re2 pos :
  pos <= List.length text ->
  (forall i j, Matches U text re1 i j <-> Matches U text re2 i j) ->
  execute U text re1 pos = execute U text re2 pos.
Proof.
  intros Hp Eq. unfold execute. apply search_ext; [lia | exact Eq].
Qed.

(** Expressions with the same matches report the same matches. *)
Lemma allMatches_ext re1 re2 fuel : forall pos prev,
  (forall i j, Matches U text re1 i j <-> Matches U text re2 i j) ->
  allMatches U text re1 fuel pos prev = allMatches U text re2 fuel pos prev.
Proof.
  induction fuel as [| fuel IH]; intros pos prev Eq; cbn [allMatches]; [reflexivity |].
  destruct (Nat.ltb_spec (List.length text) pos) as [Hlt | Hle]; [reflexivity |].
  rewrite (execute_ext re1 re2 Hle Eq).
  destruct (execute U text re2 pos) as [[b e] |]; [| reflexivity].
  f_equal. apply IH, Eq.
Qed.

Lemma Iter_le (R : nat -> nat -> Prop) n : forall i j,
  (forall a b, R a b -> a <= b) -> Iter R n i j -> i <= j.
Proof.
  induction n as [| n IH]; cbn [Iter]; intros i j HR.
  - intros ->. lia.
  - intros (k & Hk & Hn). apply HR in Hk. apply IH in Hn; [lia | exact HR].
Qed.

(** A match ends at or after its start. *)
Lemma Matches_le re : forall i j, Matches U text re i j -> i <= j.
Proof.
  induction re; cbn [Matches]; intros i j;
    try (intros [-> _]; lia); try (unfold Step; intros [-> _]; lia).
  - intros ->. lia.
  - apply IHre.
  - intros (n & Hn). now apply (@Iter_le _ _ i j IHre) in Hn.
  - intros (n & Hn). now apply (@Iter_le _ _ i j IHre) in Hn.
  - intros [-> | H]; [lia | now apply IHre].
  - intros (n & _ & _ & Hn). now apply (@Iter_le _ _ i j IHre) in Hn.
  - intros (k & H1 & H2). apply IHre1 in H1. apply IHre2 in H2. lia.
  - intros [H | H]; [now apply IHre1 | now apply IHre2].
Qed.

(** Every reported match is the longest match at its start. *)
Lemma allMatches_In re fuel : forall pos prev b e,
  In (b, e) (allMatches U text re fuel pos prev) ->
  pos <= b <= List.length text /\ longestAt U text re b = Some e.
Proof.
  induction fuel as [| fuel IH]; intros pos prev b e; cbn [allMatches]; [intros [] |].
  destruct (Nat.ltb_spec (List.length text) pos) as [Hlt | Hle]; [intros [] |].
  destruct (execute U text re pos) as [[b0 e0] |] eqn:E; [| intros []].
  unfold execute in E. apply search_Some in E. destruct E as (H1 & H2 & _).
  intros Hin. apply in_app_or in Hin. destruct Hin as [Hin | Hin].
  - destruct (negb _); [| contradiction]. destruct Hin as [Hin | []].
    injection Hin as <- <-. split; [lia | exact H2].
  - apply IH in Hin. destruct Hin as [Hp Hl]. split; [| exact Hl].
    assert (b0 <= e0).
    { apply longestAt_Some in H2; [| lia]. destruct H2 as [Hm _].
      now apply Matches_le in Hm. }
    destruct (e0 =? pos); lia.
Qed.

(** The first reported match is the leftmost-longest match of the text,
    when it is not empty. *)
Lemma allMatches_first re fuel b e :
  execute U text re 0 = Some (b, e) -> e <> 0 ->
  exists rest, allMatches U text re (S fuel) 0 None = (b, e) :: rest.
Proof.
  intros E He. cbn [allMatches]. rewrite E.
  destruct (Nat.ltb_spec (List.length text) 0) as [Hlt | _]; [lia |].
  destruct (Nat.eqb_spec e 0) as [-> | _]; [congruence |].
  cbn [andb negb app]. eauto.
Qed.

End SearchFacts.

(** * Matches of concatenations and alternations of lists *)

Section ListFacts.
Variable U : UnicodeTables.
Variable text : list rune.

Lemma Matches_mkConcat_cons r l i j :
  Matches U text (mkConcat (r :: l)) i j <->
  exists k, Matches U text r i k /\ Matches U text (mkConcat l) k j.
Proof.
  destruct l as [| r' l]; cbn [mkConcat Matches].
  - split.
    + intros H. now exists j.
    + now intros (k & H & ->).
  - reflexivity.
Qed.

Lemma Matches_mkAlternate l i j :
  l <> [] ->
  Matches U text (mkAlternate l) i j <-> exists r, In r l /\ Matches U text r i j.
Proof.
  induction l as [| r l IH]; intros Hne; [congruence |].
  destruct l as [| r' l].
  - cbn [mkAlternate]. split.
    + intros H. exists r. split; [now left | exact H].
    + now intros (r0 & [<- | []] & H).
  - cbn [mkAlternate Matches]. rewrite IH by discriminate. split.
    + intros [H | (r0 & Hin & H)].
      * exists r. split; [now left | exact H].
      * exists r0. split; [now right | exact H].
    + intros (r0 & [<- | Hin] & H); [now left | right; now exists r0].
Qed.

(** A literal string matches rune by rune. *)
Lemma Matches_literalRe fold x : forall i j,
  Matches U text (literalRe fold x) i j <->
  j = i + List.length x /\
  forall k, k < List.length x ->
    exists c, at_ text (i + k) = Some c /\ litMatch U fold (nth k x 0%N) c = true.
Proof.
  unfold literalRe. induction x as [| r x IH]; intros i j.
  - cbn [map mkConcat Matches List.length]. split.
    + intros ->. split; [lia | intros k Hk; lia].
    + intros [-> _]. lia.
  - cbn [map]. rewrite Matches_mkConcat_cons. cbn [Matches List.length]. split.
    + intros (k & (-> & c & Hc & Hm) & Hrest). apply IH in Hrest.
      destruct Hrest as [-> Hall]. split; [lia |].
      intros [| k] Hk.
      * exists c. rewrite Nat.add_0_r. now split.
      * destruct (Hall k) as (c' & Hc' & Hm'); [lia |].
        exists c'. replace (i + S k) with (S i + k) by lia. now split.
    + intros [-> Hall]. exists (S i). split.
      * split; [reflexivity |]. destruct (Hall 0) as (c & Hc & Hm); [lia |].
        rewrite Nat.add_0_r in Hc. now exists c.
      * apply IH. split; [lia |]. intros k Hk.
        destruct (Hall (S k)) as (c & Hc & Hm); [lia |].
        exists c. replace (S i + k) with (i + S k) by lia. now split.
Qed.

Lemma Matches_anyOfRe fold ls i j :
  ls <> [] ->
  Matches U text (anyOfRe fold ls) i j <->
  exists x, In x ls /\ Matches U text (literalRe fold x) i j.
Proof.
  intros Hne. unfold anyOfRe. rewrite Matches_mkAlternate.
  - split.
    + intros (r & Hin & H). apply in_map_iff in Hin. destruct Hin as (x & <- & Hx).
      now exists x.
    + intros (x & Hx & H). exists (literalRe fold x). split; [now apply in_map | exact H].
  - destruct ls; [congruence | discriminate].
Qed.

Lemma Matches_anyOfRe_nil fold i j :
  Matches U text (anyOfRe fold []) i j <-> j = i.
Proof. reflexivity. Qed.

End ListFacts.

(** A quoted string parses to the literal string. *)
Theorem Parse_QuoteMeta s :
  ValidString s = true -> Parse (QuoteMeta s) = Ok (literalRe false (runes s)).
Proof.
  intros H. unfold Parse. rewrite (ValidString_QuoteMeta _ H), (runes_QuoteMeta _ H).
  cbn [negb].
  rewrite <- (app_nil_r (quoteRunes (runes s))), tokens_quote.
  change (tokens []) with (@nil Token).
  unfold start. rewrite run_literals. cbn [run bind finish stack cur].
  unfold collapse. cbn [alts cat rev app mkAlternate].
  rewrite app_nil_r, rev_involutive. reflexivity.
Qed.

(** * Byte offsets *)

Ltac wd := unfold list_sum in *; cbn [map fold_right snd List.length] in *; unfold rune in *; lia.

Lemma decode_widths a : list_sum (map snd (decode a)) = List.length a.
Proof.
  remember (List.length a) as n eqn:En. revert a En.
  induction n as [n IH] using lt_wf_ind. intros a ->.
  destruct a as [| s0 t0]; [reflexivity |].
  assert (H0 : list_sum (map snd (decode t0)) = List.length t0)
    by (apply (IH (List.length t0)); [simpl; lia | reflexivity]).
  cbn [decode].
  destruct (s0 <? RuneSelf)%N; [wd |].
  destruct (lead s0) as [[[sz lo] hi] |]; [| wd].
  destruct t0 as [| s1 t1]; [wd |].
  destruct (negb ((lo <=? s1)%N && (s1 <=? hi)%N));
    [wd |].
  assert (H1 : list_sum (map snd (decode t1)) = List.length t1)
    by (apply (IH (List.length t1)); [simpl; lia | reflexivity]).
  destruct (sz <=? 2); [wd |].
  destruct t1 as [| s2 t2]; [wd |].
  destruct (negb (cont s2)); [wd |].
  assert (H2 : list_sum (map snd (decode t2)) = List.length t2)
    by (apply (IH (List.length t2)); [simpl; lia | reflexivity]).
  destruct (sz <=? 3); [wd |].
  destruct t2 as [| s3 t3]; [wd |].
  destruct (negb (cont s3)); [wd |].
  assert (H3 : list_sum (map snd (decode t3)) = List.length t3)
    by (apply (IH (List.length t3)); [simpl; lia | reflexivity]).
  wd.
Qed.

Lemma bytes_length s : List.length (bytes s) = String.length s.
Proof.
  unfold bytes. rewrite length_map.
  induction s as [| c s IH]; simpl; [reflexivity | now rewrite IH].
Qed.

Lemma substring_all s : substring 0 (String.length s) s = s.
Proof. induction s as [| c s IH]; simpl; [reflexivity | now rewrite IH]. Qed.

Lemma offset_all ws : offset ws (List.length ws) = list_sum ws.
Proof. unfold offset. now rewrite firstn_all. Qed.

Lemma offset_mono ws i j : i <= j -> offset ws i <= offset ws j.
Proof.
  unfold offset. revert i j. induction ws as [| w ws IH]; intros i j H.
  - now rewrite !firstn_nil.
  - destruct i as [| i]; [simpl; lia |]. destruct j as [| j]; [lia |].
    specialize (IH i j). unfold list_sum in *. cbn [firstn fold_right]. lia.
Qed.

Section WholeText.
Variable U : UnicodeTables.
Variable text : list rune.

(** When the expression matches the whole of a text, that match is the
    only one reported. *)
Lemma allMatches_whole re :
  text <> [] ->
  Matches U text re 0 (List.length text) ->
  allMatches U text re (2 + List.length text) 0 None = [(0, List.length text)].
Proof.
  intros Hne Hm.
  assert (Hpos : 0 < List.length text) by (destruct text; [congruence | simpl; lia]).
  assert (E0 : longestAt U text re 0 = Some (List.length text)).
  { apply longestAt_Some; [lia |]. split; [exact Hm |].
    intros e' He'. apply (Matches_bounded U text re) in He'; [exact He' | lia]. }
  cbn [Nat.add allMatches].
  replace (List.length text <? 0) with false by (symmetry; apply Nat.ltb_ge; lia).
  unfold execute at 1. rewrite Nat.sub_0_r. cbn [search]. rewrite E0.
  replace (List.length text =? 0) with false by (symmetry; apply Nat.eqb_neq; lia).
  cbn [andb negb app]. f_equal.
  rewrite Nat.ltb_irrefl.
  destruct (execute U text re (List.length text)) as [[b e] |] eqn:E; [| reflexivity].
  unfold execute in E. apply search_Some in E. destruct E as (Hb & Hl & _).
  assert (b = List.length text) by lia. subst b.
  apply longestAt_Some in Hl; [| lia]. destruct Hl as [Hme _].
  pose proof (Matches_le _ _ _ _ _ Hme) as H1.
  apply (Matches_bounded U text re) in Hme; [| lia].
  assert (e = List.length text) by lia. subst e.
  rewrite !Nat.eqb_refl. cbn [andb negb app].
  destruct (List.length text) as [| n] eqn:En; [lia |].
  cbn [allMatches]. rewrite En.
  replace (S n <? S (S n)) with true by (symmetry; apply Nat.ltb_lt; lia).
  reflexivity.
Qed.

End WholeText.

Lemma FindAllString_whole U re s :
  longest re = true -> s <> ""%string ->
  Matches U (runes s) (prog re) 0 (List.length (runes s)) ->
  FindAllString U re s = Ok [s].
Proof.
  intros Hl Hne Hm. unfold FindAllString, FindAllStringIndex. rewrite Hl.
  cbv zeta. fold (runes s).
  assert (Hr : runes s <> []).
  { unfold runes, bytes. destruct s as [| c s]; [congruence |].
    cbn [list_ascii_of_string map decode].
    destruct (N_of_ascii c <? RuneSelf)%N; [discriminate |].
    destruct (lead (N_of_ascii c)) as [[[sz lo] hi] |]; [| discriminate].
    destruct (map N_of_ascii (list_ascii_of_string s)) as [| s1 t1]; [discriminate |].
    destruct (negb _); [discriminate |].
    destruct (sz <=? 2); [discriminate |].
    destruct t1 as [| s2 t2]; [discriminate |].
    destruct (negb _); [discriminate |].
    destruct (sz <=? 3); [discriminate |].
    destruct t2 as [| s3 t3]; [discriminate |].
    destruct (negb _); discriminate. }
  rewrite (@allMatches_whole U (runes s) (prog re) Hr Hm). cbn [bind map fst snd].
  assert (E0 : offset (map snd (decode (bytes s))) 0 = 0) by reflexivity.
  assert (En : offset (map snd (decode (bytes s))) (List.length (runes s))
               = String.length s).
  { unfold runes. rewrite length_map, <- (length_map snd), offset_all.
    now rewrite decode_widths, bytes_length. }
  rewrite E0, En, Nat.sub_0_r, substring_all. reflexivity.
Qed.
Local Open Scope string_scope.

(** * Claims *)

(** [Relaxed] on well-formed tables, with the two lists of literal
    top-level domains left open. *)
Lemma Relaxed_wellFormed tlds pseudo :
  wellFormed tlds pseudo = true ->
  exists a u, Relaxed tlds pseudo = Ok (mkRegexp (relaxedRe a u) true).
Proof.
  intros H. destruct (split_wellFormed _ _ H) as (a & u & Hs & Ha & Hu).
  rewrite (Relaxed_spec _ _ Hs Ha Hu). eauto.
Qed.

Lemma Iter_last (R : nat -> nat -> Prop) n i j :
  Iter R (S n) i j -> exists k, Iter R n i k /\ R k j.
Proof.
  intros H. replace (S n) with (n + 1) in H by lia. apply Iter_split in H.
  destruct H as (k & Hn & m & Hr & <-). now exists k.
Qed.

Lemma Matches_class U text re i j :
  match re with CharClass _ _ _ => True | _ => False end ->
  Matches U text re i j -> Step text (inClass U re) i j.
Proof. destruct re; try contradiction. intros _ H. exact H. Qed.

Lemma Matches_lit U text a i j :
  Matches U text (lit a) i j -> j = S i /\ at_ text i = Some (chr a).
Proof.
  cbn [Matches lit]. intros (-> & c & Hc & Hm). split; [reflexivity |].
  unfold litMatch in Hm. cbn [andb] in Hm. rewrite orb_false_r in Hm.
  apply N.eqb_eq in Hm. now subst.
Qed.

(** A path continuation ends with a rune of the end-of-segment class or
    with the closing delimiter of a balanced pair. *)
Lemma pathCont_last U text i j :
  Matches U text pathContRe i j ->
  exists c, before text j = Some c /\ closesPath U c = true.
Proof.
  unfold pathContRe. cbn [Matches]. intros (n & Hn).
  apply Iter_last in Hn. destruct Hn as (k & _ & m & _ & Hm).
  assert (Hwell : forall o c p, Matches U text (well (lit o) (lit c)) p j ->
            before text j = Some (chr c)).
  { intros o c p. unfold well. cbn [Matches]. intros (p1 & _ & p2 & _ & Hc).
    apply Matches_lit in Hc. destruct Hc as [-> Hc]. exact Hc. }
  unfold closesPath.
  destruct Hm as [Hm | [Hm | [Hm | Hm]]].
  - apply Hwell in Hm. exists (chr ")"). split; [exact Hm |].
    rewrite N.eqb_refl. now rewrite orb_true_r.
  - apply Hwell in Hm. exists (chr "]"). split; [exact Hm |].
    rewrite N.eqb_refl. now rewrite orb_true_r.
  - apply Hwell in Hm. exists (chr "}"). split; [exact Hm |].
    rewrite N.eqb_refl. now rewrite orb_true_r.
  - apply Matches_class in Hm; [| exact I].
    destruct Hm as (-> & c & Hc & Hin). exists c. split; [exact Hc |].
    now rewrite Hin.
Qed.

(** C2: on a URL inside parentheses that itself holds a balanced pair of
    parentheses, [Strict] and [Relaxed] report exactly the URL with its
    inner pair. *)
Theorem C2_balanced_inner_parentheses (U : UnicodeTables) (tlds pseudo : list string) :
  wellFormed tlds pseudo = true ->
  (re <- Strict ;;
   FindAllString U re "See (https://en.wikipedia.org/wiki/Foo_(bar)) today")
  = Ok ["https://en.wikipedia.org/wiki/Foo_(bar)"] /\
  (re <- Relaxed tlds pseudo ;;
   FindAllString U re "See (https://en.wikipedia.org/wiki/Foo_(bar)) today")
  = Ok ["https://en.wikipedia.org/wiki/Foo_(bar)"].
Proof.
  intros H. split.
  - rewrite Strict_spec. vm_compute. reflexivity.
  - destruct (Relaxed_wellFormed _ _ H) as (a & u & ->). vm_compute. reflexivity.
Qed.

Lemma C2_witness :
  wellFormed Examples.tlds Examples.pseudo = true /\
  (re <- Strict ;;
   FindAllString Examples.unicode re "See (https://en.wikipedia.org/wiki/Foo_(bar)) today")
  = Ok ["https://en.wikipedia.org/wiki/Foo_(bar)"] /\
  (re <- Relaxed Examples.tlds Examples.pseudo ;;
   FindAllString Examples.unicode re "See (https://en.wikipedia.org/wiki/Foo_(bar)) today")
  = Ok ["https://en.wikipedia.org/wiki/Foo_(bar)"].
Proof.
  split; [reflexivity |].
  apply (@C2_balanced_inner_parentheses Examples.unicode Examples.tlds Examples.pseudo).
  reflexivity.
Defined.

(** C3: on a URL followed by the period that ends the sentence, the match
    of [Strict] and of [Relaxed] ends before the period.  Its last rune,
    [m], is in the end-of-segment class and the period is not; and on
    every text a match of the strict expression ends with a rune of that
    class or with the closing delimiter of a balanced pair, never with a
    period. *)
Theorem C3_trailing_period (U : UnicodeTables) (tlds pseudo : list string) :
  wellFormed tlds pseudo = true ->
  (re <- Strict ;; FindAllString U re "visit https://example.com.")
  = Ok ["https://example.com"] /\
  (re <- Relaxed tlds pseudo ;; FindAllString U re "visit https://example.com.")
  = Ok ["https://example.com"] /\
  inClass U endICharRe (chr "m") = true /\
  closesPath U (chr ".") = false /\
  (forall text i j, Matches U text strictRe i j ->
     exists c, before text j = Some c /\ closesPath U c = true).
Proof.
  intros H. split; [| split; [| split; [| split]]].
  - rewrite Strict_spec. vm_compute. reflexivity.
  - destruct (Relaxed_wellFormed _ _ H) as (a & u & ->). vm_compute. reflexivity.
  - vm_compute. reflexivity.
  - vm_compute. reflexivity.
  - intros text i j. unfold strictRe. cbn [Matches]. intros (k & _ & Hp).
    now apply pathCont_last in Hp.
Qed.

Lemma C3_witness :
  wellFormed Examples.tlds Examples.pseudo = true /\
  (re <- Relaxed Examples.tlds Examples.pseudo ;;
   FindAllString Examples.unicode re "visit https://example.com.")
  = Ok ["https://example.com"].
Proof.
  split; [reflexivity |].
  apply (@C3_trailing_period Examples.unicode Examples.tlds Examples.pseudo).
  reflexivity.
Defined.

(** C6: [StrictMatchingScheme] hands the error of the compilation to the
    caller, without an expression; on the malformed ["not(avalidexpr"] the
    error is the missing closing parenthesis.  On [AnyScheme] it succeeds
    and the expression matches ["foobar://x"]. *)
Theorem C6_StrictMatchingScheme (U : UnicodeTables) :
  StrictMatchingScheme "not(avalidexpr" = Err ErrMissingParen /\
  (forall exp e,
     Compile ("(?i)(?:" ++ exp ++ ")(?-i)" ++ pathCont) = Err e ->
     StrictMatchingScheme exp = Err e) /\
  (exists re, StrictMatchingScheme AnyScheme = Ok re /\
              MatchString U re "foobar://x" = true /\
              FindAllString U re "foobar://x" = Ok ["foobar://x"]).
Proof.
  split; [| split].
  - vm_compute. reflexivity.
  - intros exp e H. unfold StrictMatchingScheme. now rewrite H.
  - destruct (StrictMatchingScheme AnyScheme) as [re |] eqn:E;
      [| vm_compute in E; discriminate].
    exists re. split; [reflexivity |].
    assert (Hre : Ok re = StrictMatchingScheme AnyScheme) by now rewrite E.
    vm_compute in Hre. injection Hre as ->. split; vm_compute; reflexivity.
Qed.

(** C10: a scheme name reaches the expression through [QuoteMeta], and a
    quoted string parses to the literal string: the scheme part of the
    strict expression is an alternation of literal strings (matched without
    regard to case), which match rune by rune.  The plus sign of
    ["coap+tcp"] stands for itself only: ["coap+tcp://x"] is matched and
    ["coapttcp://x"] is not. *)
Theorem C10_scheme_names_are_literals (U : UnicodeTables) :
  (forall s, ValidString s = true ->
     Parse (QuoteMeta s) = Ok (literalRe false (runes s))) /\
  Strict
  = Ok (mkRegexp
          (Concat
             (Alternate
                (Concat (Alternate (anyOfRe true (map runes Schemes))
                           (anyOfRe true (map runes SchemesUnofficial)))
                   (literalRe true (runes "://")))
                (Concat (anyOfRe true (map runes SchemesNoAuthority))
                   (Literal true (chr ":"))))
             pathContRe) true) /\
  (forall text ls i j,
     ls <> [] -> Matches U text (anyOfRe true ls) i j ->
     exists x, In x ls /\ j = i + List.length x /\
       forall k, k < List.length x ->
         exists c, at_ text (i + k) = Some c /\ litMatch U true (nth k x 0%N) c = true) /\
  (forall c, litMatch U true (chr "+") c = true -> c = chr "+") /\
  In "coap+tcp" Schemes /\
  (re <- Strict ;; FindAllString U re "coap+tcp://x") = Ok ["coap+tcp://x"] /\
  (re <- Strict ;; FindAllString U re "coapttcp://x") = Ok [].
Proof.
  split; [exact Parse_QuoteMeta |]. split; [exact Strict_spec |].
  split; [| split; [| split; [| split]]].
  - intros text ls i j Hne H. apply Matches_anyOfRe in H; [| exact Hne].
    destruct H as (x & Hx & H). apply Matches_literalRe in H. destruct H as [Hj Hall].
    exists x. auto.
  - intros c H. unfold litMatch in H. cbn in H. rewrite orb_false_r in H.
    now apply N.eqb_eq in H.
  - vm_compute. tauto.
  - rewrite Strict_spec. vm_compute. reflexivity.
  - rewrite Strict_spec. vm_compute. reflexivity.
Qed.

(** C5, as stated, fails: on ["1.2.3.4/http://foo"] the match that [Strict]
    reports, the span of ["http://foo"], is not among the matches of
    [Relaxed], which reports the whole text as one match. *)
Lemma C5_counterexample :
  ~ (forall s ms mr,
       (re <- Strict ;; FindAllStringIndex Examples.unicode re s) = Ok ms ->
       (re <- Relaxed Examples.tlds Examples.pseudo ;;
        FindAllStringIndex Examples.unicode re s) = Ok mr ->
       incl ms mr).
Proof.
  intros H.
  assert (E1 : (re <- Strict ;; FindAllStringIndex Examples.unicode re "1.2.3.4/http://foo")
               = Ok [(8, 18)]) by (vm_compute; reflexivity).
  assert (E2 : (re <- Relaxed Examples.tlds Examples.pseudo ;;
                FindAllStringIndex Examples.unicode re "1.2.3.4/http://foo")
               = Ok [(0, 18)]) by (vm_compute; reflexivity).
  pose proof (H "1.2.3.4/http://foo" [(8, 18)] [(0, 18)]) as H1.
  pose proof (H1 E1) as H2. pose proof (H2 E2) as H3.
  specialize (H3 (8, 18) (or_introl eq_refl)).
  destruct H3 as [H3 | []]. discriminate.
Qed.

(** The literal ["com"] at the end of ["example.com"]. *)
Lemma example_com U a u :
  In (runes "com") a ->
  Matches U (runes "example.com") (relaxedRe a u) 0 11.
Proof.
  intros Hin. unfold relaxedRe, webURLRe, hostNameRe, siteRe, tldsRe. cbn [Matches].
  right. left. exists 11. split.
  - left. exists 8. split.
    + apply ends_single; [vm_compute; lia |]. vm_compute. now left.
    + right. left. exists 11. split.
      * apply Matches_anyOfRe; [intros ->; contradiction |].
        exists (runes "com"). split; [exact Hin |].
        apply ends_single; [vm_compute; lia |]. vm_compute. now left.
      * split; reflexivity.
  - exists 11. split.
    + unfold portRe. cbn [Matches]. now left.
    + unfold pathOptRe. cbn [Matches]. now left.
Qed.

(** C5, amended: every match of the expression of [Strict] is a match of
    the expression of [Relaxed], and at every position the longest match of
    [Relaxed] reaches at least as far as that of [Strict].  [Strict] reports
    nothing on ["example.com"]; [Relaxed] reports the whole of it when
    ["com"] is among the top-level domains its expression is built from. *)
Theorem C5_relaxed_includes_strict (U : UnicodeTables) (tlds pseudo : list string) :
  wellFormed tlds pseudo = true ->
  exists rs rr,
    Strict = Ok rs /\ Relaxed tlds pseudo = Ok rr /\
    (forall text i j,
       Matches U text (prog rs) i j -> Matches U text (prog rr) i j) /\
    (forall text i e,
       i <= List.length text -> longestAt U text (prog rs) i = Some e ->
       exists e', longestAt U text (prog rr) i = Some e' /\ e <= e') /\
    FindAllString U rs "example.com" = Ok [] /\
    (forall a u, split tlds = Ok (a, u) -> In "com" (a ++ pseudo) ->
       FindAllString U rr "example.com" = Ok ["example.com"]).
Proof.
  intros H. destruct (split_wellFormed _ _ H) as (a & u & Hs & Ha & Hu).
  exists (mkRegexp strictRe true),
         (mkRegexp (relaxedRe (map runes (a ++ pseudo)) (map runes u)) true).
  split; [exact Strict_spec |]. split; [exact (Relaxed_spec _ _ Hs Ha Hu) |].
  cbn [prog].
  assert (Hincl : forall text i j, Matches U text strictRe i j ->
            Matches U text (relaxedRe (map runes (a ++ pseudo)) (map runes u)) i j).
  { intros text i j Hm. unfold relaxedRe. cbn [Matches]. now left. }
  split; [exact Hincl |]. split; [| split].
  - intros text i e Hi Hl. apply longestAt_Some in Hl; [| exact Hi].
    destruct Hl as [Hm _]. apply Hincl in Hm.
    now apply longestAt_exists.
  - vm_compute. reflexivity.
  - intros a' u' Hs' Hin. rewrite Hs in Hs'. injection Hs' as <- <-.
    apply FindAllString_whole; [reflexivity | discriminate |].
    cbn [prog]. change (List.length (runes "example.com")) with 11.
    apply example_com. now apply in_map.
Qed.

Lemma C5_witness :
  wellFormed Examples.tlds Examples.pseudo = true /\
  exists rs rr,
    Strict = Ok rs /\ Relaxed Examples.tlds Examples.pseudo = Ok rr /\
    FindAllString Examples.unicode rs "example.com" = Ok [] /\
    FindAllString Examples.unicode rr "example.com" = Ok ["example.com"].
Proof.
  split; [reflexivity |].
  destruct (@C5_relaxed_includes_strict Examples.unicode Examples.tlds Examples.pseudo
              eq_refl) as (rs & rr & H1 & H2 & _ & _ & H3 & H4).
  exists rs, rr. split; [exact H1 |]. split; [exact H2 |]. split; [exact H3 |].
  apply (H4 (firstn 4 Examples.tlds) (skipn 4 Examples.tlds)).
  - reflexivity.
  - now left.
Defined.


Section OrderFacts.

Variable U : UnicodeTables.

Lemma Matches_permutation text l l' i j :
  Permutation l l' -> l <> [] ->
  Matches U text (mkAlternate l) i j <-> Matches U text (mkAlternate l') i j.
Proof.
  intros P Hne.
  assert (Hne' : l' <> []).
  { intros ->. apply Permutation_sym, Permutation_nil in P. contradiction. }
  rewrite !Matches_mkAlternate by assumption. split; intros (r & Hin & H); exists r; split; auto.
  - now apply (Permutation_in _ P).
  - now apply (Permutation_in _ (Permutation_sym P)).
Qed.

End OrderFacts.

(** C4: the expression of [Relaxed] is the alternation of three trees (the
    strict grammar, the bare web address, the bare e-mail address), and
    the matcher is in longest-match mode.  For any order of the three
    alternatives the matches are the same, the longest match at every
    position is the same, namely the furthest end that any of the three
    reaches, and the spans reported on every text are the same.  On the
    sample tables the expression string with its alternatives in any of the
    six orders parses to the alternation of the trees in that order. *)
Theorem C4_order_of_alternatives (U : UnicodeTables) (tlds pseudo : list string) :
  wellFormed tlds pseudo = true ->
  exists ascii unicode,
    split tlds = Ok (ascii, unicode) /\
    relaxedOf (ascii ++ pseudo) unicode
    = String.concat "|" (alternatives (ascii ++ pseudo) unicode) /\
    let a := map runes (ascii ++ pseudo) in
    let u := map runes unicode in
    Relaxed tlds pseudo = Ok (mkRegexp (mkAlternate (trees a u)) true) /\
    (forall l, Permutation l (trees a u) ->
       (forall text i j,
          Matches U text (mkAlternate l) i j <-> Matches U text (mkAlternate (trees a u)) i j) /\
       (forall text i, i <= List.length text ->
          longestAt U text (mkAlternate l) i = longestAt U text (mkAlternate (trees a u)) i) /\
       (forall text i e, i <= List.length text ->
          longestAt U text (mkAlternate l) i = Some e <->
          (exists r, In r (trees a u) /\ Matches U text r i e) /\
          (forall r e', In r (trees a u) -> Matches U text r i e' -> e' <= e)) /\
       (forall s,
          FindAllStringIndex U (mkRegexp (mkAlternate l) true) s
          = FindAllStringIndex U (mkRegexp (mkAlternate (trees a u)) true) s)) /\
    map (fun ss => Parse (String.concat "|" ss))
      (orders (alternatives ["com"; "net"; "local"] ["рф"]))
    = map (fun rs => Ok (mkAlternate rs))
        (orders (trees (map runes ["com"; "net"; "local"]) (map runes ["рф"]))).
Proof.
  intros H. destruct (split_wellFormed _ _ H) as (ascii & unicode & Hs & Ha & Hu).
  exists ascii, unicode. split; [exact Hs |]. split; [reflexivity |].
  cbv zeta. split; [exact (Relaxed_spec _ _ Hs Ha Hu) |]. split.
  - intros l P.
    set (t := trees (map runes (ascii ++ pseudo)) (map runes unicode)) in *.
    assert (Hne : l <> []).
    { intros ->. apply Permutation_nil in P. discriminate. }
    assert (Eq : forall text i j,
              Matches U text (mkAlternate l) i j <-> Matches U text (mkAlternate t) i j).
    { intros text i j. now apply Matches_permutation. }
    split; [exact Eq |]. split; [| split].
    + intros text i Hi. apply longestAt_ext; [exact Hi |]. intros j. apply Eq.
    + intros text i e Hi. rewrite (@longestAt_Some U text (mkAlternate l) i e Hi). split.
      * intros [Hm Hmax]. split.
        -- apply Eq in Hm. apply Matches_mkAlternate in Hm; [exact Hm | discriminate].
        -- intros r e' Hin Hr. apply Hmax, Eq. apply Matches_mkAlternate; [discriminate |].
           now exists r.
      * intros [Hm Hmax]. split.
        -- apply Eq. apply Matches_mkAlternate; [discriminate | exact Hm].
        -- intros e' He'. apply Eq in He'. apply Matches_mkAlternate in He'; [| discriminate].
           destruct He' as (r & Hin & Hr). now apply (Hmax r).
    + intros s. unfold FindAllStringIndex. cbn [longest prog]. do 2 f_equal.
      apply allMatches_ext. intros i j. apply Eq.
  - vm_compute. reflexivity.
Qed.

Lemma C4_witness :
  wellFormed Examples.tlds Examples.pseudo = true /\
  exists l,
    Relaxed Examples.tlds Examples.pseudo = Ok (mkRegexp (mkAlternate (rev l)) true) /\
    forall s,
      FindAllStringIndex Examples.unicode (mkRegexp (mkAlternate l) true) s
      = FindAllStringIndex Examples.unicode (mkRegexp (mkAlternate (rev l)) true) s.
Proof.
  split; [reflexivity |].
  destruct (@C4_order_of_alternatives Examples.unicode Examples.tlds Examples.pseudo eq_refl)
    as (ascii & unicode & _ & _ & Hr & Hp & _).
  cbv zeta in Hr, Hp.
  exists (rev (trees (map runes (ascii ++ Examples.pseudo)) (map runes unicode))).
  rewrite rev_involutive. split; [exact Hr |].
  apply (Hp (rev (trees (map runes (ascii ++ Examples.pseudo)) (map runes unicode)))).
  apply Permutation_sym, Permutation_rev.
Defined.


(** * The partition of the table *)

Lemma firstNonASCII_ascii l : forall i,
  forallb asciiFirst l = true -> firstNonASCII l i = Ok None.
Proof.
  induction l as [| s l IH]; intros i H; [reflexivity |].
  cbn [forallb] in H. apply andb_prop in H. destruct H as [Hs Hl].
  cbn [firstNonASCII]. unfold asciiFirst in Hs.
  destruct (firstByte s) as [b | e]; [| discriminate]. cbn [bind].
  apply N.ltb_lt in Hs. replace (RuneSelf <=? b)%N with false
    by (symmetry; apply N.leb_gt; exact Hs).
  apply IH, Hl.
Qed.

Lemma firstNonASCII_first pre s rest b : forall i,
  forallb asciiFirst pre = true -> firstByte s = Ok b -> (RuneSelf <= b)%N ->
  firstNonASCII (pre ++ s :: rest) i = Ok (Some (i + List.length pre)).
Proof.
  induction pre as [| p pre IH]; intros i H Hs Hb.
  - cbn [app firstNonASCII List.length]. rewrite Hs. cbn [bind].
    apply N.leb_le in Hb. rewrite Hb, Nat.add_0_r. reflexivity.
  - cbn [forallb] in H. apply andb_prop in H. destruct H as [Hp Hl].
    cbn [app firstNonASCII List.length]. unfold asciiFirst in Hp.
    destruct (firstByte p) as [c | e]; [| discriminate]. cbn [bind].
    apply N.ltb_lt in Hp. replace (RuneSelf <=? c)%N with false
      by (symmetry; apply N.leb_gt; exact Hp).
    rewrite (IH (S i) Hl Hs Hb) by assumption. do 2 f_equal. lia.
Qed.

Lemma split_first pre s rest b :
  forallb asciiFirst pre = true -> firstByte s = Ok b -> (RuneSelf <= b)%N ->
  split (pre ++ s :: rest) = Ok (pre, s :: rest).
Proof.
  intros H Hs Hb. unfold split. rewrite (@firstNonASCII_first pre s rest b 0 H Hs Hb).
  cbn [bind Nat.add]. rewrite firstn_app, firstn_all, Nat.sub_diag. cbn [firstn].
  rewrite app_nil_r, skipn_app, skipn_all, Nat.sub_diag. reflexivity.
Qed.

(** Successive calls see the tables in the first two arrays of the store;
    what a call adds comes behind them. *)
Lemma calls_store tlds pseudo a u n : forall extra,
  split tlds = Ok (a, u) ->
  exists extra',
    calls tlds pseudo n (tlds :: pseudo :: extra)
    = Ok (List.repeat (relaxedOf (a ++ pseudo) u) n, tlds :: pseudo :: extra').
Proof.
  induction n as [| n IH]; intros extra Hs; [now exists extra |].
  cbn [calls]. rewrite relaxedExp_store, Hs. cbn [bind].
  destruct pseudo as [| p ps].
  - destruct (IH extra Hs) as [extra' E]. rewrite E. cbn [bind]. now exists extra'.
  - change ((tlds :: (p :: ps) :: extra) ++ [a ++ p :: ps])%list
      with (tlds :: (p :: ps) :: (extra ++ [a ++ p :: ps]))%list.
    destruct (IH (extra ++ [a ++ p :: ps])%list Hs) as [extra' E]. rewrite E. cbn [bind].
    now exists extra'.
Qed.

(** C8, as stated, fails in its last part: with a table whose entries all
    start with an ASCII byte the expression has an empty list of other
    top-level domains, whose alternation matches the empty string; the
    empty string after ["example."] is matched as a top-level domain,
    though it is no punycode label and no entry of the pseudo domains. *)
Lemma C8_counterexample :
  ~ (forall (U : UnicodeTables) tlds pseudo a u text i j,
       forallb asciiFirst tlds = true ->
       split tlds = Ok (a, u) ->
       Matches U text (tldsRe (map runes (a ++ pseudo)) (map runes u)) i j ->
       Matches U text punycodeRe i j \/
       exists p, In p pseudo /\ Matches U text (literalRe true (runes p)) i j).
Proof.
  intros H.
  pose proof (H Examples.unicode ["com"; "net"] ["local"] [] [] (runes "example.zzz") 8 8
                eq_refl eq_refl) as H1.
  destruct H1 as [H1 | (p & [<- | []] & H1)].
  - cbn [tldsRe map app Matches anyOfRe mkAlternate]. right. right. reflexivity.
  - unfold punycodeRe in H1. cbn [Matches] in H1.
    destruct H1 as (k & [_ (c & Hc & Hx)] & _). vm_compute in Hc.
    injection Hc as <-. vm_compute in Hx. discriminate.
  - apply Matches_literalRe in H1. destruct H1 as [H1 _]. vm_compute in H1. discriminate.
Qed.

(** C8, amended: when every entry of the table starts with an ASCII byte,
    the loop assigns neither slice, the expression is assembled from the
    pseudo domains and an empty list, and what it matches as top-level
    domain is a punycode label, a pseudo domain before a word boundary, or
    the empty string.  An entry goes to one side or the other by the first
    byte of the first entry that is not ASCII there: the entries before it
    make the ASCII list, whatever their other bytes, and all entries from
    it on the other list. *)
Theorem C8_all_first_bytes_ascii (U : UnicodeTables) (tlds pseudo : list string) :
  forallb asciiFirst tlds = true ->
  partition tlds (tables tlds pseudo) (List.length tlds) 0 = Ok (nilSlice, nilSlice) /\
  split tlds = Ok ([], []) /\
  (exists h1, relaxedExp tlds pseudo (tables tlds pseudo) = Ok (relaxedOf pseudo [], h1)) /\
  (allValid pseudo = true ->
   Relaxed tlds pseudo = Ok (mkRegexp (relaxedRe (map runes pseudo) []) true)) /\
  (forall text i j,
     Matches U text (tldsRe (map runes pseudo) []) i j <->
     Matches U text punycodeRe i j \/
     (exists p, In p pseudo /\ Matches U text (literalRe true (runes p)) i j /\
                wordBoundary text j = true) \/
     j = i) /\
  (forall pre s rest b,
     forallb asciiFirst pre = true -> firstByte s = Ok b -> (RuneSelf <= b)%N ->
     split (pre ++ s :: rest) = Ok (pre, s :: rest)) /\
  split ["com"; "café"; "рф"; "net"] = Ok (["com"; "café"], ["рф"; "net"]) /\
  (re <- Relaxed ["com"; "net"] ["local"] ;;
   FindAllString U re "example.com printer.local") = Ok ["example."; "printer.local"].
Proof.
  intros H.
  assert (Hs : split tlds = Ok ([], [])).
  { unfold split. rewrite (@firstNonASCII_ascii tlds 0 H). reflexivity. }
  split.
  { unfold tables. rewrite (@partition_spec tlds pseudo [] tlds 0 eq_refl).
    rewrite (@firstNonASCII_ascii tlds 0 H). reflexivity. }
  split; [exact Hs |]. split.
  { rewrite relaxedExp_spec, Hs. cbn [bind app]. eauto. }
  split.
  { intros Hv. apply (@Relaxed_spec tlds pseudo [] [] Hs Hv eq_refl). }
  split.
  { intros text i j. unfold tldsRe. cbn [Matches map]. rewrite Matches_anyOfRe_nil.
    split.
    - intros [Hp | [(k & Ha & [-> Hb]) | He]]; [now left | | now right; right].
      destruct pseudo as [| p ps].
      + apply Matches_anyOfRe_nil in Ha. subst k. now right; right.
      + apply Matches_anyOfRe in Ha; [| discriminate].
        destruct Ha as (x & Hin & Hx). apply in_map_iff in Hin.
        destruct Hin as (q & <- & Hq). right. left. exists q. auto.
    - intros [Hp | [(p & Hin & Hm & Hb) | He]]; [now left | | now right; right].
      right. left. exists j. split; [| now split].
      apply Matches_anyOfRe; [destruct pseudo; [contradiction | discriminate] |].
      exists (runes p). split; [now apply in_map | exact Hm]. }
  split; [exact split_first |]. split; [reflexivity |].
  vm_compute. reflexivity.
Qed.

Lemma C8_witness :
  forallb asciiFirst ["com"; "net"] = true /\
  partition ["com"; "net"] (tables ["com"; "net"] ["local"]) 2 0 = Ok (nilSlice, nilSlice) /\
  Relaxed ["com"; "net"] ["local"] = Ok (mkRegexp (relaxedRe [runes "local"] []) true).
Proof.
  split; [reflexivity |].
  destruct (@C8_all_first_bytes_ascii Examples.unicode ["com"; "net"] ["local"] eq_refl)
    as (H1 & _ & _ & H2 & _).
  split; [exact H1 | exact (H2 eq_refl)].
Defined.

(** C9: a call of [relaxedExp] on the tables leaves the arrays of [TLDs]
    and [PseudoTLDs] as they were.  The slice of the ASCII entries has its
    capacity cut to its length, so that [append] has no room in the array
    of [TLDs] and puts the pseudo domains, behind a copy of the ASCII
    entries, into a fresh array.  Any number of calls in a row return the
    same expression.  (A slice with spare capacity is a different matter:
    [append] writes into the shared array.) *)
Theorem C9_tables_unchanged (tlds pseudo : list string) (e : string) (h1 : store) :
  relaxedExp tlds pseudo (tables tlds pseudo) = Ok (e, h1) ->
  (array h1 (TLDs tlds) = tlds /\ contents h1 (TLDs tlds) = tlds) /\
  (array h1 (PseudoTLDs pseudo) = pseudo /\ contents h1 (PseudoTLDs pseudo) = pseudo) /\
  (exists a u,
     partition tlds (tables tlds pseudo) (List.length tlds) 0 = Ok (a, u) /\
     cap a = len a /\
     (pseudo <> [] ->
      append (tables tlds pseudo) a pseudo
      = ((tables tlds pseudo ++ [contents (tables tlds pseudo) a ++ pseudo])%list,
         mkSlice 2 0 (len a + List.length pseudo) (len a + List.length pseudo)))) /\
  (forall n, exists hn,
     calls tlds pseudo n (tables tlds pseudo) = Ok (List.repeat e n, hn) /\
     array hn (TLDs tlds) = tlds /\ array hn (PseudoTLDs pseudo) = pseudo) /\
  append (tables ["com"; "рф"] ["local"]) (mkSlice 0 0 1 2) ["local"]
  = ([["com"; "local"]; ["local"]], mkSlice 0 0 2 2).
Proof.
  intros E. rewrite relaxedExp_spec in E.
  destruct (split tlds) as [[a u] | err] eqn:Hs; [| discriminate].
  cbn [bind] in E.
  assert (He : e = relaxedOf (a ++ pseudo) u) by (injection E as E1 E2; now symmetry).
  assert (Hh : exists extra, h1 = tlds :: pseudo :: extra).
  { injection E as _ E. subst h1. destruct pseudo; [now exists [] | eexists; reflexivity]. }
  destruct Hh as [extra ->].
  split.
  { split; [reflexivity |]. unfold contents, TLDs, array. cbn [len off arr nth skipn].
    apply firstn_all. }
  split.
  { split; [reflexivity |]. unfold contents, PseudoTLDs, array. cbn [len off arr nth skipn].
    apply firstn_all. }
  split.
  { pose proof (@partition_spec tlds pseudo [] tlds 0 eq_refl) as P.
    fold (tables tlds pseudo) in P.
    unfold split in Hs.
    destruct (firstNonASCII tlds 0) as [[k |] | err] eqn:Ek; [| | discriminate];
      cbn [bind] in P, Hs.
    - eexists _, _. split; [exact P |]. split; [reflexivity |].
      intros Hne. unfold append. cbn [len cap arr off].
      replace (k + List.length pseudo <=? k)%nat with false; [reflexivity |].
      symmetry. apply Nat.leb_gt. destruct pseudo; [contradiction | simpl; lia].
    - eexists _, _. split; [exact P |]. split; [reflexivity |].
      intros Hne. unfold append, nilSlice. cbn [len cap arr off Nat.add].
      destruct pseudo; [contradiction | reflexivity]. }
  split.
  { intros n. destruct (@calls_store tlds pseudo a u n [] Hs) as [extra' C].
    exists (tlds :: pseudo :: extra'). subst e. split; [exact C |]. split; reflexivity. }
  reflexivity.
Qed.

Lemma C9_witness :
  exists e h1,
    relaxedExp Examples.tlds Examples.pseudo (tables Examples.tlds Examples.pseudo)
    = Ok (e, h1) /\
    array h1 (TLDs Examples.tlds) = Examples.tlds /\
    array h1 (PseudoTLDs Examples.pseudo) = Examples.pseudo /\
    exists h3, calls Examples.tlds Examples.pseudo 3
                 (tables Examples.tlds Examples.pseudo) = Ok ([e; e; e], h3).
Proof.
  assert (E : relaxedExp Examples.tlds Examples.pseudo
                (tables Examples.tlds Examples.pseudo)
              = Ok (relaxedOf (firstn 4 Examples.tlds ++ Examples.pseudo)
                      (skipn 4 Examples.tlds),
                    (tables Examples.tlds Examples.pseudo
                     ++ [firstn 4 Examples.tlds ++ Examples.pseudo])%list))
    by (vm_compute; reflexivity).
  destruct (@C9_tables_unchanged _ _ _ _ E) as ((H1 & _) & (H2 & _) & _ & H3 & _).
  eexists _, _. split; [exact E |].
  split; [exact H1 |]. split; [exact H2 |].
  destruct (H3 3) as (h3 & H4 & _). exists h3. exact H4.
Defined.

(** * Further properties of the grammar and of the matchers *)

Import Decimal Analysis Host Brackets Scheme Mail Tld.

(** * Windows of a text *)

Lemma firstn_plus (A : Type) (a b : nat) : forall l : list A,
  firstn (a + b) l = (firstn a l ++ firstn b (skipn a l))%list.
Proof.
  induction a as [| a IH]; intros l; [reflexivity |].
  destruct l as [| x l]; cbn [Nat.add firstn skipn app].
  - now rewrite firstn_nil.
  - now rewrite IH.
Qed.

Lemma app_same_length (A : Type) (l1 : list A) : forall l1' l2 l2',
  List.length l1 = List.length l1' ->
  (l1 ++ l2 = l1' ++ l2')%list -> l1 = l1' /\ l2 = l2'.
Proof.
  induction l1 as [| x l1 IH]; intros [| y l1'] l2 l2' Hl E; try discriminate.
  - now split.
  - cbn [app] in E. injection E as -> E. injection Hl as Hl.
    destruct (IH _ _ _ Hl E) as [-> ->]. now split.
Qed.

Section WindowFacts.
Variable text : list rune.

Lemma window_length i j :
  j <= List.length text -> List.length (window text i j) = j - i.
Proof.
  intros H. unfold window. rewrite length_firstn, length_skipn. unfold rune in *. lia.
Qed.

Lemma window_nth i j k :
  k < j - i -> nth_error (window text i j) k = nth_error text (i + k).
Proof.
  intros H. unfold window. rewrite nth_error_firstn.
  destruct (Nat.ltb_spec k (j - i)) as [_ | Hge]; [| lia].
  apply nth_error_skipn.
Qed.

Lemma window_eq l : forall i,
  (forall k, k < List.length l -> nth_error text (i + k) = nth_error l k) ->
  window text i (i + List.length l) = l.
Proof.
  intros i H.
  assert (Hb : i + List.length l <= List.length text \/ l = []).
  { destruct l as [| c l'] eqn:El; [now right | left]. rewrite <- El in *.
    assert (Hlast : nth_error text (i + (List.length l - 1)) <> None).
    { rewrite H by (subst l; simpl; lia). apply nth_error_Some. subst l. simpl. lia. }
    apply nth_error_Some in Hlast. subst l. simpl in *. unfold rune in *. lia. }
  destruct Hb as [Hb | ->].
  - apply nth_error_ext. intros n.
    destruct (Nat.lt_ge_cases n (List.length l)) as [Hn | Hn].
    + rewrite window_nth by lia. now apply H.
    + transitivity (@None rune); [| symmetry]; apply nth_error_None; [| exact Hn].
      rewrite window_length by exact Hb. lia.
  - unfold window. cbn [List.length]. rewrite Nat.add_0_r, Nat.sub_diag. reflexivity.
Qed.

Lemma window_split i k j :
  i <= k <= j -> window text i j = (window text i k ++ window text k j)%list.
Proof.
  intros H. unfold window.
  replace (j - i) with ((k - i) + (j - k)) by lia.
  rewrite firstn_plus. f_equal. rewrite skipn_skipn.
  replace (k - i + i) with k by lia. reflexivity.
Qed.

Lemma window_nil i : window text i i = [].
Proof. unfold window. rewrite Nat.sub_diag. reflexivity. Qed.

(** A window that starts with the list [l] has [l] as its first window. *)
Lemma window_app i j l1 l2 :
  i <= j <= List.length text ->
  window text i j = (l1 ++ l2)%list ->
  window text i (i + List.length l1) = l1 /\
  window text (i + List.length l1) j = l2 /\
  i + List.length l1 <= j.
Proof.
  intros H E.
  assert (Hlen : List.length l1 + List.length l2 = j - i).
  { rewrite <- length_app, <- E. apply window_length. lia. }
  assert (E1 : window text i j
               = (window text i (i + List.length l1)
                  ++ window text (i + List.length l1) j)%list)
    by (apply window_split; lia).
  rewrite E in E1. apply app_same_length in E1.
  - destruct E1 as [E1 E2]. rewrite <- E1, <- E2. repeat split. lia.
  - rewrite window_length by lia. lia.
Qed.

End WindowFacts.

(** * Decimal octets *)

Lemma digit_range c : (48 <= c <= 57)%N -> digit c = Some (N.to_nat (c - 48)).
Proof.
  intros [H1 H2]. unfold digit.
  apply N.leb_le in H1, H2. now rewrite H1, H2.
Qed.

Lemma digit_Some c d : digit c = Some d -> (48 <= c <= 57)%N /\ d = N.to_nat (c - 48).
Proof.
  unfold digit. destruct (N.leb_spec 48 c), (N.leb_spec c 57); cbn [andb];
    try discriminate. intros E. injection E as <-. now repeat split.
Qed.

Lemma valueFrom_bound l : forall acc v,
  valueFrom acc l = Some v -> acc * 10 ^ List.length l <= v.
Proof.
  induction l as [| c l IH]; intros acc v; cbn [valueFrom List.length].
  - intros E. injection E as <-. simpl. lia.
  - destruct (digit c) as [d |]; [| discriminate]. intros E. apply IH in E.
    rewrite Nat.pow_succ_r'. nia.
Qed.

Section OctetFacts.
Variable U : UnicodeTables.

Lemma class_range lo hi c :
  classMatch U false false [Range lo hi] c = true <-> (lo <= c <= hi)%N.
Proof.
  unfold classMatch, itemMatch. cbn [existsb negated inSet andb orb xorb].
  destruct (N.leb_spec lo c), (N.leb_spec c hi); cbn [andb orb xorb];
    split; intros; try lia; try discriminate; reflexivity.
Qed.

Lemma lit_exact r c : litMatch U false r c = true <-> c = r.
Proof.
  unfold litMatch. cbn [andb]. rewrite orb_false_r. apply N.eqb_eq.
Qed.

(** The strings of the five alternatives of [octet]. *)
Lemma isOctet_cases l :
  isOctet l = true <->
  (exists a, l = [a] /\ (48 <= a <= 57)%N) \/
  (exists a b, l = [a; b] /\ (49 <= a <= 57)%N /\ (48 <= b <= 57)%N) \/
  (exists a b c, l = [a; b; c] /\ (48 <= b <= 57)%N /\ (48 <= c <= 57)%N /\
     (a = 49 \/ (a = 50 /\ b <= 52) \/ (a = 50 /\ b = 53 /\ c <= 53))%N).
Proof.
  split.
  - unfold isOctet. intros H. apply andb_prop in H. destruct H as [Hc Hv].
    destruct (decimalValue l) as [v |] eqn:Ev; [| discriminate].
    apply Nat.leb_le in Hv.
    destruct l as [| a [| b [| c [| d l]]]];
      [discriminate | cbn [decimalValue valueFrom] in Ev .. |].
    + left. exists a. destruct (digit a) as [da |] eqn:Ea; [| discriminate].
      apply digit_Some in Ea. intuition.
    + right. left. exists a, b.
      destruct (digit a) as [da |] eqn:Ea; [| discriminate].
      destruct (digit b) as [db |] eqn:Eb; [| discriminate].
      apply digit_Some in Ea, Eb. cbn [canonical] in Hc.
      apply negb_true_iff, N.eqb_neq in Hc. split; [reflexivity |]. lia.
    + right. right. exists a, b, c.
      destruct (digit a) as [da |] eqn:Ea; [| discriminate].
      destruct (digit b) as [db |] eqn:Eb; [| discriminate].
      destruct (digit c) as [dc |] eqn:Ec; [| discriminate].
      apply digit_Some in Ea, Eb, Ec. cbn [canonical] in Hc.
      apply negb_true_iff, N.eqb_neq in Hc. injection Ev as Ev.
      split; [reflexivity |]. lia.
    + exfalso.
      change (match digit a with
              | Some da => valueFrom (10 * 0 + da) (b :: c :: d :: l)
              | None => None
              end = Some v) in Ev.
      destruct (digit a) as [da |] eqn:Ea; [| discriminate].
      apply digit_Some in Ea. cbn [canonical] in Hc.
      apply negb_true_iff, N.eqb_neq in Hc.
      apply valueFrom_bound in Ev. cbn [List.length] in Ev.
      assert (Hp : 1 <= 10 ^ List.length l) by (apply Nat.neq_0_lt_0, Nat.pow_nonzero; lia).
      rewrite !Nat.pow_succ_r' in Ev. nia.
  - unfold isOctet.
    intros [(a & -> & Ha) | [(a & b & -> & Ha & Hb) | (a & b & c & -> & Hb & Hc & Ha)]];
      cbn [canonical decimalValue valueFrom].
    + rewrite (@digit_range a) by lia. cbn [andb]. apply Nat.leb_le. lia.
    + rewrite (@digit_range a), (@digit_range b) by lia.
      apply andb_true_intro. split.
      * apply negb_true_iff, N.eqb_neq. lia.
      * apply Nat.leb_le. lia.
    + rewrite (@digit_range a), (@digit_range b), (@digit_range c) by lia.
      apply andb_true_intro. split.
      * apply negb_true_iff, N.eqb_neq. lia.
      * apply Nat.leb_le. lia.
Qed.

Variable text : list rune.

Lemma window1 i a : at_ text i = Some a -> window text i (S i) = [a].
Proof.
  intros H. replace (S i) with (i + List.length [a]) by (simpl; lia).
  apply window_eq. intros [| k] Hk; [| simpl in Hk; lia].
  now rewrite Nat.add_0_r.
Qed.

Lemma window2 i a b :
  at_ text i = Some a -> at_ text (S i) = Some b -> window text i (S (S i)) = [a; b].
Proof.
  intros Ha Hb. replace (S (S i)) with (i + List.length [a; b]) by (simpl; lia).
  apply window_eq. intros [| [| k]] Hk; [| | simpl in Hk; lia].
  - now rewrite Nat.add_0_r.
  - now rewrite Nat.add_1_r.
Qed.

Lemma window3 i a b c :
  at_ text i = Some a -> at_ text (S i) = Some b -> at_ text (S (S i)) = Some c ->
  window text i (S (S (S i))) = [a; b; c].
Proof.
  intros Ha Hb Hc. replace (S (S (S i))) with (i + List.length [a; b; c]) by (simpl; lia).
  apply window_eq. intros [| [| [| k]]] Hk; [| | | simpl in Hk; lia].
  - now rewrite Nat.add_0_r.
  - now rewrite Nat.add_1_r.
  - now replace (i + 2) with (S (S i)) by lia.
Qed.

Lemma at_bound i a : at_ text i = Some a -> i < List.length text.
Proof. intros H. apply nth_error_Some. unfold at_ in H. congruence. Qed.

Lemma window_at i j l k :
  window text i j = l -> j <= List.length text -> k < List.length l ->
  at_ text (i + k) = nth_error l k.
Proof.
  intros E Hj Hk. subst l. rewrite window_length in Hk by exact Hj.
  symmetry. now apply window_nth.
Qed.

(** [octet] matches the decimal octets. *)
Lemma octet_spec i j :
  Matches U text octetRe i j <->
  i <= j <= List.length text /\ isOctet (window text i j) = true.
Proof.
  rewrite isOctet_cases. unfold octetRe. cbn [Matches]. unfold Step. split.
  - intros [H | [H | [H | [H | H]]]].
    + destruct H as (k1 & (-> & a & Ha & Pa) & k2 & (-> & b & Hb & Pb) & -> & c & Hc & Pc).
      apply lit_exact in Pa, Pb. apply class_range in Pc. subst a b.
      pose proof (at_bound _ Hc). split; [lia |]. right. right.
      exists 50%N, 53%N, c. split; [now apply window3 |]. lia.
    + destruct H as (k1 & (-> & a & Ha & Pa) & k2 & (-> & b & Hb & Pb) & -> & c & Hc & Pc).
      apply lit_exact in Pa. apply class_range in Pb, Pc. subst a.
      pose proof (at_bound _ Hc). split; [lia |]. right. right.
      exists 50%N, b, c. split; [now apply window3 |]. lia.
    + destruct H as (k1 & (-> & a & Ha & Pa) & n & Hn1 & Hn2 & Hi).
      assert (n = 2) by lia. subst n. cbn [Iter] in Hi.
      destruct Hi as (k2 & (-> & b & Hb & Pb) & k3 & (-> & c & Hc & Pc) & <-).
      apply lit_exact in Pa. apply class_range in Pb, Pc. subst a.
      pose proof (at_bound _ Hc). split; [lia |]. right. right.
      exists 49%N, b, c. split; [now apply window3 |]. lia.
    + destruct H as (k1 & (-> & a & Ha & Pa) & -> & b & Hb & Pb).
      apply class_range in Pa, Pb.
      pose proof (at_bound _ Hb). split; [lia |]. right. left.
      exists a, b. split; [now apply window2 |]. lia.
    + destruct H as (-> & a & Ha & Pa). apply class_range in Pa.
      pose proof (at_bound _ Ha). split; [lia |]. left.
      exists a. split; [now apply window1 |]. lia.
  - intros [Hb [(a & E & Ha) | [(a & b & E & Ha & Hbb) | (a & b & c & E & Hbb & Hc & Ha)]]].
    + assert (Hl : j - i = 1) by (rewrite <- (@window_length text i j) by lia; rewrite E; reflexivity).
      pose proof (@window_at i j _ 0 E (proj2 Hb) ltac:(simpl; lia)) as A0.
      rewrite Nat.add_0_r in A0. cbn [nth_error] in A0.
      right. right. right. right. split; [lia |]. exists a. split; [exact A0 |].
      apply class_range. lia.
    + assert (Hl : j - i = 2) by (rewrite <- (@window_length text i j) by lia; rewrite E; reflexivity).
      pose proof (@window_at i j _ 0 E (proj2 Hb) ltac:(simpl; lia)) as A0.
      pose proof (@window_at i j _ 1 E (proj2 Hb) ltac:(simpl; lia)) as A1.
      rewrite Nat.add_0_r in A0. rewrite Nat.add_1_r in A1. cbn [nth_error] in A0, A1.
      right. right. right. left. exists (S i). split.
      * split; [reflexivity |]. exists a. split; [exact A0 |]. apply class_range. lia.
      * split; [lia |]. exists b. split; [exact A1 |]. apply class_range. lia.
    + assert (Hl : j - i = 3) by (rewrite <- (@window_length text i j) by lia; rewrite E; reflexivity).
      pose proof (@window_at i j _ 0 E (proj2 Hb) ltac:(simpl; lia)) as A0.
      pose proof (@window_at i j _ 1 E (proj2 Hb) ltac:(simpl; lia)) as A1.
      pose proof (@window_at i j _ 2 E (proj2 Hb) ltac:(simpl; lia)) as A2.
      rewrite Nat.add_0_r in A0. rewrite Nat.add_1_r in A1.
      replace (i + 2) with (S (S i)) in A2 by lia. cbn [nth_error] in A0, A1, A2.
      assert (Hj : j = S (S (S i))) by lia.
      destruct Ha as [-> | [[-> Hle] | (-> & -> & Hle)]].
      * right. right. left. exists (S i). split.
        -- split; [reflexivity |]. exists 49%N. split; [exact A0 |]. now apply lit_exact.
        -- exists 2. split; [lia |]. split; [lia |]. cbn [Iter].
           exists (S (S i)). split.
           ++ split; [reflexivity |]. exists b. split; [exact A1 |]. apply class_range. lia.
           ++ exists j. split; [| reflexivity].
              split; [exact Hj |]. exists c. split; [exact A2 |]. apply class_range. lia.
      * right. left. exists (S i). split.
        -- split; [reflexivity |]. exists 50%N. split; [exact A0 |]. now apply lit_exact.
        -- exists (S (S i)). split.
           ++ split; [reflexivity |]. exists b. split; [exact A1 |]. apply class_range. lia.
           ++ split; [exact Hj |]. exists c. split; [exact A2 |]. apply class_range. lia.
      * left. exists (S i). split.
        -- split; [reflexivity |]. exists 50%N. split; [exact A0 |]. now apply lit_exact.
        -- exists (S (S i)). split.
           ++ split; [reflexivity |]. exists 53%N. split; [exact A1 |]. now apply lit_exact.
           ++ split; [exact Hj |]. exists c. split; [exact A2 |]. apply class_range. lia.
Qed.

End OctetFacts.

Lemma valueFrom_digits l : forall acc v n c,
  valueFrom acc l = Some v -> nth_error l n = Some c -> digit c <> None.
Proof.
  induction l as [| x l IH]; intros acc v n c E Hn; [destruct n; discriminate |].
  cbn [valueFrom] in E. destruct (digit x) as [d |] eqn:Ex; [| discriminate].
  destruct n as [| n]; cbn [nth_error] in Hn.
  - injection Hn as <-. congruence.
  - exact (IH _ _ _ _ E Hn).
Qed.

Lemma decimalValue_digits l v n c :
  decimalValue l = Some v -> nth_error l n = Some c -> digit c <> None.
Proof.
  destruct l as [| x l]; [discriminate |]. apply valueFrom_digits.
Qed.

Section AddressFacts.
Variable U : UnicodeTables.
Variable text : list rune.

Lemma Matches_lit_iff a i j :
  Matches U text (lit a) i j <-> j = S i /\ at_ text i = Some (chr a).
Proof.
  split; [apply Matches_lit |]. intros [-> H]. cbn [Matches lit].
  split; [reflexivity |]. exists (chr a). split; [exact H |]. now apply lit_exact.
Qed.

Lemma window_dot i j rest :
  i <= j <= List.length text ->
  window text i j = dot :: rest ->
  at_ text i = Some dot /\ window text (S i) j = rest /\ S i <= j.
Proof.
  intros Hb E. change (dot :: rest) with ([dot] ++ rest)%list in E.
  apply window_app in E; [| exact Hb]. cbn [List.length] in E.
  rewrite Nat.add_1_r in E. destruct E as (E1 & E2 & E3).
  split; [| now split].
  pose proof (@window_at text i (S i) _ 0 E1 ltac:(lia) ltac:(simpl; lia)) as A.
  now rewrite Nat.add_0_r in A.
Qed.

(** [ipv4Addr] matches four decimal octets with dots between them, between
    two word boundaries. *)
Lemma ipv4_spec i j :
  Matches U text ipv4Re i j <->
  wordBoundary text i = true /\ wordBoundary text j = true /\
  i <= j <= List.length text /\
  exists a b c d,
    window text i j = dotted a b c d /\
    isOctet a = true /\ isOctet b = true /\ isOctet c = true /\ isOctet d = true.
Proof.
  unfold ipv4Re. cbn [Matches]. unfold Guard. split.
  - intros (k0 & [-> B0] & k1 & O1 & k2 & D1 & k3 & O2 & k4 & D2 & k5 & O3 & k6 & D3
            & k7 & O4 & -> & B1).
    apply Matches_lit_iff in D1, D2, D3.
    destruct D1 as [-> D1], D2 as [-> D2], D3 as [-> D3].
    apply octet_spec in O1, O2, O3, O4.
    destruct O1 as [L1 O1], O2 as [L2 O2], O3 as [L3 O3], O4 as [L4 O4].
    split; [exact B0 |]. split; [exact B1 |]. split; [lia |].
    exists (window text i k1), (window text (S k1) k3), (window text (S k3) k5),
      (window text (S k5) k7).
    split; [| auto]. unfold dotted.
    rewrite (@window_split text i k1 k7) by lia. f_equal.
    rewrite (@window_split text k1 (S k1) k7), (@window1 text k1 dot D1) by lia.
    cbn [app]. f_equal.
    rewrite (@window_split text (S k1) k3 k7) by lia. f_equal.
    rewrite (@window_split text k3 (S k3) k7), (@window1 text k3 dot D2) by lia.
    cbn [app]. f_equal.
    rewrite (@window_split text (S k3) k5 k7) by lia. f_equal.
    rewrite (@window_split text k5 (S k5) k7), (@window1 text k5 dot D3) by lia.
    reflexivity.
  - intros (B0 & B1 & Hb & a & b & c & d & E & Oa & Ob & Oc & Od). unfold dotted in E.
    apply window_app in E; [| exact Hb]. destruct E as (Ea & E & La).
    apply window_dot in E; [| lia]. destruct E as (D1 & E & L1).
    apply window_app in E; [| lia]. destruct E as (Eb & E & Lb).
    apply window_dot in E; [| lia]. destruct E as (D2 & E & L2).
    apply window_app in E; [| lia]. destruct E as (Ec & E & Lc).
    apply window_dot in E; [| lia]. destruct E as (D3 & E & L3).
    exists i. split; [now split |].
    eexists. split; [apply octet_spec; rewrite Ea; split; [lia | exact Oa] |].
    eexists. split; [apply Matches_lit_iff; split; [reflexivity | exact D1] |].
    eexists. split; [apply octet_spec; rewrite Eb; split; [lia | exact Ob] |].
    eexists. split; [apply Matches_lit_iff; split; [reflexivity | exact D2] |].
    eexists. split; [apply octet_spec; rewrite Ec; split; [lia | exact Oc] |].
    eexists. split; [apply Matches_lit_iff; split; [reflexivity | exact D3] |].
    exists j. split; [apply octet_spec; rewrite E; split; [lia | exact Od] |].
    now split.
Qed.

(** The digits an address begins with denote a number up to 255. *)
Lemma ipv4_first_octet i j k v :
  Matches U text ipv4Re i j ->
  i < k <= List.length text ->
  decimalValue (window text i k) = Some v ->
  match at_ text k with Some c => digit c = None | None => True end ->
  v <= 255.
Proof.
  intros H Hk Ev Hend. apply ipv4_spec in H.
  destruct H as (_ & _ & Hb & a & b & c & d & E & Oa & _). unfold dotted in E.
  apply window_app in E; [| exact Hb]. destruct E as (Ea & E & La).
  apply window_dot in E; [| lia]. destruct E as (D1 & _ & L1).
  set (k0 := i + List.length a) in *.
  unfold isOctet in Oa. apply andb_prop in Oa. destruct Oa as [_ Oa].
  destruct (decimalValue a) as [va |] eqn:Eva; [| discriminate].
  apply Nat.leb_le in Oa.
  destruct (Nat.lt_trichotomy k k0) as [Hlt | [-> | Hgt]].
  - exfalso.
    pose proof (@window_at text i k0 a (k - i) Ea ltac:(lia) ltac:(unfold k0 in *; lia)) as A.
    replace (i + (k - i)) with k in A by lia.
    destruct (at_ text k) as [x |] eqn:Ex.
    + symmetry in A. apply (@decimalValue_digits _ _ _ _ Eva) in A. contradiction.
    + pose proof (proj1 (nth_error_None text k) Ex). lia.
  - rewrite Ea in Ev. congruence.
  - exfalso.
    assert (A : nth_error (window text i k) (k0 - i) = Some dot).
    { rewrite window_nth by lia. replace (i + (k0 - i)) with k0 by lia. exact D1. }
    apply (@decimalValue_digits _ _ _ _ Ev) in A. apply A. reflexivity.
Qed.

End AddressFacts.


(** X1: [octet] matches the canonical decimals of the numbers 0 to 255 and
    nothing else: one to three digits, no zero in front of another digit,
    a value of at most 255. *)
Theorem octet_matches_decimal_octets (U : UnicodeTables) :
  Parse octet = Ok octetRe /\
  forall text i j,
    Matches U text octetRe i j <->
    i <= j <= List.length text /\ isOctet (window text i j) = true.
Proof.
  split; [vm_compute; reflexivity |]. intros text i j. apply octet_spec.
Qed.

(** X2: [ipv4Addr] matches four decimal octets with single dots between
    them, with a word boundary on either side, and nothing else. *)
Theorem ipv4Addr_matches_dotted_octets (U : UnicodeTables) :
  Parse ipv4Addr = Ok ipv4Re /\
  forall text i j,
    Matches U text ipv4Re i j <->
    wordBoundary text i = true /\ wordBoundary text j = true /\
    i <= j <= List.length text /\
    exists a b c d,
      window text i j = dotted a b c d /\
      isOctet a = true /\ isOctet b = true /\ isOctet c = true /\ isOctet d = true.
Proof.
  split; [exact Parse_ipv4Addr |]. intros text i j. apply ipv4_spec.
Qed.

(** X3: no match of [ipv4Addr] begins with digits that denote a number
    above 255: where a match starts, the digits up to the first rune that
    is no digit have a value of at most 255. *)
Theorem ipv4Addr_first_number (U : UnicodeTables) (text : list rune) (i j k v : nat) :
  Matches U text ipv4Re i j ->
  i < k <= List.length text ->
  decimalValue (window text i k) = Some v ->
  match at_ text k with Some c => digit c = None | None => True end ->
  v <= 255.
Proof. apply ipv4_first_octet. Qed.

Lemma ipv4Addr_first_number_witness :
  exists v, decimalValue (window (runes "10.0.0.255") 0 2) = Some v /\ v <= 255.
Proof.
  exists 10. split; [reflexivity |].
  apply (@ipv4Addr_first_number Examples.unicode (runes "10.0.0.255") 0 10 2 10).
  - apply ends_single; [vm_compute; lia |]. vm_compute. now left.
  - vm_compute. lia.
  - reflexivity.
  - reflexivity.
Defined.


(** * Static bounds on matches *)

Section AnalysisFacts.
Variable U : UnicodeTables.
Variable text : list rune.

Lemma Iter_min (R : nat -> nat -> Prop) m n : forall i j,
  (forall a b, R a b -> a + m <= b) -> Iter R n i j -> i + n * m <= j.
Proof.
  induction n as [| n IH]; cbn [Iter]; intros i j HR.
  - intros ->. lia.
  - intros (k & Hk & Hn). apply HR in Hk. apply IH in Hn; [lia | exact HR].
Qed.

(** A match has at least [minLen] runes. *)
Lemma minLen_sound re : forall i j, Matches U text re i j -> i + minLen re <= j.
Proof.
  induction re; cbn [Matches minLen]; intros i j;
    try (intros [-> _]; lia); try (unfold Step; intros [-> _]; lia).
  - intros ->. lia.
  - apply IHre.
  - intros (n & Hn). apply (@Iter_min _ 0 n i j) in Hn; [lia |].
    intros a b Hab. apply IHre in Hab. lia.
  - intros (n & Hn). apply (@Iter_min _ (minLen re) (S n) i j IHre) in Hn. simpl in Hn. lia.
  - intros [-> | H]; [lia |]. apply IHre in H. lia.
  - intros (n & Hmin & _ & Hn). apply (@Iter_min _ (minLen re) n i j IHre) in Hn. nia.
  - intros (k & Ha & Hb). apply IHre1 in Ha. apply IHre2 in Hb. lia.
  - intros [H | H]; [apply IHre1 in H | apply IHre2 in H]; lia.
Qed.

Lemma Iter_taken (R : nat -> nat -> Prop) re n : forall i j,
  (forall a b, R a b -> taken U text re a b) -> Iter R n i j -> taken U text re i j.
Proof.
  induction n as [| n IH]; cbn [Iter]; intros i j HR.
  - intros -> k Hk. lia.
  - intros (m & Hm & Hn) k Hk. destruct (Nat.lt_ge_cases k m) as [Hlt | Hge].
    + apply (HR _ _ Hm). lia.
    + apply (IH _ _ HR Hn). lia.
Qed.

(** Every rune of a match is taken by a literal or a class of the
    expression. *)
Lemma accepts_sound re : forall i j, Matches U text re i j -> taken U text re i j.
Proof.
  induction re; cbn [Matches]; intros i j;
    try (intros [-> _] k Hk; lia);
    try (unfold Step; intros (-> & c & Hc & Hp) k Hk;
         assert (k = i) by lia; subst k; exists c; split; [exact Hc | exact Hp]).
  - intros -> k Hk. lia.
  - apply IHre.
  - intros (n & Hn). exact (@Iter_taken _ re n i j IHre Hn).
  - intros (n & Hn). exact (@Iter_taken _ re (S n) i j IHre Hn).
  - intros [-> | H]; [intros k Hk; lia |]. exact (IHre _ _ H).
  - intros (n & _ & _ & Hn). exact (@Iter_taken _ re n i j IHre Hn).
  - intros (m & Ha & Hb) k Hk. destruct (Nat.lt_ge_cases k m) as [Hlt | Hge].
    + destruct (IHre1 _ _ Ha k ltac:(lia)) as (c & Hc & Hp). exists c.
      split; [exact Hc |]. cbn [accepts]. now rewrite Hp.
    + destruct (IHre2 _ _ Hb k ltac:(lia)) as (c & Hc & Hp). exists c.
      split; [exact Hc |]. cbn [accepts]. rewrite Hp. apply orb_true_r.
  - intros [H | H] k Hk.
    + destruct (IHre1 _ _ H k Hk) as (c & Hc & Hp). exists c.
      split; [exact Hc |]. cbn [accepts]. now rewrite Hp.
    + destruct (IHre2 _ _ H k Hk) as (c & Hc & Hp). exists c.
      split; [exact Hc |]. cbn [accepts]. rewrite Hp. apply orb_true_r.
Qed.

End AnalysisFacts.

Lemma unsafe_In c : unsafe c = true -> In c unsafeRunes.
Proof.
  unfold unsafe, unsafeRunes. intros H. apply in_or_app.
  destruct (N.leb_spec c 32) as [Hle | Hgt].
  - left. apply in_map_iff. exists (N.to_nat c). split; [apply N2Nat.id |].
    apply in_seq. lia.
  - right. cbn [orb] in H.
    repeat match type of H with
    | (_ || (c =? ?n)%N)%bool = true =>
      apply orb_prop in H; destruct H as [H | H];
      [| apply N.eqb_eq in H; subst c; cbn; tauto]
    end.
    apply N.eqb_eq in H. subst c. cbn. tauto.
Qed.

Lemma unsafe_spec c :
  unsafe c = true ->
  (c <= 32 \/ c = 34 \/ c = 60 \/ c = 62 \/ c = 94 \/ c = 96 \/ c = 124 \/ c = 127)%N.
Proof.
  unfold unsafe. intros H.
  repeat (apply orb_prop in H; destruct H as [H | H]);
    try (apply N.leb_le in H); try (apply N.eqb_eq in H); lia.
Qed.

(** * Byte offsets of matches *)

Lemma decode_width_pos a : Forall (fun x => 1 <= snd x) (decode a).
Proof.
  remember (List.length a) as n eqn:En. revert a En.
  induction n as [n IH] using lt_wf_ind. intros a ->.
  destruct a as [| s0 t0]; [constructor |].
  assert (H0 : Forall (fun x => 1 <= snd x) (decode t0))
    by (apply (IH (List.length t0)); [simpl; lia | reflexivity]).
  assert (R : Forall (fun x : rune * nat => 1 <= snd x) ((RuneError, 1) :: decode t0))
    by (constructor; [simpl; lia | exact H0]).
  cbn [decode].
  destruct (s0 <? RuneSelf)%N; [constructor; [simpl; lia | exact H0] |].
  destruct (lead s0) as [[[sz lo] hi] |]; [| exact R].
  destruct t0 as [| s1 t1]; [exact R |].
  destruct (negb ((lo <=? s1)%N && (s1 <=? hi)%N)); [exact R |].
  assert (H1 : Forall (fun x => 1 <= snd x) (decode t1))
    by (apply (IH (List.length t1)); [simpl; lia | reflexivity]).
  destruct (sz <=? 2)%nat; [constructor; [simpl; lia | exact H1] |].
  destruct t1 as [| s2 t2]; [exact R |].
  destruct (negb (cont s2)); [exact R |].
  assert (H2 : Forall (fun x => 1 <= snd x) (decode t2))
    by (apply (IH (List.length t2)); [simpl; lia | reflexivity]).
  destruct (sz <=? 3)%nat; [constructor; [simpl; lia | exact H2] |].
  destruct t2 as [| s3 t3]; [exact R |].
  destruct (negb (cont s3)); [exact R |].
  assert (H3 : Forall (fun x => 1 <= snd x) (decode t3))
    by (apply (IH (List.length t3)); [simpl; lia | reflexivity]).
  constructor; [simpl; lia | exact H3].
Qed.

Lemma offset_lt ws : forall b e,
  Forall (fun w => 1 <= w) ws -> b < e <= List.length ws -> offset ws b < offset ws e.
Proof.
  unfold offset. induction ws as [| w ws IH]; intros b e Hw H; [simpl in H; lia |].
  inversion Hw as [| ? ? Hw1 Hw2]; subst.
  destruct e as [| e]; [lia |]. destruct b as [| b].
  - unfold list_sum. cbn [firstn fold_right]. lia.
  - specialize (IH b e Hw2). unfold list_sum in *. cbn [firstn fold_right List.length] in *.
    lia.
Qed.

Lemma offset_le_sum ws e : offset ws e <= list_sum ws.
Proof.
  destruct (Nat.le_gt_cases e (List.length ws)) as [H | H].
  - rewrite <- offset_all. now apply offset_mono.
  - unfold offset. rewrite firstn_all2 by lia. lia.
Qed.

(** The spans [FindAllStringIndex] reports are the byte offsets of longest
    matches. *)
Lemma reported_spans U re s ms b e :
  FindAllStringIndex U re s = Ok ms -> In (b, e) ms ->
  exists i j,
    b = offset (map snd (decode (bytes s))) i /\
    e = offset (map snd (decode (bytes s))) j /\
    i <= List.length (runes s) /\
    longestAt U (runes s) (prog re) i = Some j.
Proof.
  unfold FindAllStringIndex. destruct (longest re); [| discriminate].
  cbv zeta. fold (runes s).
  set (l := allMatches U (runes s) (prog re) (2 + List.length (runes s)) 0 None).
  intros E Hin. injection E as <-.
  apply in_map_iff in Hin. destruct Hin as ([i j] & Eq & Hin).
  cbn [fst snd] in Eq. injection Eq as <- <-.
  unfold l in Hin. apply allMatches_In in Hin. destruct Hin as [Hi Hl].
  exists i, j. repeat split; [lia | exact Hl].
Qed.

(** Where every match of the expression has a rune, every reported span
    has a byte, and lies inside the string. *)
Lemma reported_nonempty U re s ms b e :
  (forall text i j, Matches U text (prog re) i j -> i < j) ->
  FindAllStringIndex U re s = Ok ms -> In (b, e) ms ->
  b < e <= String.length s.
Proof.
  intros Hne E Hin. destruct (@reported_spans U re s ms b e E Hin) as (i & j & -> & -> & Hi & Hl).
  apply longestAt_Some in Hl; [| exact Hi]. destruct Hl as [Hm _].
  pose proof (Hne (runes s) i j Hm) as Hij.
  pose proof (@Matches_bounded U (runes s) (prog re) i j Hi Hm) as Hj.
  split.
  - apply offset_lt.
    + apply Forall_map. apply decode_width_pos.
    + rewrite length_map. unfold runes in Hj. rewrite length_map in Hj. lia.
  - rewrite <- bytes_length, <- decode_widths. apply offset_le_sum.
Qed.

(** * What the matches of [Strict] and [Relaxed] are made of *)

Lemma minLen_relaxedRe a u : 2 <= minLen (relaxedRe a u).
Proof.
  unfold relaxedRe, webURLRe, emailRe, hostNameRe, siteRe, ipAddrRe. cbn [minLen].
  change (minLen strictRe) with 5. change (minLen domainRe) with 2.
  change (minLen ipv4Re) with 7. change (minLen ipv6Re) with 3.
  change (minLen localPartRe) with 1. change (minLen atRe) with 1.
  lia.
Qed.

Lemma accepts_literalRe U fold x c :
  accepts U (literalRe fold x) c = existsb (fun r => litMatch U fold r c) x.
Proof.
  unfold literalRe. induction x as [| r x IH]; [reflexivity |].
  destruct x as [| r' x].
  - cbn [map mkConcat accepts existsb]. now rewrite orb_false_r.
  - change (accepts U (mkConcat (map (Literal fold) (r :: r' :: x))) c)
      with (litMatch U fold r c || accepts U (mkConcat (map (Literal fold) (r' :: x))) c)%bool.
    rewrite IH. reflexivity.
Qed.

Lemma accepts_anyOfRe U fold ls c :
  accepts U (anyOfRe fold ls) c
  = existsb (fun x => existsb (fun r => litMatch U fold r c) x) ls.
Proof.
  unfold anyOfRe. induction ls as [| x ls IH]; [reflexivity |].
  destruct ls as [| x' ls].
  - cbn [map mkAlternate existsb]. now rewrite accepts_literalRe, orb_false_r.
  - change (accepts U (mkAlternate (map (literalRe fold) (x :: x' :: ls))) c)
      with (accepts U (literalRe fold x) c
            || accepts U (mkAlternate (map (literalRe fold) (x' :: ls))) c)%bool.
    rewrite IH, accepts_literalRe. reflexivity.
Qed.

(** An unsafe rune is matched by itself only, with or without case
    folding. *)
Lemma litMatch_unsafe U fold r c :
  unsafe c = true -> litMatch U fold r c = true -> c = r.
Proof.
  intros Hu H. apply unsafe_spec in Hu. unfold litMatch in H.
  apply orb_prop in H. destruct H as [H | H]; [now apply N.eqb_eq in H |].
  apply andb_prop in H. destruct H as [_ H]. exfalso.
  apply existsb_exists in H. destruct H as (x & Hx & E). apply N.eqb_eq in E. subst x.
  unfold foldOrbit, isUpper, isLower, KelvinSign, LongS, RuneSelf in Hx.
  repeat match type of Hx with
  | context [(?a <=? ?b)%N] => destruct (N.leb_spec a b)
  | context [(?a <? ?b)%N] => destruct (N.ltb_spec a b)
  | context [(?a =? ?b)%N] => destruct (N.eqb_spec a b)
  end; cbn [andb orb] in Hx;
  repeat match type of Hx with
  | In _ (_ :: _) => destruct Hx as [Hx | Hx]
  | In _ [] => destruct Hx
  end; cbn in *; try lia.
  all: apply filter_In in Hx; destruct Hx as [_ Hx]; apply N.leb_le in Hx; cbn in *; lia.
Qed.

Lemma accepts_entries U ls c :
  unsafe c = true ->
  accepts U (anyOfRe true (map runes ls)) c = true ->
  exists x, In x ls /\ In c (runes x).
Proof.
  intros Hu H. rewrite accepts_anyOfRe in H. apply existsb_exists in H.
  destruct H as (x & Hx & H). apply in_map_iff in Hx. destruct Hx as (y & <- & Hy).
  apply existsb_exists in H. destruct H as (r & Hr & H).
  apply (@litMatch_unsafe U true r c Hu) in H. subst r. now exists y.
Qed.

Lemma accepts_relaxedRe U a u c :
  accepts U (relaxedRe a u) c
  = (accepts U (relaxedRe [] []) c || accepts U (anyOfRe true a) c
     || accepts U (anyOfRe true u) c)%bool.
Proof.
  unfold relaxedRe, webURLRe, emailRe, hostNameRe, siteRe, tldsRe. cbn [accepts].
  change (accepts U (anyOfRe true []) c) with false.
  btauto.
Qed.

Lemma safeEntries_In l x r :
  safeEntries l = true -> In x l -> In r (runes x) -> unsafe r = false.
Proof.
  unfold safeEntries. intros H Hx Hr.
  rewrite forallb_forall in H. specialize (H x Hx).
  rewrite forallb_forall in H. specialize (H r Hr). now apply negb_true_iff in H.
Qed.

Lemma split_parts l a u : split l = Ok (a, u) -> incl a l /\ incl u l.
Proof.
  unfold split. destruct (firstNonASCII l 0) as [[k |] | e]; cbn [bind]; [| | discriminate];
    intros E; injection E as <- <-.
  - split; intros x Hx.
    + rewrite <- (firstn_skipn k l). apply in_or_app. now left.
    + rewrite <- (firstn_skipn k l). apply in_or_app. now right.
  - split; intros x [].
Qed.


(** X4: no span that [Strict] or [Relaxed] reports is empty, and every
    span lies inside the string: a match of [Strict] has at least five
    runes, a match of [Relaxed] at least two. *)
Theorem reported_spans_are_nonempty (U : UnicodeTables) (tlds pseudo : list string) :
  wellFormed tlds pseudo = true ->
  exists rs rr,
    Strict = Ok rs /\ Relaxed tlds pseudo = Ok rr /\
    (forall re s ms b e,
       re = rs \/ re = rr ->
       FindAllStringIndex U re s = Ok ms -> In (b, e) ms -> b < e <= String.length s) /\
    (forall text i j, Matches U text (prog rs) i j -> i + 5 <= j) /\
    (forall text i j, Matches U text (prog rr) i j -> i + 2 <= j).
Proof.
  intros Hw. destruct (split_wellFormed _ _ Hw) as (a & u & Hsp & Ha & Hu).
  exists (mkRegexp strictRe true),
         (mkRegexp (relaxedRe (map runes (a ++ pseudo)) (map runes u)) true).
  split; [exact Strict_spec |]. split; [exact (Relaxed_spec _ _ Hsp Ha Hu) |].
  cbn [prog].
  assert (H5 : forall text i j, Matches U text strictRe i j -> i + 5 <= j).
  { intros text i j Hm. apply minLen_sound in Hm. change (minLen strictRe) with 5 in Hm. lia. }
  assert (H2 : forall text i j,
            Matches U text (relaxedRe (map runes (a ++ pseudo)) (map runes u)) i j ->
            i + 2 <= j).
  { intros text i j Hm. apply minLen_sound in Hm.
    pose proof (minLen_relaxedRe (map runes (a ++ pseudo)) (map runes u)). lia. }
  split; [| split; [exact H5 | exact H2]].
  intros re s ms b e Hre E Hin.
  apply (@reported_nonempty U re s ms b e); [| exact E | exact Hin].
  intros text i j Hm. destruct Hre as [-> | ->]; cbn [prog] in Hm.
  - apply H5 in Hm. lia.
  - apply H2 in Hm. lia.
Qed.

Lemma reported_spans_are_nonempty_witness :
  wellFormed Examples.tlds Examples.pseudo = true /\
  exists rs, Strict = Ok rs /\
    forall s ms b e,
      FindAllStringIndex Examples.unicode rs s = Ok ms -> In (b, e) ms ->
      b < e <= String.length s.
Proof.
  split; [reflexivity |].
  destruct (@reported_spans_are_nonempty Examples.unicode Examples.tlds Examples.pseudo
              eq_refl) as (rs & rr & Hs & _ & H & _).
  exists rs. split; [exact Hs |].
  intros s ms b e. apply H. now left.
Defined.


(** X5: no match of [Strict] holds a control character, a space, a double
    quote, an angle bracket, a caret, a backquote or a vertical bar; nor
    does a match of [Relaxed], when no entry of the tables holds one. *)
Theorem matches_hold_no_unsafe_rune (U : UnicodeTables) (tlds pseudo : list string) :
  wellFormed tlds pseudo = true ->
  exists rs rr,
    Strict = Ok rs /\ Relaxed tlds pseudo = Ok rr /\
    (forall text i j k c,
       Matches U text (prog rs) i j -> i <= k < j -> at_ text k = Some c ->
       unsafe c = false) /\
    (safeEntries (tlds ++ pseudo) = true ->
     forall text i j k c,
       Matches U text (prog rr) i j -> i <= k < j -> at_ text k = Some c ->
       unsafe c = false).
Proof.
  intros Hw. destruct (split_wellFormed _ _ Hw) as (a & u & Hsp & Hva & Hvu).
  exists (mkRegexp strictRe true),
         (mkRegexp (relaxedRe (map runes (a ++ pseudo)) (map runes u)) true).
  split; [exact Strict_spec |]. split; [exact (Relaxed_spec _ _ Hsp Hva Hvu) |].
  cbn [prog].
  assert (G : forall re text i j k c,
            (forall x, unsafe x = true -> accepts U re x = false) ->
            Matches U text re i j -> i <= k < j -> at_ text k = Some c ->
            unsafe c = false).
  { intros re text i j k c Hre Hm Hk Hc. apply accepts_sound in Hm.
    destruct (Hm k Hk) as (c' & Hc' & Ha). rewrite Hc in Hc'. injection Hc' as <-.
    destruct (unsafe c) eqn:Hu; [| reflexivity].
    rewrite (Hre c Hu) in Ha. discriminate. }
  split.
  - intros text i j k c. apply G. intros x Hx. apply unsafe_In in Hx.
    assert (F : forallb (fun c => negb (accepts U strictRe c)) unsafeRunes = true)
      by (vm_compute; reflexivity).
    rewrite forallb_forall in F. apply negb_true_iff. now apply F.
  - intros Hsafe text i j k c. apply G. intros x Hu.
    pose proof (unsafe_In _ Hu) as Hin.
    rewrite accepts_relaxedRe.
    assert (F : forallb (fun c => negb (accepts U (relaxedRe [] []) c)) unsafeRunes = true)
      by (vm_compute; reflexivity).
    rewrite forallb_forall in F. specialize (F x Hin). apply negb_true_iff in F.
    rewrite F. cbn [orb].
    destruct (split_parts _ Hsp) as [Ia Iu].
    apply orb_false_intro.
    + destruct (accepts U (anyOfRe true (map runes (a ++ pseudo))) x) eqn:Ha; [| reflexivity].
      apply (@accepts_entries U (a ++ pseudo) x Hu) in Ha. destruct Ha as (y & Hy & Hcy).
      assert (Hy' : In y (tlds ++ pseudo)).
      { apply in_app_or in Hy. apply in_or_app. destruct Hy; [left; now apply Ia | now right]. }
      rewrite (@safeEntries_In _ y x Hsafe Hy' Hcy) in Hu. discriminate.
    + destruct (accepts U (anyOfRe true (map runes u)) x) eqn:Ha; [| reflexivity].
      apply (@accepts_entries U u x Hu) in Ha. destruct Ha as (y & Hy & Hcy).
      assert (Hy' : In y (tlds ++ pseudo)) by (apply in_or_app; left; now apply Iu).
      rewrite (@safeEntries_In _ y x Hsafe Hy' Hcy) in Hu. discriminate.
Qed.

Lemma matches_hold_no_unsafe_rune_witness :
  wellFormed Examples.tlds Examples.pseudo = true /\
  safeEntries (Examples.tlds ++ Examples.pseudo) = true /\
  exists rr, Relaxed Examples.tlds Examples.pseudo = Ok rr /\
    forall text i j k c,
      Matches Examples.unicode text (prog rr) i j -> i <= k < j -> at_ text k = Some c ->
      unsafe c = false.
Proof.
  split; [reflexivity |]. split; [reflexivity |].
  destruct (@matches_hold_no_unsafe_rune Examples.unicode Examples.tlds Examples.pseudo
              eq_refl) as (rs & rr & _ & Hr & _ & H).
  exists rr. split; [exact Hr |]. exact (H eq_refl).
Defined.


(** * Runs of runes of one class *)

Lemma forallb_same (A : Type) (f g : A -> bool) l :
  (forall x, f x = g x) -> forallb f l = forallb g l.
Proof.
  intros H. induction l as [| x l IH]; [reflexivity |].
  cbn [forallb]. now rewrite H, IH.
Qed.

Section RunFacts.
Variable U : UnicodeTables.
Variable text : list rune.

Lemma window_step i j c :
  at_ text i = Some c -> i < j -> window text i j = c :: window text (S i) j.
Proof.
  intros Hc Hj. rewrite (@window_split text i (S i) j) by lia.
  now rewrite (@window1 text i c Hc).
Qed.

Lemma window_cons_inv i j c l :
  window text i j = c :: l -> at_ text i = Some c /\ i < j /\ window text (S i) j = l.
Proof.
  intros E.
  assert (Hj : i < j).
  { destruct (Nat.lt_ge_cases i j) as [H | H]; [exact H |].
    unfold window in E. replace (j - i) with 0 in E by lia. discriminate. }
  assert (Hc : at_ text i = Some c).
  { pose proof (@window_nth text i j 0 ltac:(lia)) as N. rewrite E, Nat.add_0_r in N.
    symmetry. exact N. }
  split; [exact Hc |]. split; [exact Hj |].
  rewrite (window_step Hc Hj) in E. now injection E.
Qed.

(** [n] steps through runes of a class. *)
Lemma Iter_Step p n : forall i j,
  Iter (Step text p) n i j <->
  j = i + n /\ List.length (window text i j) = n /\ forallb p (window text i j) = true.
Proof.
  induction n as [| n IH]; intros i j; cbn [Iter].
  - split.
    + intros <-. rewrite Nat.add_0_r, window_nil. now repeat split.
    + intros (-> & _). lia.
  - split.
    + intros (k & (-> & c & Hc & Hp) & Hn). apply IH in Hn. destruct Hn as (-> & Hl & Hf).
      rewrite (@window_step i (S i + n) c Hc) by lia. cbn [List.length forallb].
      rewrite Hl, Hp, Hf. repeat split. lia.
    + intros (-> & Hl & Hf).
      destruct (window text i (i + S n)) as [| c l] eqn:E; [discriminate |].
      apply window_cons_inv in E. destruct E as (Hc & _ & E).
      cbn [forallb] in Hf. apply andb_prop in Hf. destruct Hf as [Hp Hf].
      exists (S i). split; [split; [reflexivity | now exists c] |].
      apply IH. rewrite E. split; [lia |]. split; [now injection Hl | exact Hf].
Qed.

Lemma class_digit c : classMatch U false false [Range 48%N 57%N] c = isDigit c.
Proof.
  unfold classMatch, itemMatch, isDigit. cbn [existsb negated inSet andb orb xorb].
  now rewrite !orb_false_r.
Qed.

(** [port] matches nothing, or a colon and any number of digits, none
    included. *)
Lemma port_spec i j :
  Matches U text portRe i j <->
  j = i \/
  (at_ text i = Some (chr ":") /\ i < j /\
   List.length (window text (S i) j) = j - S i /\
   forallb isDigit (window text (S i) j) = true).
Proof.
  unfold portRe. cbn [Matches]. split.
  - intros [-> | (k & Hc & n & Hn)]; [now left | right].
    apply Matches_lit in Hc. destruct Hc as [-> Hc].
    change (Matches U text digitRe) with (Step text (classMatch U false false [Range 48%N 57%N]))
      in Hn.
    apply Iter_Step in Hn. destruct Hn as (-> & Hl & Hf).
    split; [exact Hc |]. split; [lia |]. split; [rewrite Hl; lia |].
    rewrite <- Hf. apply forallb_same. intros c. symmetry. apply class_digit.
  - intros [-> | (Hc & Hj & Hl & Hf)]; [now left | right].
    exists (S i). split.
    + cbn [lit Matches]. split; [reflexivity |]. exists (chr ":").
      split; [exact Hc |]. unfold litMatch. now rewrite N.eqb_refl.
    + exists (j - S i).
      change (Matches U text digitRe) with (Step text (classMatch U false false [Range 48%N 57%N])).
      apply Iter_Step. split; [lia |]. split; [exact Hl |].
      rewrite <- Hf. apply forallb_same. intros c. apply class_digit.
Qed.

(** A literal string, case kept: the window is the string. *)
Lemma literal_exact x : forall i j,
  Matches U text (literalRe false x) i j <-> j = i + List.length x /\ window text i j = x.
Proof.
  unfold literalRe. induction x as [| r x IH]; intros i j.
  - cbn [map mkConcat Matches List.length]. rewrite Nat.add_0_r. split.
    + intros ->. split; [reflexivity | apply window_nil].
    + now intros [-> _].
  - cbn [map]. rewrite Matches_mkConcat_cons. split.
    + intros (k & (-> & c & Hc & Hm) & Hx). apply IH in Hx. destruct Hx as [-> Hx].
      unfold litMatch in Hm. cbn [andb] in Hm. rewrite orb_false_r in Hm.
      apply N.eqb_eq in Hm. subst c. cbn [List.length].
      split; [lia |]. rewrite (@window_step i (S i + List.length x) r Hc) by lia.
      now rewrite Hx.
    + intros [-> E]. apply window_cons_inv in E. destruct E as (Hc & _ & E).
      exists (S i). split.
      * split; [reflexivity |]. exists r. split; [exact Hc |].
        unfold litMatch. now rewrite N.eqb_refl.
      * apply IH. split; [cbn [List.length]; lia | exact E].
Qed.

End RunFacts.

(** The expression of [anyOf] parses to the alternation of the strings. *)
Lemma Parse_anyOf l :
  allValid l = true -> Parse (anyOf l) = Ok (anyOfRe false (map runes l)).
Proof.
  intros H. destruct (Decodes_anyOf l H) as [V R]. unfold Parse. rewrite V, R. cbn [negb].
  rewrite <- (app_nil_r (anyOfRunes (map runes l))), tokens_anyOf.
  change (tokens []) with (@nil Token). unfold start. rewrite run_anyOf.
  reflexivity.
Qed.

Lemma firstNonASCII_Err l : forall i e,
  firstNonASCII l i = Err e <->
  e = ErrIndexOutOfRange /\
  exists k, nth_error l k = Some "" /\ forallb asciiFirst (firstn k l) = true.
Proof.
  induction l as [| s l IH]; intros i e; cbn [firstNonASCII].
  - split; [discriminate |]. intros (_ & k & Hk & _). destruct k; discriminate.
  - destruct s as [| b s].
    + cbn [firstByte bind]. split.
      * intros E. injection E as <-. split; [reflexivity |]. now exists 0.
      * now intros (-> & _).
    + cbn [firstByte bind].
      destruct (RuneSelf <=? N_of_ascii b)%N eqn:Eb.
      * split; [discriminate |]. intros (_ & k & Hk & Hf).
        destruct k as [| k]; [discriminate |].
        cbn [firstn forallb] in Hf. apply andb_prop in Hf. destruct Hf as [Hf _].
        unfold asciiFirst in Hf. cbn [firstByte] in Hf.
        apply N.ltb_lt in Hf. apply N.leb_le in Eb. lia.
      * rewrite IH. split.
        -- intros (-> & k & Hk & Hf). split; [reflexivity |]. exists (S k).
           split; [exact Hk |]. cbn [firstn forallb]. rewrite Hf, andb_true_r.
           unfold asciiFirst. cbn [firstByte]. apply N.ltb_lt. apply N.leb_gt in Eb. exact Eb.
        -- intros (-> & k & Hk & Hf). split; [reflexivity |].
           destruct k as [| k]; [discriminate |]. exists k. split; [exact Hk |].
           cbn [firstn forallb] in Hf. apply andb_prop in Hf. now destruct Hf.
Qed.

(** X6: [port] matches the empty string, or a colon followed by any number
    of decimal digits, none included. *)
Theorem port_matches_colon_and_digits (U : UnicodeTables) :
  Parse port = Ok portRe /\
  forall text i j,
    Matches U text portRe i j <->
    j = i \/
    (at_ text i = Some (chr ":") /\ i < j /\
     List.length (window text (S i) j) = j - S i /\
     forallb isDigit (window text (S i) j) = true).
Proof.
  split; [exact Parse_port |]. intros text i j. apply port_spec.
Qed.

(** X7: [anyOf] of valid strings is an expression that parses to the
    alternation of the strings taken literally, metacharacters included:
    with case kept it matches the windows of the text that are one of the
    strings, and for no string at all it matches the empty string. *)
Theorem anyOf_matches_its_strings (U : UnicodeTables) (l : list string) :
  allValid l = true ->
  Parse (anyOf l) = Ok (anyOfRe false (map runes l)) /\
  anyOf [] = "(?:)" /\
  forall text i j,
    Matches U text (anyOfRe false (map runes l)) i j <->
    match l with
    | [] => j = i
    | _ :: _ =>
      exists s, In s l /\ j = i + List.length (runes s) /\ window text i j = runes s
    end.
Proof.
  intros H. split; [now apply Parse_anyOf |]. split; [reflexivity |].
  intros text i j. destruct l as [| x l']; [apply Matches_anyOfRe_nil |].
  rewrite Matches_anyOfRe by discriminate. split.
  - intros (y & Hy & Hm). apply in_map_iff in Hy. destruct Hy as (s & <- & Hs).
    apply literal_exact in Hm. exists s. tauto.
  - intros (s & Hs & Hj & Hw). exists (runes s). split; [now apply in_map |].
    apply literal_exact. tauto.
Qed.

Lemma anyOf_matches_its_strings_witness :
  anyOf ["a+b"; "c."] = "(?:a\+b|c\.)" /\
  Parse (anyOf ["a+b"; "c."]) = Ok (anyOfRe false (map runes ["a+b"; "c."])) /\
  Matches Examples.unicode (runes "xa+b") (anyOfRe false (map runes ["a+b"; "c."])) 1 4.
Proof.
  split; [reflexivity |].
  destruct (@anyOf_matches_its_strings Examples.unicode ["a+b"; "c."] eq_refl)
    as (H1 & _ & H2).
  split; [exact H1 |]. apply H2. exists "a+b". split; [now left |].
  split; reflexivity.
Defined.

(** X8: [relaxedExp] panics, with an index out of range, exactly when the
    loop comes to an empty entry of [TLDs]: when an entry is empty and all
    the entries before it start with an ASCII byte.  Otherwise it returns
    the expression made of the entries before the first one that starts
    with another byte, the pseudo domains behind them, and of the entries
    from that one on. *)
Theorem relaxedExp_panics_on_empty_entry (tlds pseudo : list string) :
  (relaxedExp tlds pseudo (tables tlds pseudo) = Err ErrIndexOutOfRange <->
   exists k, nth_error tlds k = Some "" /\ forallb asciiFirst (firstn k tlds) = true) /\
  (forall e, relaxedExp tlds pseudo (tables tlds pseudo) = Err e -> e = ErrIndexOutOfRange) /\
  (forall exp h, relaxedExp tlds pseudo (tables tlds pseudo) = Ok (exp, h) ->
     exists a u, split tlds = Ok (a, u) /\ exp = relaxedOf (a ++ pseudo) u /\
                 ((a ++ u)%list = tlds \/ (a = [] /\ u = [] /\ forallb asciiFirst tlds = true))).
Proof.
  rewrite relaxedExp_spec. unfold split.
  destruct (firstNonASCII tlds 0) as [[k |] | e0] eqn:E; cbn [bind].
  - split; [| split].
    + split; [discriminate |]. intros Hk.
      assert (F : firstNonASCII tlds 0 = Err ErrIndexOutOfRange)
        by (apply firstNonASCII_Err; now split).
      congruence.
    + discriminate.
    + intros exp h Eq. injection Eq as <- _. exists (firstn k tlds), (skipn k tlds).
      split; [reflexivity |]. split; [reflexivity |]. left. apply firstn_skipn.
  - split; [| split].
    + split; [discriminate |]. intros Hk.
      assert (F : firstNonASCII tlds 0 = Err ErrIndexOutOfRange)
        by (apply firstNonASCII_Err; now split).
      congruence.
    + discriminate.
    + intros exp h Eq. injection Eq as <- _. exists [], [].
      split; [reflexivity |]. split; [reflexivity |]. right.
      split; [reflexivity |]. split; [reflexivity |].
      clear -E. revert E. generalize 0. induction tlds as [| s l IH]; intros i E;
        [reflexivity |].
      cbn [firstNonASCII] in E. unfold asciiFirst at 1. cbn [forallb].
      destruct (firstByte s) as [b | err]; cbn [bind] in E; [| discriminate].
      destruct (N.leb_spec RuneSelf b) as [Hb | Hb]; [discriminate |].
      apply N.ltb_lt in Hb. rewrite Hb. cbn [andb]. exact (IH _ E).
  - apply firstNonASCII_Err in E. destruct E as [-> Hk]. split; [| split].
    + split; [intros _; exact Hk | reflexivity].
    + intros e Eq. now injection Eq.
    + discriminate.
Qed.


(** * Host names *)

(** X9: what the expression of [Relaxed] takes for a top-level domain: a
    punycode label; an entry of the ASCII list or of the pseudo domains,
    case disregarded, where a word boundary follows; or an entry of the
    other list, case disregarded, whatever follows. *)
Theorem tld_needs_word_boundary_when_ascii (U : UnicodeTables) (tlds pseudo : list string) :
  wellFormed tlds pseudo = true ->
  exists a u,
    split tlds = Ok (a, u) /\
    Relaxed tlds pseudo
    = Ok (mkRegexp (relaxedRe (map runes (a ++ pseudo)) (map runes u)) true) /\
    forall text i j,
      Matches U text (tldsRe (map runes (a ++ pseudo)) (map runes u)) i j <->
      Matches U text punycodeRe i j \/
      (wordBoundary text j = true /\
       match (a ++ pseudo)%list with
       | [] => j = i
       | _ :: _ =>
         exists x, In x (a ++ pseudo) /\ Matches U text (literalRe true (runes x)) i j
       end) \/
      match u with
      | [] => j = i
      | _ :: _ => exists x, In x u /\ Matches U text (literalRe true (runes x)) i j
      end.
Proof.
  intros Hw. destruct (split_wellFormed _ _ Hw) as (a & u & Hsp & Ha & Hu).
  exists a, u. split; [exact Hsp |]. split; [exact (Relaxed_spec _ _ Hsp Ha Hu) |].
  intros text i j. unfold tldsRe. cbn [Matches]. unfold Guard.
  assert (L : forall l k,
            Matches U text (anyOfRe true (map runes l)) i k <->
            match l with
            | [] => k = i
            | _ :: _ => exists x, In x l /\ Matches U text (literalRe true (runes x)) i k
            end).
  { intros l k. destruct l as [| y l]; [apply Matches_anyOfRe_nil |].
    rewrite Matches_anyOfRe by discriminate. split.
    - intros (r & Hr & Hm). apply in_map_iff in Hr. destruct Hr as (x & <- & Hx). eauto.
    - intros (x & Hx & Hm). exists (runes x). split; [now apply in_map | exact Hm]. }
  rewrite (L u j). split.
  - intros [Hp | [(k & Hk & -> & Hb) | Hu']]; [now left | | now right; right].
    right. left. split; [exact Hb |]. now apply L.
  - intros [Hp | [(Hb & Hk) | Hu']]; [now left | | now right; right].
    right. left. exists j. split; [now apply L | now split].
Qed.

Lemma tld_needs_word_boundary_when_ascii_witness :
  wellFormed Examples.tlds Examples.pseudo = true /\
  exists a u, split Examples.tlds = Ok (a, u) /\
    Matches Examples.unicode (runes "a.com!")
      (tldsRe (map runes (a ++ Examples.pseudo)) (map runes u)) 2 5.
Proof.
  split; [reflexivity |].
  destruct (@tld_needs_word_boundary_when_ascii Examples.unicode Examples.tlds
              Examples.pseudo eq_refl) as (a & u & Hs & _ & H).
  exists a, u. split; [exact Hs |]. apply H. right. left.
  split; [reflexivity |].
  assert (E : (a ++ Examples.pseudo)%list = (firstn 4 Examples.tlds ++ Examples.pseudo)%list).
  { assert (Hs' : split Examples.tlds
                  = Ok (firstn 4 Examples.tlds, skipn 4 Examples.tlds)) by reflexivity.
    rewrite Hs in Hs'. injection Hs' as -> _. reflexivity. }
  rewrite E. exists "com". split; [now left |].
  apply ends_single; [vm_compute; lia |]. vm_compute. now left.
Defined.

Section DomainFacts.
Variable U : UnicodeTables.
Variable text : list rune.

Lemma inner_of_iri c : inClass U iriCharRe c = true -> inClass U iriInnerRe c = true.
Proof.
  unfold inClass, iriCharRe, iriInnerRe, classMatch. cbn [existsb xorb].
  destruct (itemMatch U false (UnicodeGroup false CatL) c),
    (itemMatch U false (UnicodeGroup false CatM) c),
    (itemMatch U false (UnicodeGroup false CatN) c);
    cbn [orb]; intros H; try reflexivity; discriminate.
Qed.

(** The classes of a host name, inside ASCII. *)
Lemma iri_ascii c :
  (c < RuneSelf)%N ->
  inClass U iriCharRe c = isalnum c /\
  inClass U iriInnerRe c = (isalnum c || (c =c "-"))%bool.
Proof.
  intros Hc. apply N.ltb_lt in Hc.
  unfold inClass, iriCharRe, iriInnerRe, classMatch, itemMatch.
  cbn [existsb xorb negated inSet andb orb]. unfold inCategory. rewrite Hc.
  unfold isalnum. change (chr "-") with 45%N.
  destruct (isUpper c), (isLower c), (isDigit c), (N.leb_spec 45 c), (N.leb_spec c 45),
    (N.eqb_spec c 45); cbn; try reflexivity; try (split; reflexivity); lia.
Qed.

Lemma label_spec i k : Matches U text labelRe i k -> labelled U text i k.
Proof.
  unfold labelRe. cbn [Matches].
  intros (k1 & (-> & c1 & Hc1 & Pc1) & k2 & Hq & Hd).
  apply Matches_lit in Hd. destruct Hd as [-> Hd].
  destruct Hq as [-> | (k3 & (n & Hn) & -> & c3 & Hc3 & Pc3)].
  - constructor.
    + lia.
    + now exists c1.
    + now replace (S (S i) - 1) with (S i) by lia.
    + replace (S (S i) - 2) with i by lia. now exists c1.
    + intros m Hm. assert (m = i) by lia. subst m. exists c1.
      split; [exact Hc1 | now apply inner_of_iri].
  - change (Matches U text iriInnerRe) with (Step text (inClass U iriInnerRe)) in Hn.
    apply Iter_Step in Hn. destruct Hn as (-> & Hl & Hf).
    constructor.
    + lia.
    + now exists c1.
    + now replace (S (S (S i + n)) - 1) with (S (S i + n)) by lia.
    + replace (S (S (S i + n)) - 2) with (S i + n) by lia. now exists c3.
    + intros m Hm.
      destruct (Nat.eq_dec m i) as [-> | Hmi];
        [exists c1; split; [exact Hc1 | now apply inner_of_iri] |].
      destruct (Nat.eq_dec m (S i + n)) as [-> | Hmn];
        [exists c3; split; [exact Hc3 | now apply inner_of_iri] |].
      pose proof (@window_nth text (S i) (S i + n) (m - S i) ltac:(lia)) as N.
      replace (S i + (m - S i)) with m in N by lia.
      destruct (nth_error (window text (S i) (S i + n)) (m - S i)) as [c |] eqn:Ec.
      * exists c. split; [now symmetry |].
        rewrite forallb_forall in Hf. apply Hf. now apply nth_error_In in Ec.
      * apply nth_error_None in Ec. lia.
Qed.

Lemma dot_no_inner m c (P : Prop) :
  at_ text m = Some (chr ".") -> at_ text m = Some c ->
  inClass U iriInnerRe c = true -> P.
Proof.
  intros Hd Hc Pc. rewrite Hd in Hc.
  assert (F : inClass U iriInnerRe c = false) by (injection Hc as <-; reflexivity).
  congruence.
Qed.

Lemma labels_spec n : forall i j, Iter (Matches U text labelRe) (S n) i j -> hostShape U text i j.
Proof.
  induction n as [| n IH]; intros i j.
  - cbn [Iter]. intros (k & Hl & <-). apply label_spec in Hl.
    destruct Hl as [L1 L2 L3 L4 L5]. constructor; try assumption.
    + intros m Hm. destruct (Nat.eq_dec m (k - 1)) as [-> | Hne].
      * exists (chr "."). split; [exact L3 | now left].
      * destruct (L5 m ltac:(lia)) as (c & Hc & Pc). exists c. split; [exact Hc | now right].
    + intros m Hm Hd. destruct (Nat.eq_dec m (k - 1)) as [-> | Hne].
      * split; [lia |]. now replace (k - 1 - 1) with (k - 2) by lia.
      * destruct (L5 m ltac:(lia)) as (c & Hc & Pc). exact (@dot_no_inner _ _ _ Hd Hc Pc).
    + intros m Hm1 Hm2 Hd. destruct (L5 m ltac:(lia)) as (c & Hc & Pc). exact (@dot_no_inner _ _ _ Hd Hc Pc).
  - intros H. change (Iter (Matches U text labelRe) (S (S n)) i j)
      with (exists k, Matches U text labelRe i k /\ Iter (Matches U text labelRe) (S n) k j) in H.
    destruct H as (k & Hl & Hr). apply label_spec in Hl. apply IH in Hr.
    destruct Hl as [L1 L2 L3 L4 L5]. destruct Hr as [R1 R2 R3 R4 R5 R6].
    constructor.
    + lia.
    + exact L2.
    + exact R3.
    + intros m Hm. destruct (Nat.lt_ge_cases m k) as [Hlt | Hge]; [| apply R4; lia].
      destruct (Nat.eq_dec m (k - 1)) as [-> | Hne].
      * exists (chr "."). split; [exact L3 | now left].
      * destruct (L5 m ltac:(lia)) as (c & Hc & Pc). exists c. split; [exact Hc | now right].
    + intros m Hm Hd. destruct (Nat.lt_ge_cases m k) as [Hlt | Hge].
      * destruct (Nat.eq_dec m (k - 1)) as [-> | Hne].
        -- split; [lia |]. now replace (k - 1 - 1) with (k - 2) by lia.
        -- destruct (L5 m ltac:(lia)) as (c & Hc & Pc). exact (@dot_no_inner _ _ _ Hd Hc Pc).
      * destruct (R5 m ltac:(lia) Hd) as [Hk Hc]. split; [lia | exact Hc].
    + intros m Hm1 Hm2 Hd. destruct (Nat.lt_ge_cases m k) as [Hlt | Hge].
      * destruct (Nat.eq_dec m (k - 1)) as [-> | Hne].
        -- replace (S (k - 1)) with k by lia. exact R2.
        -- destruct (L5 m ltac:(lia)) as (c & Hc & Pc). exact (@dot_no_inner _ _ _ Hd Hc Pc).
      * apply R6; [lia | exact Hm2 | exact Hd].
Qed.

End DomainFacts.

(** X10: a match of [domain] is made of labels with a dot behind each:
    it has at least two runes, begins with a letter, mark or number and
    ends with a dot; every rune of it is a dot, a hyphen, or a letter, mark
    or number; before every dot there is a letter, mark or number, and so
    there is after every dot but the last.  No label is empty, and none
    begins or ends with a hyphen. *)
Theorem domain_is_made_of_labels (U : UnicodeTables) (text : list rune) (i j : nat) :
  Matches U text domainRe i j ->
  Parse domain = Ok domainRe /\
  hostShape U text i j /\
  (forall c, (c < RuneSelf)%N ->
     inClass U iriCharRe c = isalnum c /\
     inClass U iriInnerRe c = (isalnum c || (c =c "-"))%bool).
Proof.
  intros H. split; [exact Parse_domain |]. split; [| apply iri_ascii].
  change domainRe with (Plus labelRe) in H. cbn [Matches] in H.
  destruct H as (n & Hn). exact (labels_spec Hn).
Qed.

Lemma domain_is_made_of_labels_witness :
  Matches Examples.unicode (runes "my-host.example.") domainRe 0 16 /\
  hostShape Examples.unicode (runes "my-host.example.") 0 16.
Proof.
  assert (M : Matches Examples.unicode (runes "my-host.example.") domainRe 0 16).
  { apply ends_single; [vm_compute; lia |]. vm_compute. tauto. }
  split; [exact M |].
  exact (proj1 (proj2 (@domain_is_made_of_labels Examples.unicode
                         (runes "my-host.example.") 0 16 M))).
Defined.


(** * Brackets in matches *)

Lemma neutral_nil : neutral [].
Proof. intros st rest. reflexivity. Qed.

Lemma neutral_app w1 w2 : neutral w1 -> neutral w2 -> neutral (w1 ++ w2).
Proof. intros H1 H2 st rest. now rewrite <- app_assoc, H1, H2. Qed.

Lemma neutral_plain c : ~ In c brackets -> neutral [c].
Proof.
  intros H st rest. cbn [app check]. unfold closerOf, isCloser.
  destruct (N.eqb_spec c 40); [exfalso; apply H; subst; cbn; tauto |].
  destruct (N.eqb_spec c 91); [exfalso; apply H; subst; cbn; tauto |].
  destruct (N.eqb_spec c 123); [exfalso; apply H; subst; cbn; tauto |].
  destruct (N.eqb_spec c 41); [exfalso; apply H; subst; cbn; tauto |].
  destruct (N.eqb_spec c 93); [exfalso; apply H; subst; cbn; tauto |].
  destruct (N.eqb_spec c 125); [exfalso; apply H; subst; cbn; tauto |].
  reflexivity.
Qed.

Lemma neutral_pair o d w : closerOf o = Some d -> neutral w -> neutral (o :: w ++ [d]).
Proof.
  intros Ho Hw st rest. cbn [app check]. rewrite Ho, <- app_assoc, Hw. cbn [app check].
  assert (Hd : closerOf d = None /\ isCloser d = true).
  { unfold closerOf in Ho.
    destruct (o =? 40)%N; [injection Ho as <-; now split |].
    destruct (o =? 91)%N; [injection Ho as <-; now split |].
    destruct (o =? 123)%N; [injection Ho as <-; now split | discriminate]. }
  destruct Hd as [-> ->]. now rewrite N.eqb_refl.
Qed.

Lemma neutral_wellBracketed w : neutral w -> wellBracketed w = true.
Proof. intros H. unfold wellBracketed. rewrite <- (app_nil_r w), H. reflexivity. Qed.

Section BracketFacts.
Variable U : UnicodeTables.
Variable text : list rune.

Lemma Iter_neutral (R : nat -> nat -> Prop) n : forall i j,
  (forall a b, R a b -> a <= b /\ neutral (window text a b)) ->
  Iter R n i j -> i <= j /\ neutral (window text i j).
Proof.
  induction n as [| n IH]; cbn [Iter]; intros i j HR.
  - intros <-. rewrite window_nil. split; [lia | apply neutral_nil].
  - intros (k & Hk & Hn). apply HR in Hk. apply (IH _ _ HR) in Hn.
    destruct Hk as [L1 N1], Hn as [L2 N2]. split; [lia |].
    rewrite (@window_split text i k j) by lia. now apply neutral_app.
Qed.

Lemma leaf_neutral re i j :
  forallb (fun b => negb (accepts U re b)) brackets = true ->
  (exists c, j = S i /\ at_ text i = Some c /\ accepts U re c = true) ->
  i <= j /\ neutral (window text i j).
Proof.
  intros Hb (c & -> & Hc & Ha). split; [lia |].
  rewrite (@window1 text i c Hc). apply neutral_plain. intros Hin.
  rewrite forallb_forall in Hb. specialize (Hb c Hin). rewrite Ha in Hb. discriminate.
Qed.

(** The matches of an expression of balanced shape are well bracketed. *)
Lemma balanced_sound n : forall re,
  size re <= n -> balanced U re = true ->
  forall i j, Matches U text re i j -> i <= j /\ neutral (window text i j).
Proof.
  induction n as [| n IH]; intros re Hs; [destruct re; simpl in Hs; lia |].
  assert (G : forall i j, j = i -> i <= j /\ neutral (window text i j)).
  { intros i j ->. rewrite window_nil. split; [lia | apply neutral_nil]. }
  destruct re; cbn [size] in Hs; cbn [balanced Matches]; intros Hb i j;
    try (intros [-> _]; now apply G).
  - apply G.
  - intros (-> & c & Hc & Hp). apply (@leaf_neutral (Literal fold r)); [exact Hb |].
    now exists c.
  - intros (-> & c & Hc & Hp). apply (@leaf_neutral (CharClass fold neg items)); [exact Hb |].
    now exists c.
  - intros (-> & c & Hc & Hp). apply (@leaf_neutral (AnyChar nl)); [exact Hb |].
    now exists c.
  - apply IH; [lia | exact Hb].
  - intros (m & Hm). apply (@Iter_neutral _ m i j) in Hm; [exact Hm |].
    intros a b. apply IH; [lia | exact Hb].
  - intros (m & Hm). apply (@Iter_neutral _ (S m) i j) in Hm; [exact Hm |].
    intros a b. apply IH; [lia | exact Hb].
  - intros [-> | H]; [now apply G |]. revert H. apply IH; [lia | exact Hb].
  - intros (m & _ & _ & Hm). apply (@Iter_neutral _ m i j) in Hm; [exact Hm |].
    intros a b. apply IH; [lia | exact Hb].
  - apply orb_prop in Hb. destruct Hb as [Hb | Hb].
    + apply andb_prop in Hb. destruct Hb as [B1 B2].
      intros (k & H1 & H2).
      apply (IH re1 ltac:(lia) B1) in H1. apply (IH re2 ltac:(lia) B2) in H2.
      destruct H1 as [L1 N1], H2 as [L2 N2]. split; [lia |].
      rewrite (@window_split text i k j) by lia. now apply neutral_app.
    + destruct re1 as [| [|] o | | | | | | | | | | | | | | |]; try discriminate.
      destruct re2 as [| | | | | | | | | | | | | | | r re2 |]; try discriminate.
      destruct re2 as [| [|] c | | | | | | | | | | | | | | |]; try discriminate.
      destruct (closerOf o) as [d |] eqn:Eo; [| discriminate].
      apply andb_prop in Hb. destruct Hb as [Ec Br]. apply N.eqb_eq in Ec. subst c.
      cbn [Matches size] in *.
      intros (k & (-> & co & Hco & Po) & k2 & Hr & -> & cd & Hcd & Pd).
      apply (IH r ltac:(lia) Br) in Hr. destruct Hr as [Lr Nr].
      unfold litMatch in Po, Pd. cbn [andb] in Po, Pd. rewrite orb_false_r in Po, Pd.
      apply N.eqb_eq in Po, Pd. subst co cd. split; [lia |].
      rewrite (@window_split text i (S i) (S k2)), (@window1 text i o Hco) by lia.
      rewrite (@window_split text (S i) k2 (S k2)), (@window1 text k2 d Hcd) by lia.
      cbn [app]. now apply neutral_pair.
  - apply andb_prop in Hb. destruct Hb as [B1 B2].
    intros [H | H]; revert H; apply IH; (lia || assumption).
Qed.

End BracketFacts.

(** Case folding leads to letters and to runes outside ASCII only. *)
Lemma foldOrbit_range U r x :
  In x (foldOrbit U r) ->
  isUpper x = true \/ isLower x = true \/ (RuneSelf <= x)%N.
Proof.
  unfold foldOrbit.
  assert (T : forall a b : rune,
            In x (if (r =? a)%N then [KelvinSign]
                  else if (r =? b)%N then [LongS] else []) -> (RuneSelf <= x)%N).
  { intros a b H. destruct (r =? a)%N; [destruct H as [<- | []]; vm_compute; discriminate |].
    destruct (r =? b)%N; [destruct H as [<- | []]; vm_compute; discriminate | destruct H]. }
  destruct (isUpper r) eqn:Eu.
  - intros [<- | H]; [| right; right; exact (T _ _ H)].
    right. left. unfold isUpper, isLower in *. apply andb_prop in Eu. destruct Eu as [E1 E2].
    apply N.leb_le in E1, E2. apply andb_true_intro. split; apply N.leb_le; lia.
  - destruct (isLower r) eqn:El.
    + intros [<- | H]; [| right; right; exact (T _ _ H)].
      left. unfold isUpper, isLower in *. apply andb_prop in El. destruct El as [E1 E2].
      apply N.leb_le in E1, E2. apply andb_true_intro. split; apply N.leb_le; lia.
    + destruct (r <? RuneSelf)%N; [intros [] |].
      destruct (r =? KelvinSign)%N.
      * intros [<- | [<- | []]]; [left | right; left]; reflexivity.
      * destruct (r =? LongS)%N.
        -- intros [<- | [<- | []]]; [left | right; left]; reflexivity.
        -- intros H. apply filter_In in H. destruct H as [_ H]. right. right.
           now apply N.leb_le in H.
Qed.

(** An ASCII rune that is no letter is matched by itself only, with or
    without case folding. *)
Lemma litMatch_nonletter U fold r c :
  (c < RuneSelf)%N -> isUpper c = false -> isLower c = false ->
  litMatch U fold r c = true -> c = r.
Proof.
  intros Hc Hup Hlo H. unfold litMatch in H.
  apply orb_prop in H. destruct H as [H | H]; [now apply N.eqb_eq in H |].
  apply andb_prop in H. destruct H as [_ H]. exfalso.
  apply existsb_exists in H. destruct H as (x & Hx & E). apply N.eqb_eq in E. subst x.
  apply foldOrbit_range in Hx. destruct Hx as [Hx | [Hx | Hx]]; [congruence | congruence | lia].
Qed.

Lemma balanced_Concat U a b :
  balanced U a = true -> balanced U b = true -> balanced U (Concat a b) = true.
Proof. intros Ha Hb. cbn [balanced]. now rewrite Ha, Hb. Qed.

Lemma balanced_Alternate U a b :
  balanced U a = true -> balanced U b = true -> balanced U (Alternate a b) = true.
Proof. intros Ha Hb. cbn [balanced]. now rewrite Ha, Hb. Qed.

Lemma balanced_literalRe U x :
  forallb (fun r => negb (existsb (N.eqb r) brackets)) x = true ->
  balanced U (literalRe true x) = true.
Proof.
  unfold literalRe. intros H.
  assert (L : forall r, negb (existsb (N.eqb r) brackets) = true ->
            balanced U (Literal true r) = true).
  { intros r Hr. cbn [balanced]. apply forallb_forall. intros b Hb.
    apply negb_true_iff. cbn [accepts]. destruct (litMatch U true r b) eqn:E; [| reflexivity].
    apply litMatch_nonletter in E.
    - subst b. apply negb_true_iff in Hr. rewrite <- Hr. symmetry.
      apply existsb_exists. exists r. split; [exact Hb | apply N.eqb_refl].
    - cbn in Hb. intuition (subst; reflexivity).
    - cbn in Hb. intuition (subst; reflexivity).
    - cbn in Hb. intuition (subst; reflexivity). }
  induction x as [| r x IH]; [reflexivity |].
  cbn [forallb] in H. apply andb_prop in H. destruct H as [Hr Hx].
  destruct x as [| r' x]; [cbn [map mkConcat]; now apply L |].
  change (mkConcat (map (Literal true) (r :: r' :: x)))
    with (Concat (Literal true r) (mkConcat (map (Literal true) (r' :: x)))).
  apply balanced_Concat; [now apply L | now apply IH].
Qed.

Lemma balanced_anyOfRe U ls :
  bracketFree ls = true -> balanced U (anyOfRe true (map runes ls)) = true.
Proof.
  unfold anyOfRe, bracketFree. intros H.
  induction ls as [| x ls IH]; [reflexivity |].
  cbn [forallb] in H. apply andb_prop in H. destruct H as [Hx Hl].
  destruct ls as [| x' ls]; [cbn [map mkAlternate]; now apply balanced_literalRe |].
  change (mkAlternate (map (literalRe true) (map runes (x :: x' :: ls))))
    with (Alternate (literalRe true (runes x))
            (mkAlternate (map (literalRe true) (map runes (x' :: ls))))).
  apply balanced_Alternate; [now apply balanced_literalRe | now apply IH].
Qed.

Lemma balanced_relaxedRe U a u :
  balanced U (anyOfRe true a) = true -> balanced U (anyOfRe true u) = true ->
  balanced U (relaxedRe a u) = true.
Proof.
  intros Ha Hu.
  assert (B1 : balanced U strictRe = true) by (vm_compute; reflexivity).
  assert (B2 : balanced U domainRe = true) by (vm_compute; reflexivity).
  assert (B3 : balanced U punycodeRe = true) by (vm_compute; reflexivity).
  assert (B4 : balanced U ipAddrRe = true) by (vm_compute; reflexivity).
  assert (B5 : balanced U portRe = true) by (vm_compute; reflexivity).
  assert (B6 : balanced U pathOptRe = true) by (vm_compute; reflexivity).
  assert (B7 : balanced U localPartRe = true) by (vm_compute; reflexivity).
  assert (B8 : balanced U atRe = true) by (vm_compute; reflexivity).
  assert (B9 : balanced U WordBoundary = true) by reflexivity.
  assert (T : balanced U (tldsRe a u) = true).
  { unfold tldsRe. apply balanced_Alternate; [exact B3 |].
    apply balanced_Alternate; [| exact Hu]. apply balanced_Concat; [exact Ha | reflexivity]. }
  assert (S : balanced U (siteRe a u) = true).
  { unfold siteRe. apply balanced_Concat; [exact B2 | exact T]. }
  unfold relaxedRe. apply balanced_Alternate; [exact B1 |]. apply balanced_Alternate.
  - unfold webURLRe, hostNameRe. apply balanced_Concat.
    + apply balanced_Alternate; [exact S | exact B4].
    + apply balanced_Concat; [exact B5 | exact B6].
  - unfold emailRe. apply balanced_Concat; [exact B7 |].
    apply balanced_Concat; [exact B8 | exact S].
Qed.

(** X11: the brackets of a match are well nested: in every match of
    [Strict] the round, square and curly brackets come in pairs, each
    closing bracket behind its opening one and of its kind; so it is in
    every match of [Relaxed], when no entry of the tables holds a
    bracket. *)
Theorem matches_are_well_bracketed (U : UnicodeTables) (tlds pseudo : list string) :
  wellFormed tlds pseudo = true ->
  exists rs rr,
    Strict = Ok rs /\ Relaxed tlds pseudo = Ok rr /\
    (forall text i j,
       Matches U text (prog rs) i j -> wellBracketed (window text i j) = true) /\
    (bracketFree (tlds ++ pseudo) = true ->
     forall text i j,
       Matches U text (prog rr) i j -> wellBracketed (window text i j) = true) /\
    wellBracketed (runes "a(b[c]{d})e") = true /\
    wellBracketed (runes "(]") = false /\ wellBracketed (runes ")(") = false /\
    wellBracketed (runes "(()") = false.
Proof.
  intros Hw. destruct (split_wellFormed _ _ Hw) as (a & u & Hsp & Hva & Hvu).
  exists (mkRegexp strictRe true),
         (mkRegexp (relaxedRe (map runes (a ++ pseudo)) (map runes u)) true).
  split; [exact Strict_spec |]. split; [exact (Relaxed_spec _ _ Hsp Hva Hvu) |].
  cbn [prog]. split; [| split; [| now repeat split]].
  - intros text i j Hm. apply neutral_wellBracketed.
    apply (@balanced_sound U text (size strictRe) strictRe (le_n _)); [| exact Hm].
    vm_compute. reflexivity.
  - intros Hf text i j Hm. apply neutral_wellBracketed.
    refine (proj2 (@balanced_sound U text _ _ (le_n _) _ i j Hm)).
    destruct (split_parts _ Hsp) as [Ia Iu].
    assert (F : forall l, incl l (tlds ++ pseudo) -> bracketFree l = true).
    { intros l Hl. unfold bracketFree in *. apply forallb_forall. intros x Hx.
      rewrite forallb_forall in Hf. apply Hf, Hl, Hx. }
    apply balanced_relaxedRe; apply balanced_anyOfRe, F.
    + intros x Hx. apply in_app_or in Hx. apply in_or_app.
      destruct Hx; [left; now apply Ia | now right].
    + intros x Hx. apply in_or_app. left. now apply Iu.
Qed.

Lemma matches_are_well_bracketed_witness :
  wellFormed Examples.tlds Examples.pseudo = true /\
  bracketFree (Examples.tlds ++ Examples.pseudo) = true /\
  exists rr, Relaxed Examples.tlds Examples.pseudo = Ok rr /\
    forall text i j,
      Matches Examples.unicode text (prog rr) i j ->
      wellBracketed (window text i j) = true.
Proof.
  split; [reflexivity |]. split; [reflexivity |].
  destruct (@matches_are_well_bracketed Examples.unicode Examples.tlds Examples.pseudo
              eq_refl) as (rs & rr & _ & Hr & _ & H & _).
  exists rr. split; [exact Hr |]. exact (H eq_refl).
Defined.


Lemma isDigit_In c : isDigit c = true -> In c digits.
Proof.
  unfold isDigit, digits. intros H. apply andb_prop in H. destruct H as [H1 H2].
  apply N.leb_le in H1, H2. apply in_map_iff. exists (N.to_nat c).
  split; [apply N2Nat.id |]. apply in_seq. lia.
Qed.

(** X12: [StrictMatchingScheme] with [AnyScheme] compiles; what it takes
    for a scheme has at least four runes and no decimal digit, and a path
    of at least one rune follows.  A registered scheme with a digit is not
    taken whole: of ["ed2k://y"] the match is ["k://y"], and in
    ["h323://x"] there is none, while [Strict] matches both in full. *)
Theorem AnyScheme_takes_no_digit (U : UnicodeTables) :
  exists re,
    StrictMatchingScheme AnyScheme = Ok re /\
    re = mkRegexp (Concat anySchemeRe pathContRe) true /\
    (forall text i j,
       Matches U text (prog re) i j ->
       exists k,
         i + 4 <= k /\ k < j /\
         Matches U text anySchemeRe i k /\ Matches U text pathContRe k j /\
         forall m c, i <= m < k -> at_ text m = Some c -> isDigit c = false) /\
    In "ed2k" Schemes /\ In "h323" Schemes /\
    FindAllString U re "ed2k://y" = Ok ["k://y"] /\
    FindAllString U re "h323://x" = Ok [] /\
    (rs <- Strict ;; FindAllString U rs "ed2k://y") = Ok ["ed2k://y"] /\
    (rs <- Strict ;; FindAllString U rs "h323://x") = Ok ["h323://x"].
Proof.
  exists (mkRegexp (Concat anySchemeRe pathContRe) true).
  split; [vm_compute; reflexivity |]. split; [reflexivity |]. split.
  - intros text i j Hm. cbn [prog Matches] in Hm. destruct Hm as (k & Hs & Hp).
    exists k.
    pose proof (minLen_sound _ _ _ _ _ Hs) as L1.
    pose proof (minLen_sound _ _ _ _ _ Hp) as L2.
    change (minLen anySchemeRe) with 4 in L1. change (minLen pathContRe) with 1 in L2.
    split; [lia |]. split; [lia |]. split; [exact Hs |]. split; [exact Hp |].
    intros m c Hmk Hc. apply accepts_sound in Hs.
    destruct (Hs m Hmk) as (c' & Hc' & Ha). rewrite Hc in Hc'. injection Hc' as <-.
    destruct (isDigit c) eqn:Ed; [| reflexivity].
    apply isDigit_In in Ed.
    assert (F : forallb (fun c => negb (accepts U anySchemeRe c)) digits = true)
      by (vm_compute; reflexivity).
    rewrite forallb_forall in F. specialize (F c Ed). rewrite Ha in F. discriminate.
  - split; [vm_compute; tauto |]. split; [vm_compute; tauto |].
    split; [vm_compute; reflexivity |]. split; [vm_compute; reflexivity |].
    split; [rewrite Strict_spec |]; [vm_compute; reflexivity |].
    rewrite Strict_spec. vm_compute. reflexivity.
Qed.


Section MailFacts.
Variable U : UnicodeTables.
Variable text : list rune.



End MailFacts.



(** * The tables and the store *)

(** X14: [relaxedExp] writes to no array that is there: on every store
    whose first two arrays are the tables it returns the expression it
    returns on the tables alone and leaves all the arrays as they are,
    with one new array behind them when there are pseudo domains.  Calls
    in a row return the same expression each time. *)
Theorem relaxedExp_keeps_the_arrays (tlds pseudo : list string) (extra : store) (n : nat)
    (exp : string) (h1 : store) :
  relaxedExp tlds pseudo (tlds :: pseudo :: extra) = Ok (exp, h1) ->
  (exists e0 h0, relaxedExp tlds pseudo (tables tlds pseudo) = Ok (e0, h0) /\ exp = e0) /\
  (exists added, h1 = (tlds :: pseudo :: extra ++ added)%list /\
     (pseudo = [] -> added = []) /\ List.length added <= 1) /\
  (forall k, k < 2 + List.length extra ->
     nth k h1 [] = nth k (tlds :: pseudo :: extra) []) /\
  exists hn, calls tlds pseudo n (tlds :: pseudo :: extra) = Ok (List.repeat exp n, hn).
Proof.
  rewrite relaxedExp_store. destruct (split tlds) as [[a u] | e] eqn:Hs; [| discriminate].
  cbn [bind]. intros E.
  assert (He : exp = relaxedOf (a ++ pseudo) u) by (injection E as E1 _; now symmetry).
  assert (Hh : exists added, h1 = (tlds :: pseudo :: extra ++ added)%list /\
             (pseudo = [] -> added = []) /\ List.length added <= 1).
  { injection E as _ E. subst h1. destruct pseudo as [| p ps].
    - exists []. rewrite app_nil_r. repeat split. simpl. lia.
    - exists [(a ++ p :: ps)%list]. repeat split; [discriminate | simpl; lia]. }
  split; [| split; [exact Hh | split]].
  - rewrite relaxedExp_spec, Hs. cbn [bind]. eexists _, _. split; [reflexivity | exact He].
  - destruct Hh as (added & -> & _). intros k Hk.
    destruct k as [| [| k]]; [reflexivity | reflexivity |].
    cbn [nth]. apply app_nth1. simpl in Hk. lia.
  - destruct (@calls_store tlds pseudo a u n extra Hs) as [extra' C].
    exists (tlds :: pseudo :: extra'). now rewrite He.
Qed.

Lemma relaxedExp_keeps_the_arrays_witness :
  exists exp h1,
    relaxedExp ["com"; "рф"] ["local"] [["com"; "рф"]; ["local"]; ["kept"]] = Ok (exp, h1) /\
    nth 2 h1 [] = ["kept"] /\
    exists hn, calls ["com"; "рф"] ["local"] 3 [["com"; "рф"]; ["local"]; ["kept"]]
               = Ok ([exp; exp; exp], hn).
Proof.
  assert (E : relaxedExp ["com"; "рф"] ["local"] [["com"; "рф"]; ["local"]; ["kept"]]
              = Ok (relaxedOf ["com"; "local"] ["рф"],
                    [["com"; "рф"]; ["local"]; ["kept"]; ["com"; "local"]]))
    by (vm_compute; reflexivity).
  destruct (@relaxedExp_keeps_the_arrays _ _ _ 3 _ _ E) as (_ & _ & H & Hn).
  eexists _, _. split; [exact E |]. split; [reflexivity | exact Hn].
Defined.

(** X15: in leftmost-longest mode the order of the alternatives of an
    expression has no effect: for any expressions in any two orders the
    matches are the same and so are the spans reported on every string.
    So it is for the three alternatives of the expression of [Relaxed]. *)
Theorem longest_mode_ignores_order (U : UnicodeTables) (l l' : list Syntax.Regexp) :
  Permutation l l' ->
  (forall text i j,
     Matches U text (mkAlternate l) i j <-> Matches U text (mkAlternate l') i j) /\
  (forall text i, i <= List.length text ->
     longestAt U text (mkAlternate l) i = longestAt U text (mkAlternate l') i) /\
  (forall s,
     FindAllStringIndex U (mkRegexp (mkAlternate l) true) s
     = FindAllStringIndex U (mkRegexp (mkAlternate l') true) s) /\
  (forall a u, relaxedRe a u = mkAlternate [strictRe; webURLRe a u; emailRe a u]).
Proof.
  intros P.
  assert (Eq : forall text i j,
            Matches U text (mkAlternate l) i j <-> Matches U text (mkAlternate l') i j).
  { intros text i j. destruct l as [| r l0].
    - apply Permutation_nil in P. subst l'. reflexivity.
    - apply Matches_permutation; [exact P | discriminate]. }
  split; [exact Eq |]. split; [| split; [| reflexivity]].
  - intros text i Hi. apply longestAt_ext; [exact Hi |]. intros j. apply Eq.
  - intros s. unfold FindAllStringIndex. cbn [longest prog]. do 2 f_equal.
    apply allMatches_ext. intros i j. apply Eq.
Qed.

Lemma longest_mode_ignores_order_witness :
  Permutation (lit "a" :: Concat (lit "a") (lit "b") :: nil)
    (Concat (lit "a") (lit "b") :: lit "a" :: nil) /\
  FindAllStringIndex Examples.unicode
    (mkRegexp (mkAlternate (lit "a" :: Concat (lit "a") (lit "b") :: nil)) true) "a ab"
  = FindAllStringIndex Examples.unicode
      (mkRegexp (mkAlternate (Concat (lit "a") (lit "b") :: lit "a" :: nil)) true) "a ab".
Proof.
  split; [apply perm_swap |].
  exact (proj1 (proj2 (proj2 (@longest_mode_ignores_order Examples.unicode
           (lit "a" :: Concat (lit "a") (lit "b") :: nil)
           (Concat (lit "a") (lit "b") :: lit "a" :: nil)
           (perm_swap _ _ nil)))) "a ab").
Defined.

(** X16: when every entry of [TLDs] starts with an ASCII byte, [Relaxed]
    makes no use of the entries: it is the matcher of an empty table, with
    the pseudo domains for its only literal top-level domains.  The empty
    list of other domains then stands for the empty string, so that every
    domain, which ends with a dot, is matched as a site by itself. *)
Theorem ascii_table_counts_for_nothing (U : UnicodeTables) (tlds pseudo : list string) :
  forallb asciiFirst tlds = true -> allValid pseudo = true ->
  Relaxed tlds pseudo = Relaxed [] pseudo /\
  Relaxed tlds pseudo = Ok (mkRegexp (relaxedRe (map runes pseudo) []) true) /\
  (forall text i j,
     Matches U text domainRe i j ->
     Matches U text (siteRe (map runes pseudo) []) i j /\
     Matches U text (relaxedRe (map runes pseudo) []) i j).
Proof.
  intros Ha Hv.
  assert (Hs : split tlds = Ok ([], [])).
  { unfold split. rewrite (@firstNonASCII_ascii tlds 0 Ha). reflexivity. }
  assert (R1 : Relaxed tlds pseudo = Ok (mkRegexp (relaxedRe (map runes pseudo) []) true))
    by exact (@Relaxed_spec tlds pseudo [] [] Hs Hv eq_refl).
  assert (R2 : Relaxed [] pseudo = Ok (mkRegexp (relaxedRe (map runes pseudo) []) true))
    by exact (@Relaxed_spec [] pseudo [] [] eq_refl Hv eq_refl).
  split; [now rewrite R1, R2 |]. split; [exact R1 |].
  intros text i j Hd.
  assert (S : Matches U text (siteRe (map runes pseudo) []) i j).
  { unfold siteRe, tldsRe. cbn [Matches]. exists j. split; [exact Hd |].
    right. right. apply Matches_anyOfRe_nil. reflexivity. }
  split; [exact S |].
  unfold relaxedRe, webURLRe, hostNameRe, portRe, pathOptRe. cbn [Matches].
  right. left. exists j. split; [now left |]. exists j. split; now left.
Qed.

Lemma ascii_table_counts_for_nothing_witness :
  Relaxed ["com"; "net"] ["local"] = Relaxed [] ["local"] /\
  (re <- Relaxed ["com"; "net"] ["local"] ;;
   FindAllString Examples.unicode re "example.com") = Ok ["example."].
Proof.
  split.
  - exact (proj1 (@ascii_table_counts_for_nothing Examples.unicode ["com"; "net"] ["local"]
                    eq_refl eq_refl)).
  - vm_compute. reflexivity.
Defined.


(** * ASCII strings *)

Lemma decode_ascii bs :
  forallb (fun b => (b <? RuneSelf)%N) bs = true ->
  decode bs = map (fun b => (b, 1)) bs.
Proof.
  induction bs as [| b bs IH]; [reflexivity |].
  cbn [forallb]. intros H. apply andb_prop in H. destruct H as [Hb Hl].
  cbn [decode map]. rewrite Hb. now rewrite IH.
Qed.

Lemma offset_ones n : forall i, i <= n -> offset (List.repeat 1 n) i = i.
Proof.
  unfold offset. induction n as [| n IH]; intros i Hi.
  - destruct i; [reflexivity | lia].
  - destruct i as [| i]; [reflexivity |]. cbn [List.repeat firstn].
    unfold list_sum in *. cbn [fold_right]. rewrite IH by lia. reflexivity.
Qed.

Lemma ascii_runes s :
  forallb (fun b => (b <? RuneSelf)%N) (bytes s) = true ->
  runes s = bytes s /\
  map snd (decode (bytes s)) = List.repeat 1 (List.length (bytes s)).
Proof.
  intros H. unfold runes. rewrite (decode_ascii _ H), !map_map. cbn [fst snd]. split.
  - apply map_id.
  - induction (bytes s) as [| b l IH]; [reflexivity |]. cbn [map List.length List.repeat].
    cbn [forallb] in H. apply andb_prop in H. destruct H as [_ H]. now rewrite IH.
Qed.

(** * Runes that every match holds *)

Lemma foldOrbit_nonletter U r :
  (r <? RuneSelf)%N = true -> isUpper r = false -> isLower r = false -> foldOrbit U r = [].
Proof. intros H1 H2 H3. unfold foldOrbit. now rewrite H2, H3, H1. Qed.

Section NeedsFacts.
Variable U : UnicodeTables.
Variable text : list rune.
Variable c : rune.
Hypothesis c_ascii : (c <? RuneSelf)%N = true.
Hypothesis c_upper : isUpper c = false.
Hypothesis c_lower : isLower c = false.

Lemma Iter_needs (R : nat -> nat -> Prop) n : forall i j,
  (forall a b, R a b -> a <= b) ->
  (forall a b, R a b -> exists k, a <= k < b /\ at_ text k = Some c) ->
  Iter R (S n) i j -> exists k, i <= k < j /\ at_ text k = Some c.
Proof.
  intros i j Hle HR (m & Hm & Hn). apply (@Iter_le R n m j Hle) in Hn.
  destruct (HR _ _ Hm) as (k & Hk & Hc). exists k. split; [lia | exact Hc].
Qed.

Lemma needs_sound re : forall i j,
  needs c re = true -> Matches U text re i j ->
  exists k, i <= k < j /\ at_ text k = Some c.
Proof.
  induction re; cbn [needs Matches]; intros i j Hn; try discriminate.
  - intros (-> & c' & Hc' & Hm). apply N.eqb_eq in Hn. subst r.
    unfold litMatch in Hm. rewrite (@foldOrbit_nonletter U c c_ascii c_upper c_lower) in Hm.
    cbn [existsb] in Hm. rewrite andb_false_r, orb_false_r in Hm. apply N.eqb_eq in Hm.
    subst c'. exists i. split; [lia | exact Hc'].
  - now apply IHre.
  - intros (n & H). apply (@Iter_needs (Matches U text re) n i j); [intros a b; apply Matches_le | | exact H].
    intros a b. now apply IHre.
  - apply andb_prop in Hn. destruct Hn as [Hmin Hs]. apply Nat.ltb_lt in Hmin.
    intros (n & Hge & _ & H). destruct n as [| n]; [lia |].
    apply (@Iter_needs (Matches U text re) n i j); [intros a b; apply Matches_le | | exact H].
    intros a b. now apply IHre.
  - intros (k & Ha & Hb). pose proof (Matches_le _ _ _ _ _ Ha) as La.
    pose proof (Matches_le _ _ _ _ _ Hb) as Lb.
    apply orb_prop in Hn. destruct Hn as [Hn | Hn].
    + destruct (IHre1 _ _ Hn Ha) as (m & Hm & Hc). exists m. split; [lia | exact Hc].
    + destruct (IHre2 _ _ Hn Hb) as (m & Hm & Hc). exists m. split; [lia | exact Hc].
  - apply andb_prop in Hn. destruct Hn as [H1 H2].
    intros [H | H]; [now apply IHre1 | now apply IHre2].
Qed.

End NeedsFacts.

(** * A label behind ["example."] *)

Section LabelText.
Variable U : UnicodeTables.
Variable tr : list rune.
Variable after : rune.
Hypothesis tr_ldh : forallb isLDH tr = true.

Lemma labelText_at k c :
  at_ (labelText tr after) k = Some c ->
  (k < 8 /\ nth_error (runes "example.") k = Some c) \/
  (8 <= k < (labelEnd tr) /\ nth_error tr (k - 8) = Some c /\ isLDH c = true) \/
  (k = (labelEnd tr) /\ c = after).
Proof.
  unfold at_, labelText, labelEnd. intros H.
  destruct (Nat.lt_ge_cases k 8) as [Hk | Hk].
  - left. split; [exact Hk |]. rewrite nth_error_app1 in H by (simpl; lia). exact H.
  - right. rewrite nth_error_app2 in H by (simpl; lia).
    change (List.length (runes "example.")) with 8 in H.
    destruct (Nat.lt_ge_cases (k - 8) (List.length tr)) as [Hl | Hl].
    + left. rewrite nth_error_app1 in H by exact Hl. split; [lia |]. split; [exact H |].
      rewrite forallb_forall in tr_ldh. apply tr_ldh. now apply nth_error_In in H.
    + right. rewrite nth_error_app2 in H by exact Hl.
      destruct (k - 8 - List.length tr) as [| m] eqn:E.
      * cbn in H. injection H as <-. split; [lia | reflexivity].
      * destruct m; discriminate.
Qed.

Lemma ldh_facts c :
  isLDH c = true ->
  c <> chr "." /\ c <> chr ":" /\ c <> chr "/" /\ c <> chr "@" /\ (c < RuneSelf)%N.
Proof.
  unfold isLDH, isalnum, isDigit, isUpper, isLower. intros H.
  assert (R : (48 <= c <= 57 \/ 65 <= c <= 90 \/ 97 <= c <= 122 \/ c = 45)%N).
  { repeat (apply orb_prop in H; destruct H as [H | H]);
      try (apply andb_prop in H; destruct H as [H1 H2]; apply N.leb_le in H1, H2; lia).
    apply N.eqb_eq in H. right. right. right. exact H. }
  change (chr ".") with 46%N. change (chr ":") with 58%N. change (chr "/") with 47%N.
  change (chr "@") with 64%N. unfold RuneSelf. lia.
Qed.

Hypothesis after_ldh : isLDH after = true.

(** The text has one dot, and no colon, slash or at sign. *)
Lemma labelText_runes k c :
  at_ (labelText tr after) k = Some c ->
  (c = chr "." -> k = 7) /\ c <> chr ":" /\ c <> chr "/" /\ c <> chr "@" /\
  (c < RuneSelf)%N.
Proof.
  intros H. apply labelText_at in H. destruct H as [[Hk H] | [(Hk & _ & H) | [_ ->]]].
  - do 8 (destruct k as [| k]; [cbn in H; injection H as <-;
            repeat split; try discriminate; try reflexivity; intros E; discriminate E |]).
    lia.
  - destruct (ldh_facts _ H) as (H1 & H2 & H3 & H4 & H5). repeat split; try assumption.
    intros E. contradiction.
  - destruct (ldh_facts _ after_ldh) as (H1 & H2 & H3 & H4 & H5).
    repeat split; try assumption. intros E. contradiction.
Qed.

Lemma labelText_dot : at_ (labelText tr after) 7 = Some (chr ".").
Proof. reflexivity. Qed.

Lemma labelText_after : at_ (labelText tr after) (labelEnd tr) = Some after.
Proof.
  unfold at_, labelText, labelEnd. rewrite nth_error_app2 by (simpl; lia).
  change (List.length (runes "example.")) with 8.
  replace (8 + List.length tr - 8) with (List.length tr) by lia.
  rewrite nth_error_app2 by lia. now rewrite Nat.sub_diag.
Qed.

Lemma labelText_length : List.length (labelText tr after) = S (labelEnd tr).
Proof.
  unfold labelText, labelEnd. rewrite !length_app. cbn [List.length].
  change (List.length (runes "example.")) with 8. lia.
Qed.

End LabelText.

(** The class of a punycode label takes the ASCII letters and digits. *)
Lemma puny_alnum U c : isalnum c = true -> inClass U punyCharRe c = true.
Proof.
  intros H. unfold inClass, punyCharRe, classMatch, itemMatch.
  cbn [existsb xorb negated inSet andb].
  unfold isalnum in H. apply orb_prop in H. destruct H as [H | Hl].
  - apply orb_prop in H. destruct H as [Hd | Hu].
    + unfold isDigit in Hd. change 0x30%N with 48%N in Hd. change 0x39%N with 57%N in Hd.
      rewrite Hd. cbn [orb]. now rewrite ?orb_true_r.
    + unfold foldOrbit. rewrite Hu. cbn [existsb inSet].
      unfold isUpper in Hu. apply andb_prop in Hu. destruct Hu as [A1 A2].
      apply N.leb_le in A1, A2.
      replace ((97 <=? c + 32) && (c + 32 <=? 122))%N with true
        by (symmetry; apply andb_true_intro; split; apply N.leb_le; lia).
      cbn [orb]. now rewrite ?orb_true_r.
  - unfold isLower in Hl. change 0x61%N with 97%N in Hl. change 0x7A%N with 122%N in Hl.
    rewrite Hl. reflexivity.
Qed.

(** A rune outside ASCII that is no case variant of an ASCII letter matches
    no ASCII rune, case disregarded. *)
Lemma litMatch_foreign U r c :
  (RuneSelf <= r)%N -> r <> KelvinSign -> r <> LongS -> (c < RuneSelf)%N ->
  litMatch U true r c = false.
Proof.
  intros Hr Hk Hs Hc. unfold litMatch.
  destruct (N.eqb_spec c r) as [-> | _]; [lia |]. cbn [orb andb].
  destruct (existsb (N.eqb c) (foldOrbit U r)) eqn:E; [| reflexivity]. exfalso.
  apply existsb_exists in E. destruct E as (x & Hx & Ex). apply N.eqb_eq in Ex. subst x.
  unfold foldOrbit, isUpper, isLower in Hx. unfold RuneSelf in *.
  replace ((0x41 <=? r) && (r <=? 0x5A))%N with false in Hx
    by (symmetry; apply andb_false_iff; right; apply N.leb_gt; lia).
  replace ((0x61 <=? r) && (r <=? 0x7A))%N with false in Hx
    by (symmetry; apply andb_false_iff; right; apply N.leb_gt; lia).
  replace (r <? 128)%N with false in Hx by (symmetry; apply N.ltb_ge; lia).
  replace (r =? KelvinSign)%N with false in Hx by (symmetry; now apply N.eqb_neq).
  replace (r =? LongS)%N with false in Hx by (symmetry; now apply N.eqb_neq).
  apply filter_In in Hx. destruct Hx as [_ Hx]. apply N.leb_le in Hx. lia.
Qed.

Section NoMatchAtLabel.
Variable U : UnicodeTables.
Variable tr : list rune.
Variable after : rune.
Hypothesis tr_ldh : forallb isLDH tr = true.
Hypothesis tr_last : exists c, nth_error tr (List.length tr - 1) = Some c /\ isalnum c = true.
Hypothesis after_alnum : isalnum after = true.

Let T := labelText tr after.
Let E := labelEnd tr.

Lemma after_ldh : isLDH after = true.
Proof. unfold isLDH. now rewrite after_alnum. Qed.

Lemma tr_nonempty : 0 < List.length tr.
Proof.
  destruct tr_last as (c & Hc & _). destruct tr; [discriminate | simpl; lia].
Qed.

Lemma no_rune c k (P : Prop) :
  c = chr ":" \/ c = chr "/" \/ c = chr "@" -> at_ T k = Some c -> P.
Proof.
  intros Hc H. apply (@labelText_runes tr after tr_ldh after_ldh k c) in H.
  destruct H as (_ & H1 & H2 & H3 & _). exfalso. intuition.
Qed.

Lemma one_dot k : at_ T k = Some (chr ".") -> k = 7.
Proof.
  intros H. apply (@labelText_runes tr after tr_ldh after_ldh k (chr ".")) in H. now apply H.
Qed.

Lemma no_boundary : wordBoundary T E = false.
Proof.
  unfold wordBoundary. fold (at_ T E). unfold T, E. rewrite labelText_after.
  assert (B : before (labelText tr after) (labelEnd tr)
              = nth_error tr (List.length tr - 1)).
  { pose proof tr_nonempty as Hn. unfold before, labelEnd, labelText.
    replace (8 + List.length tr) with (S (7 + List.length tr)) by lia.
    rewrite nth_error_app2 by (simpl; lia).
    change (List.length (runes "example.")) with 8.
    rewrite nth_error_app1 by lia. f_equal; lia. }
  rewrite B. destruct tr_last as (c & -> & Hc). cbn [isWord]. unfold isWordChar.
  now rewrite Hc, after_alnum.
Qed.

(** A punycode label that ends before the rune [after] goes on through
    it. *)
Lemma punycode_goes_on i : Matches U T punycodeRe i E -> Matches U T punycodeRe i (S E).
Proof.
  unfold punycodeRe. cbn [Matches].
  intros (k1 & H1 & k2 & H2 & k3 & H3 & k4 & H4 & n & Hn).
  exists k1. split; [exact H1 |]. exists k2. split; [exact H2 |].
  exists k3. split; [exact H3 |]. exists k4. split; [exact H4 |].
  exists (S n). apply Iter_snoc with E; [exact Hn |].
  change (Matches U T punyCharRe E (S E)) with (Step T (inClass U punyCharRe) E (S E)).
  split; [reflexivity |]. exists after. split; [apply labelText_after |].
  now apply puny_alnum.
Qed.

(** A match that ends with the label goes on through the rune behind
    it. *)
Lemma match_at_label_goes_on A Uc b :
  (forall x, In x Uc ->
     exists r rest, x = r :: rest /\ (RuneSelf <= r)%N /\ r <> KelvinSign /\ r <> LongS) ->
  Matches U T (relaxedRe A Uc) b E -> Matches U T (relaxedRe A Uc) b (S E).
Proof.
  intros Hf. unfold relaxedRe. cbn [Matches]. intros [Hs | [Hw | He]].
  - exfalso. apply (@needs_sound U T (chr ":") eq_refl eq_refl eq_refl) in Hs;
      [| vm_compute; reflexivity].
    destruct Hs as (k & _ & Hc). apply (@no_rune (chr ":") k); [tauto | exact Hc].
  - unfold webURLRe in Hw. cbn [Matches] in Hw. destruct Hw as (h & Hh & p & Hp & Hq).
    apply port_spec in Hp. destruct Hp as [-> | (Hc & _)];
      [| apply (@no_rune (chr ":") h); [tauto | exact Hc]].
    unfold pathOptRe in Hq. cbn [Matches] in Hq.
    assert (Eh : E = h).
    { destruct Hq as [Hq | [(k & Hsl & _) | Hsl]]; [exact Hq | |];
        apply Matches_lit in Hsl; destruct Hsl as [_ Hc];
        apply (@no_rune (chr "/") h); tauto. }
    clear Hq. subst h. unfold hostNameRe in Hh. cbn [Matches] in Hh.
    destruct Hh as [Hsite | Hip].
    + unfold siteRe in Hsite. cbn [Matches] in Hsite. destruct Hsite as (d & Hd & Ht).
      assert (Hd8 : d = 8).
      { change domainRe with (Plus labelRe) in Hd. cbn [Matches] in Hd.
        destruct Hd as (n & Hn). apply labels_spec in Hn.
        destruct Hn as [L1 _ L3 _ _ _]. apply one_dot in L3. lia. }
      unfold tldsRe in Ht. cbn [Matches] in Ht.
      destruct Ht as [Hp | [(k & _ & Ek & Hb) | Hu]].
      * apply punycode_goes_on in Hp. right. left.
        unfold webURLRe, hostNameRe, siteRe, tldsRe, portRe, pathOptRe. cbn [Matches].
        exists (S E). split.
        -- left. exists d. split; [exact Hd | now left].
        -- exists (S E). split; now left.
      * rewrite <- Ek, no_boundary in Hb. discriminate.
      * exfalso. destruct Uc as [| y Uc'].
        -- apply Matches_anyOfRe_nil in Hu. pose proof tr_nonempty. unfold E, labelEnd in Hu.
           lia.
        -- apply Matches_anyOfRe in Hu; [| discriminate]. destruct Hu as (x & Hx & Hm).
           destruct (Hf x Hx) as (r & rest & -> & Hr & Hk & Hs).
           apply Matches_literalRe in Hm. destruct Hm as [_ Hall].
           destruct (Hall 0 ltac:(simpl; lia)) as (c & Hc & Hlm). cbn [nth] in Hlm.
           pose proof (@labelText_runes tr after tr_ldh after_ldh _ _ Hc) as (_ & _ & _ & _ & Hlt).
           rewrite (litMatch_foreign U Hr Hk Hs Hlt) in Hlm. discriminate.
    + exfalso. unfold ipAddrRe in Hip. cbn [Matches] in Hip. destruct Hip as [H4 | H6].
      * unfold ipv4Re in H4. cbn [Matches] in H4.
        destruct H4 as (k0 & _ & k1 & _ & k2 & D1 & k3 & O2 & k4 & D2 & _).
        apply Matches_lit in D1, D2. destruct D1 as [-> D1], D2 as [_ D2].
        apply one_dot in D1, D2. apply Matches_le in O2. lia.
      * apply (@needs_sound U T (chr ":") eq_refl eq_refl eq_refl) in H6;
          [| vm_compute; reflexivity].
        destruct H6 as (k & _ & Hc). apply (@no_rune (chr ":") k); [tauto | exact Hc].
  - exfalso. unfold emailRe in He. cbn [Matches] in He.
    destruct He as (p & _ & q & Ha & _). apply Matches_lit in Ha. destruct Ha as [_ Hc].
    apply (@no_rune (chr "@") p); tauto.
Qed.

End NoMatchAtLabel.

Lemma rev_head_last (A : Type) (l : list A) c r :
  rev l = c :: r -> nth_error l (List.length l - 1) = Some c.
Proof.
  intros H. assert (E : l = (rev r ++ [c])%list).
  { rewrite <- (rev_involutive l), H. reflexivity. }
  subst l. rewrite length_app, length_rev. cbn [List.length].
  rewrite nth_error_app2 by (rewrite length_rev; lia).
  rewrite length_rev. replace (List.length r + 1 - 1 - List.length r) with 0 by lia.
  reflexivity.
Qed.

Lemma ldh_ascii l : forallb isLDH l = true -> forallb (fun b => (b <? RuneSelf)%N) l = true.
Proof.
  intros H. apply forallb_forall. intros c Hc. rewrite forallb_forall in H.
  destruct (ldh_facts _ (H c Hc)) as (_ & _ & _ & _ & Hlt). now apply N.ltb_lt.
Qed.

(** The runes and the byte offsets of the text of an ASCII label with one
    rune behind it. *)
Lemma labelText_string t (after : ascii) :
  forallb isLDH (bytes t) = true -> isLDH (chr after) = true ->
  let s := "example." ++ t ++ String after "" in
  runes s = labelText (bytes t) (chr after) /\
  forall i, i <= List.length (runes s) -> offset (map snd (decode (bytes s))) i = i.
Proof.
  intros Ht Ha s.
  assert (Hb : bytes s = labelText (bytes t) (chr after)).
  { unfold s. rewrite !bytes_app. reflexivity. }
  assert (Hs : forallb (fun b => (b <? RuneSelf)%N) (bytes s) = true).
  { rewrite Hb. unfold labelText. rewrite forallb_app.
    apply andb_true_intro. split; [reflexivity |]. rewrite forallb_app.
    apply andb_true_intro. split; [exact (ldh_ascii _ Ht) |].
    cbn [forallb]. destruct (ldh_facts _ Ha) as (_ & _ & _ & _ & Hlt).
    apply N.ltb_lt in Hlt. rewrite Hlt. reflexivity. }
  destruct (ascii_runes s Hs) as [Hr Hw]. split; [now rewrite Hr |].
  intros i Hi. rewrite Hw. apply offset_ones. now rewrite Hr in Hi.
Qed.

Lemma foreign_runes u :
  forallb foreignFirst u = true ->
  forall x, In x (map runes u) ->
    exists r rest, x = r :: rest /\ (RuneSelf <= r)%N /\ r <> KelvinSign /\ r <> LongS.
Proof.
  intros Hfor x Hx. apply in_map_iff in Hx. destruct Hx as (y & <- & Hy).
  rewrite forallb_forall in Hfor. specialize (Hfor y Hy).
  unfold foreignFirst in Hfor. destruct (runes y) as [| r0 rest]; [discriminate |].
  apply andb_prop in Hfor. destruct Hfor as [Hfor H3]. apply andb_prop in Hfor.
  destruct Hfor as [H1 H2]. exists r0, rest. split; [reflexivity |].
  apply N.leb_le in H1. apply negb_true_iff, N.eqb_neq in H2, H3. now repeat split.
Qed.

Lemma asciiLabel_spec t :
  asciiLabel t = true ->
  forallb isLDH (bytes t) = true /\
  exists c, nth_error (bytes t) (List.length (bytes t) - 1) = Some c /\ isalnum c = true.
Proof.
  unfold asciiLabel. intros H. apply andb_prop in H. destruct H as [Hldh Hlast].
  split; [exact Hldh |].
  destruct (rev (bytes t)) as [| c r] eqn:Erev; [discriminate |].
  apply rev_head_last in Erev. now exists c.
Qed.

(** X17: an ASCII label right before a letter or digit is the end of no
    match: on the text ["example."], a label of letters, digits and
    hyphens that ends with a letter or digit, and ["x"], no span that
    [Relaxed] reports ends where the label ends, whatever the tables hold,
    provided the entries from the first one on that starts with another
    byte all start with a rune outside ASCII that is no case variant of an
    ASCII letter. *)
Theorem no_match_ends_at_ascii_label_before_x (U : UnicodeTables)
    (tlds pseudo : list string) (t : string) :
  wellFormed tlds pseudo = true ->
  asciiLabel t = true ->
  (forall a u, split tlds = Ok (a, u) -> forallb foreignFirst u = true) ->
  exists re,
    Relaxed tlds pseudo = Ok re /\
    forall ms b e,
      FindAllStringIndex U re ("example." ++ t ++ "x") = Ok ms -> In (b, e) ms ->
      e <> 8 + String.length t.
Proof.
  intros Hw Ht Hfor. destruct (split_wellFormed _ _ Hw) as (a & u & Hsp & Hva & Hvu).
  exists (mkRegexp (relaxedRe (map runes (a ++ pseudo)) (map runes u)) true).
  split; [exact (Relaxed_spec _ _ Hsp Hva Hvu) |].
  intros ms b e Hms Hin.
  destruct (asciiLabel_spec _ Ht) as [Hldh Hlast].
  destruct (@labelText_string t "x" Hldh eq_refl) as [Hr Hoff].
  destruct (@reported_spans U _ _ ms b e Hms Hin) as (i & j & -> & -> & Hi & Hl).
  cbn [prog] in Hl.
  apply longestAt_Some in Hl; [| exact Hi]. destruct Hl as [Hm Hmax].
  pose proof (@Matches_bounded U _ _ i j Hi Hm) as Hj.
  rewrite (Hoff j Hj). intros Ej.
  rewrite <- bytes_length in Ej. change (8 + List.length (bytes t)) with (labelEnd (bytes t)) in Ej.
  subst j. rewrite Hr in Hm, Hmax.
  apply (@match_at_label_goes_on U (bytes t) (chr "x") Hldh) in Hm.
  - apply Hmax in Hm. lia.
  - exact Hlast.
  - reflexivity.
  - exact (foreign_runes _ (Hfor a u Hsp)).
Qed.

Lemma no_match_ends_at_ascii_label_before_x_witness :
  exists re,
    Relaxed Examples.tlds Examples.pseudo = Ok re /\
    FindAllStringIndex Examples.unicode re "example.comx" = Ok [] /\
    forall ms b e,
      FindAllStringIndex Examples.unicode re "example.comx" = Ok ms -> In (b, e) ms ->
      e <> 11.
Proof.
  destruct (@no_match_ends_at_ascii_label_before_x Examples.unicode Examples.tlds
              Examples.pseudo "com" eq_refl eq_refl) as (re & Hre & H).
  - intros a u Hs.
    assert (Hs' : split Examples.tlds = Ok (firstn 4 Examples.tlds, skipn 4 Examples.tlds))
      by reflexivity.
    rewrite Hs in Hs'. injection Hs' as _ ->. reflexivity.
  - exists re. split; [exact Hre |]. split; [| exact H].
    assert (R : Relaxed Examples.tlds Examples.pseudo
                = Ok (mkRegexp (relaxedRe (map runes ["com"; "net"; "org"; "uk"; "local"; "onion"])
                                  (map runes ["рф"; "한국"])) true))
      by (vm_compute; reflexivity).
    rewrite Hre in R. injection R as ->. vm_compute. reflexivity.
Defined.

(** * A top-level domain behind ["example."] *)



Section Prefix.
Variable U : UnicodeTables.
Variable l1 l2 : list rune.

Lemma Step_prefix p i j : Step l1 p i j -> Step (l1 ++ l2) p i j.
Proof.
  intros (-> & c & Hc & Hp). split; [reflexivity |]. exists c. split; [| exact Hp].
  unfold at_ in *. rewrite nth_error_app1; [exact Hc |].
  apply nth_error_Some. congruence.
Qed.

(** A match in a text is a match in every text that goes on. *)
Lemma Matches_prefix re : forall i j,
  pure re = true -> Matches U l1 re i j -> Matches U (l1 ++ l2) re i j.
Proof.
  induction re; cbn [pure Matches]; intros i j Hp; try discriminate;
    try (apply Step_prefix); try (intros H; exact H).
  - now apply IHre.
  - intros (n & Hn). exists n. revert Hn. apply Iter_ext. intros a b. now apply IHre.
  - intros (n & Hn). exists n. revert Hn. apply Iter_ext. intros a b. now apply IHre.
  - intros [H | H]; [now left | right; now apply IHre].
  - intros (n & H1 & H2 & Hn). exists n. split; [exact H1 |]. split; [exact H2 |].
    revert Hn. apply Iter_ext. intros a b. now apply IHre.
  - apply andb_prop in Hp. destruct Hp as [P1 P2].
    intros (k & Ha & Hb). exists k. split; [now apply IHre1 | now apply IHre2].
  - apply andb_prop in Hp. destruct Hp as [P1 P2].
    intros [H | H]; [left; now apply IHre1 | right; now apply IHre2].
Qed.

End Prefix.

Section Through.
Variable U : UnicodeTables.
Variable A Uc : list (list rune).
Variable x tail : list rune.

Let T := (runes "example." ++ x ++ tail)%list.

Lemma through_literal : Matches U T (literalRe true x) 8 (8 + List.length x).
Proof.
  apply Matches_literalRe. split; [reflexivity |]. intros k Hk.
  exists (nth k x 0%N). split.
  - unfold at_, T. rewrite nth_error_app2 by (simpl; lia).
    change (List.length (runes "example.")) with 8.
    replace (8 + k - 8) with k by lia. rewrite nth_error_app1 by exact Hk.
    now apply nth_error_nth'.
  - unfold litMatch. now rewrite N.eqb_refl.
Qed.

Lemma through_domain : Matches U T domainRe 0 8.
Proof.
  unfold T. apply Matches_prefix; [reflexivity |].
  apply ends_single; [vm_compute; lia |]. vm_compute. tauto.
Qed.

(** With the top-level domain [x] behind ["example."], the expression
    matches through [x]. *)
Lemma through_site :
  In x Uc \/ (In x A /\ wordBoundary T (8 + List.length x) = true) ->
  Matches U T (relaxedRe A Uc) 0 (8 + List.length x).
Proof.
  intros H. unfold relaxedRe, webURLRe, hostNameRe, siteRe, tldsRe, portRe, pathOptRe.
  cbn [Matches]. right. left. exists (8 + List.length x). split.
  - left. exists 8. split; [exact through_domain |]. right.
    destruct H as [Hu | [Ha Hb]].
    + right. apply Matches_anyOfRe; [intros ->; contradiction |].
      exists x. split; [exact Hu | exact through_literal].
    + left. exists (8 + List.length x). split.
      * apply Matches_anyOfRe; [intros ->; contradiction |].
        exists x. split; [exact Ha | exact through_literal].
      * split; [reflexivity | exact Hb].
  - exists (8 + List.length x). split; now left.
Qed.

End Through.

Section FirstReported.
Variable U : UnicodeTables.
Variable text : list rune.

(** A match at the start of the text: the first span reported starts
    there and reaches as far at least. *)
Lemma first_reported re e0 :
  Matches U text re 0 e0 -> 0 < e0 ->
  exists e rest,
    allMatches U text re (2 + List.length text) 0 None = (0, e) :: rest /\ e0 <= e.
Proof.
  intros Hm He. destruct (@longestAt_exists U text re 0 e0 ltac:(lia) Hm) as (e & Hl & Hle).
  assert (Ex : execute U text re 0 = Some (0, e)).
  { unfold execute. rewrite Nat.sub_0_r. cbn [search]. now rewrite Hl. }
  destruct (@allMatches_first U text re (S (List.length text)) 0 e Ex ltac:(lia))
    as (rest & Hr).
  exists e, rest. split; [exact Hr | exact Hle].
Qed.

End FirstReported.

Lemma offset_app ws1 ws2 : offset (ws1 ++ ws2) (List.length ws1) = list_sum ws1.
Proof.
  unfold offset. rewrite firstn_app, Nat.sub_diag, firstn_all. cbn [firstn].
  now rewrite app_nil_r.
Qed.

(** The byte offset of the end of the entry [t] behind ["example."]. *)
Lemma through_offset t after :
  ValidString t = true ->
  let s := "example." ++ t ++ after in
  runes s = (runes "example." ++ runes t ++ runes after)%list /\
  offset (map snd (decode (bytes s))) (8 + List.length (runes t)) = 8 + String.length t.
Proof.
  intros Hv s. unfold s. split.
  - rewrite runes_app by reflexivity. now rewrite runes_app by exact Hv.
  - rewrite bytes_app, decode_app_valid by reflexivity.
    rewrite bytes_app, decode_app_valid by exact Hv.
    rewrite app_assoc, map_app.
    replace (8 + List.length (runes t))
      with (List.length (map snd (decode (bytes "example.") ++ decode (bytes t)))).
    + rewrite offset_app, map_app. unfold list_sum. rewrite fold_right_app.
      fold (list_sum (map snd (decode (bytes t)))). rewrite decode_widths, bytes_length.
      change (map snd (decode (bytes "example."))) with [1; 1; 1; 1; 1; 1; 1; 1].
      cbn [fold_right]. lia.
    + rewrite length_map, length_app. unfold runes. rewrite length_map. reflexivity.
Qed.

(** A match at the start of a string: the first span reported starts
    there and reaches as far at least. *)
Lemma reported_first U re s e0 :
  longest re = true -> Matches U (runes s) (prog re) 0 e0 -> 0 < e0 ->
  exists e rest,
    FindAllStringIndex U re s
    = Ok ((0, offset (map snd (decode (bytes s))) e) :: rest) /\ e0 <= e.
Proof.
  intros Hl Hm He. unfold FindAllStringIndex. rewrite Hl. cbv zeta.
  change (map fst (decode (bytes s))) with (runes s).
  destruct (@first_reported U (runes s) (prog re) e0 Hm He) as (e & rest & Ha & Hle).
  rewrite Ha. cbn [map fst snd]. eexists _, _. split; [reflexivity | exact Hle].
Qed.

Lemma reported_through U re t after e0 :
  longest re = true -> ValidString t = true ->
  Matches U (runes "example." ++ runes t ++ runes after) (prog re) 0 e0 ->
  8 + List.length (runes t) <= e0 ->
  exists e rest,
    FindAllStringIndex U re ("example." ++ t ++ after) = Ok ((0, e) :: rest) /\
    8 + String.length t <= e.
Proof.
  intros Hl Hv Hm He. destruct (through_offset t after Hv) as [Hr Ho].
  generalize dependent ("example." ++ t ++ after). intros s Hr Ho.
  rewrite <- Hr in Hm.
  destruct (@reported_first U re s e0 Hl Hm ltac:(lia)) as (e & rest & Ha & Hle).
  eexists _, rest. split; [exact Ha |].
  rewrite <- Ho. apply offset_mono. lia.
Qed.

(** X18: a top-level domain of the tables behind ["example."] is matched
    through.  With an entry of the ASCII list or a pseudo domain that is
    an ASCII label, and ["!"] behind it, the first span [Relaxed] reports
    starts at the start of the text and reaches the end of the entry at
    least.  With an entry of the other list so it does whatever comes
    behind the entry, a letter as well. *)
Theorem tld_of_the_tables_is_matched_through (U : UnicodeTables)
    (tlds pseudo : list string) (t : string) :
  wellFormed tlds pseudo = true ->
  exists re a u,
    Relaxed tlds pseudo = Ok re /\ split tlds = Ok (a, u) /\
    (In t (a ++ pseudo) -> asciiLabel t = true ->
     exists e rest,
       FindAllStringIndex U re ("example." ++ t ++ "!") = Ok ((0, e) :: rest) /\
       8 + String.length t <= e) /\
    (In t u -> forall after,
     exists e rest,
       FindAllStringIndex U re ("example." ++ t ++ after) = Ok ((0, e) :: rest) /\
       8 + String.length t <= e).
Proof.
  intros Hw. destruct (split_wellFormed _ _ Hw) as (a & u & Hsp & Hva & Hvu).
  pose (re := mkRegexp (relaxedRe (map runes (a ++ pseudo)) (map runes u)) true).
  exists re, a, u.
  split; [exact (Relaxed_spec _ _ Hsp Hva Hvu) |]. split; [exact Hsp |]. split.
  - intros Hin Hlab. destruct (asciiLabel_spec _ Hlab) as [Hldh (c & Hc & Hal)].
    assert (Hr : runes t = bytes t) by (apply ascii_runes, ldh_ascii, Hldh).
    assert (Hv : ValidString t = true).
    { unfold allValid in Hva. rewrite forallb_forall in Hva. now apply Hva. }
    apply (@reported_through U re t "!" (8 + List.length (runes t)) eq_refl Hv); [| lia].
    cbn [prog]. apply through_site. right. split; [now apply in_map |].
    unfold wordBoundary.
    assert (B : before (runes "example." ++ runes t ++ runes "!") (8 + List.length (runes t))
                = Some c).
    { rewrite Hr. assert (0 < List.length (bytes t)) by (destruct (bytes t); [discriminate | simpl; lia]).
      change (before (runes "example." ++ bytes t ++ runes "!") (8 + List.length (bytes t)))
        with (nth_error (runes "example." ++ bytes t ++ runes "!")
                (7 + List.length (bytes t))).
      rewrite nth_error_app2 by (simpl; lia).
      change (List.length (runes "example.")) with 8.
      rewrite nth_error_app1 by lia. rewrite <- Hc. f_equal; lia. }
    assert (N : nth_error (runes "example." ++ runes t ++ runes "!") (8 + List.length (runes t))
                = Some (chr "!")).
    { rewrite nth_error_app2 by (simpl; lia).
      change (List.length (runes "example.")) with 8.
      replace (8 + List.length (runes t) - 8) with (List.length (runes t)) by lia.
      rewrite nth_error_app2 by lia. now rewrite Nat.sub_diag. }
    rewrite B. unfold at_. rewrite N. cbn [isWord]. unfold isWordChar. rewrite Hal. reflexivity.
  - intros Hin after.
    assert (Hv : ValidString t = true).
    { unfold allValid in Hvu. rewrite forallb_forall in Hvu. now apply Hvu. }
    apply (@reported_through U re t after (8 + List.length (runes t)) eq_refl Hv); [| lia].
    cbn [prog]. apply through_site. left. now apply in_map.
Qed.

Lemma tld_of_the_tables_is_matched_through_witness :
  wellFormed Examples.tlds Examples.pseudo = true /\
  exists re e rest,
    Relaxed Examples.tlds Examples.pseudo = Ok re /\
    FindAllStringIndex Examples.unicode re "example.com!" = Ok ((0, e) :: rest) /\ 11 <= e.
Proof.
  split; [reflexivity |].
  destruct (@tld_of_the_tables_is_matched_through Examples.unicode Examples.tlds
              Examples.pseudo "com" eq_refl) as (re & a & u & Hre & Hs & H & _).
  assert (Hs' : split Examples.tlds = Ok (firstn 4 Examples.tlds, skipn 4 Examples.tlds))
    by reflexivity.
  rewrite Hs in Hs'. injection Hs' as -> ->.
  destruct (H (or_introl eq_refl) eq_refl) as (e & rest & He & Hle).
  exists re, e, rest. split; [exact Hre |]. split; [exact He | exact Hle].
Defined.
